(** * media-agent: episode resolver, classifier, naming, STRM generation,
      and the Alist storage client

    A shallow embedding of the parts of the Python sources that the
    specification's testable properties talk about, followed by the
    proofs of these properties.

    - [backend/agents/models/tmdb_mapping.py]   modules [TmdbMapping] and
                                                [MappingCache]
    - [backend/agents/classifier.py]            modules [Classifier] and
                                                [ClassifierBatch]
    - [backend/agents/models/enums.py]          module [Enums]
    - [backend/utils/path_utils.py]             module [PathUtils]
    - [backend/utils/naming.py]                 modules [Naming] and
                                                [NamingFolders]
    - [backend/agents/tools/strm_tools.py]      modules [Strm], [Retry],
                                                [StrmLayout], [SubtitleBatch]
    - [backend/services/alist_service.py]       module [Alist]
    - the library calls they rely on            modules [Py], [Str], [Regex],
                                                [OsPath], [Url]

    Conventions.  A Python [int] is a [Z].  A Python [str] is a Rocq
    [string] holding the UTF-8 encoding of the text, so that
    [urllib.parse.quote] sees exactly the bytes it sees in Python and the
    ideographs of the patterns are written as literals.  [None] is [None];
    a dictionary is a [gmap] or, when its keys are fixed, a record of
    optional fields.  Case folding, [\d], [\s] and [int] are modelled on
    the ASCII range: a file name that uses a non-ASCII digit, white space
    or case variant is outside the model.  Calls that leave the process
    are oracles: functions for what the resolver reads from TMDB, a script
    of answers threaded through an explicit state for the storage client,
    and a store of an arbitrary type for the retry tool.  An exception is
    the [Raised] case of [outcome]. *)

From Stdlib Require Import ZArith Ascii String DecimalString DecimalPos Bool Lia.
From stdpp Require Import gmap strings list sorting.

Local Open Scope string_scope.
Local Open Scope list_scope.
Local Open Scope Z_scope.

(** ** Python built-ins shared by the modules *)

Module Py.

(** [str(n)] for an integer. *)
Definition str_of_int (z : Z) : string := NilZero.string_of_int (Z.to_int z).

(** [f"{n:02d}"]: sign-aware zero padding to width two. *)
Definition fmt_02d (z : Z) : string :=
  if (0 <=? z) && (z <? 10) then "0" +:+ str_of_int z else str_of_int z.

(** [range(lo, hi)]. *)
Definition range (lo hi : Z) : list Z := seqZ lo (hi - lo).

(** [a or b] on optional strings: [None] and the empty string are falsy. *)
Definition truthy (o : option string) : option string :=
  match o with
  | Some s => if String.eqb s EmptyString then None else Some s
  | None => None
  end.

Definition or_else (o : option string) (d : string) : string :=
  match truthy o with Some s => s | None => d end.

End Py.

(** ** tmdb_mapping.py *)

Module TmdbMapping.

Record EpisodeInfo := mkEpisodeInfo {
  season : Z;
  episode_in_season : Z;
  tmdb_episode : Z;
  cumulative : Z
}.

(** [EpisodeInfo.to_output_name]. *)
Definition to_output_name (e : EpisodeInfo) : string :=
  "S" +:+ Py.fmt_02d (season e) +:+ "E" +:+ Py.fmt_02d (tmdb_episode e).

Record TMDBMapping := mkTMDBMapping {
  tmdb_id : Z;
  title : string;
  media_type : string;
  by_cumulative : gmap Z EpisodeInfo;
  by_season_episode : gmap (Z * Z) EpisodeInfo;
  total_seasons : Z;
  total_episodes : Z
}.

(** What the resolver reads from the metadata collaborator. *)
Record TMDBMediaInfo := mkTMDBMediaInfo {
  info_title : string;
  info_title_zh : option string;
  seasons_count : option Z
}.

(** One element of a season's ['episodes'] list; [episode_number] may be
    missing, [ep.get('episode_number', i + 1)] then falls back. *)
Record Episode := mkEpisode { episode_number : option Z }.

(** The dictionary returned by [get_tv_season]; ['episodes'] may be absent. *)
Record SeasonInfo := mkSeasonInfo { episodes : option (list Episode) }.

Record TMDBService := mkTMDBService {
  get_tv_details : Z -> option TMDBMediaInfo;
  get_tv_season : Z -> Z -> option SeasonInfo
}.

(** The mutable part of the loop: the two indexes and the local counter. *)
Record Builder := mkBuilder {
  b_by_cumulative : gmap Z EpisodeInfo;
  b_by_season_episode : gmap (Z * Z) EpisodeInfo;
  b_cumulative : Z
}.

(** Body of [for i, ep in enumerate(episodes)], with [i] explicit. *)
Definition episode_step (season_num i : Z) (ep : Episode) (b : Builder) : Builder :=
  let cumulative := b_cumulative b + 1 in
  let tmdb_ep := match episode_number ep with Some n => n | None => i + 1 end in
  let episode_info := mkEpisodeInfo season_num (i + 1) tmdb_ep cumulative in
  mkBuilder (<[cumulative := episode_info]> (b_by_cumulative b))
            (<[(season_num, i + 1) := episode_info]> (b_by_season_episode b))
            cumulative.

Fixpoint episodes_loop (season_num i : Z) (eps : list Episode) (b : Builder) : Builder :=
  match eps with
  | [] => b
  | ep :: rest => episodes_loop season_num (i + 1) rest (episode_step season_num i ep b)
  end.

(** Body of [for season_num in range(1, seasons_count + 1)]; the two
    [continue] statements leave the builder untouched. *)
Definition season_step (svc : TMDBService) (id : Z) (b : Builder) (season_num : Z) : Builder :=
  match get_tv_season svc id season_num with
  | None => b
  | Some season_info =>
      match episodes season_info with
      | None => b
      | Some eps => episodes_loop season_num 0 eps b
      end
  end.

Definition seasons_or_zero (tv_info : TMDBMediaInfo) : Z :=
  match seasons_count tv_info with Some n => n | None => 0 end.

Definition build_episode_mapping (id : Z) (svc : TMDBService) : option TMDBMapping :=
  match get_tv_details svc id with
  | None => None
  | Some tv_info =>
      let n := seasons_or_zero tv_info in
      let b := fold_left (season_step svc id) (Py.range 1 (n + 1))
                         (mkBuilder ∅ ∅ 0) in
      Some (mkTMDBMapping id
              (Py.or_else (info_title_zh tv_info)
                 (Py.or_else (Some (info_title tv_info))
                    ("TMDB:" +:+ Py.str_of_int id)))
              "tv"
              (b_by_cumulative b)
              (b_by_season_episode b)
              n
              (b_cumulative b))
  end.

(** [TMDBMapping.lookup] is defined in [Classifier] next to the string
    helpers it needs. *)

End TmdbMapping.

(** ** String helpers (Python [str] methods on the UTF-8 bytes) *)

Module Str.

Definition code (c : ascii) : N := N_of_ascii c.

Definition is_digit (c : ascii) : bool := ((48 <=? code c) && (code c <=? 57))%N.
Definition is_upper (c : ascii) : bool := ((65 <=? code c) && (code c <=? 90))%N.
Definition is_lower (c : ascii) : bool := ((97 <=? code c) && (code c <=? 122))%N.
Definition is_alnum (c : ascii) : bool := is_digit c || is_upper c || is_lower c.

(** [str.isspace] on the ASCII range: TAB..CR, FS..US and the space. *)
Definition is_space (c : ascii) : bool :=
  (((9 <=? code c) && (code c <=? 13)) || ((28 <=? code c) && (code c <=? 32)))%N.

Definition lower_char (c : ascii) : ascii :=
  if is_upper c then ascii_of_N (code c + 32) else c.

(** [s.lower()]. *)
Fixpoint lower (s : string) : string :=
  match s with
  | EmptyString => EmptyString
  | String c s' => String (lower_char c) (lower s')
  end.

Definition eqb_char (a b : ascii) : bool := Ascii.eqb a b.

(** [c in chars] for a character and a string used as a set. *)
Fixpoint mem (c : ascii) (chars : string) : bool :=
  match chars with
  | EmptyString => false
  | String d rest => eqb_char c d || mem c rest
  end.

Fixpoint all_chars (p : ascii -> bool) (s : string) : bool :=
  match s with
  | EmptyString => true
  | String c s' => p c && all_chars p s'
  end.

(** [s.startswith(p)] together with the remainder. *)
Fixpoint strip_prefix (p s : string) : option string :=
  match p with
  | EmptyString => Some s
  | String a p' =>
      match s with
      | String b s' => if eqb_char a b then strip_prefix p' s' else None
      | EmptyString => None
      end
  end.

Definition startswith (s p : string) : bool :=
  match strip_prefix p s with Some _ => true | None => false end.

(** [needle in s]. *)
Fixpoint contains (needle s : string) : bool :=
  startswith s needle ||
  match s with
  | EmptyString => false
  | String _ s' => contains needle s'
  end.

(** [s.split(sep)] for a one-character separator. *)
Fixpoint split (sep : ascii) (s : string) : list string :=
  match s with
  | EmptyString => [EmptyString]
  | String c s' =>
      if eqb_char c sep then EmptyString :: split sep s'
      else match split sep s' with
           | h :: t => String c h :: t
           | [] => [String c EmptyString]
           end
  end.

(** [s.replace(c, new)] for a one-character [c]. *)
Fixpoint replace_char (c : ascii) (new : string) (s : string) : string :=
  match s with
  | EmptyString => EmptyString
  | String d s' =>
      if eqb_char d c then new +:+ replace_char c new s'
      else String d (replace_char c new s')
  end.

Fixpoint lstrip (chars : string) (s : string) : string :=
  match s with
  | EmptyString => EmptyString
  | String c s' => if mem c chars then lstrip chars s' else s
  end.

Fixpoint rstrip (chars : string) (s : string) : string :=
  match s with
  | EmptyString => EmptyString
  | String c s' =>
      match rstrip chars s' with
      | EmptyString => if mem c chars then EmptyString else String c EmptyString
      | r => String c r
      end
  end.

(** [s.strip(chars)]. *)
Definition strip (chars : string) (s : string) : string :=
  rstrip chars (lstrip chars s).

Definition is_empty (s : string) : bool :=
  match s with EmptyString => true | _ => false end.

(** The first [n] bytes of [s]. *)
Fixpoint take (n : nat) (s : string) : string :=
  match n, s with
  | S n', String c s' => String c (take n' s')
  | _, _ => EmptyString
  end.

(** The value of a run of ASCII digits, most significant first. *)
Fixpoint digits_value (acc : Z) (s : string) : Z :=
  match s with
  | EmptyString => acc
  | String c s' => digits_value (10 * acc + Z.of_N (code c - 48)) s'
  end.

(** [int(s)] for a decimal literal: surrounding white space, an optional
    sign, then one or more digits; anything else is a [ValueError]
    ([None]).  Digit grouping with ['_'] is left out: the only caller
    passes a piece of [s.split("_")]. *)
Definition int_of_str (s : string) : option Z :=
  let t := strip (String (ascii_of_N 9) (String (ascii_of_N 10) (String (ascii_of_N 11)
             (String (ascii_of_N 12) (String (ascii_of_N 13) (String (ascii_of_N 28)
             (String (ascii_of_N 29) (String (ascii_of_N 30) (String (ascii_of_N 31) " "))))))))) s in
  let '(neg, body) :=
    match t with
    | String "-" r => (true, r)
    | String "+" r => (false, r)
    | _ => (false, t)
    end in
  if is_empty body || negb (all_chars is_digit body) then None
  else Some (if neg then - digits_value 0 body else digits_value 0 body).

End Str.

(** ** A backtracking matcher for the [re] patterns of the sources

    Patterns are terms of [re]; [exec] explores alternatives in the order
    Python's engine does (greedy repetition first, left alternative
    first), so the first success is the match [re.search] reports. *)

Module Regex.

Inductive re :=
| Eps
| Chr (p : ascii -> bool)                      (* a literal or a class: one byte *)
| Lit (s : string)                             (* a literal byte sequence *)
| Seq (r1 r2 : re)
| Alt (r1 r2 : re)
| Opt (r : re)                                 (* [r?] *)
| Rep (p : ascii -> bool) (lo : nat) (hi : option nat)   (* [[p]{lo,hi}], [hi = None]: unbounded *)
| Group (r : re)                               (* the capturing group 1 *)
| NotBehind (p : ascii -> bool)                (* [(?<![p])] *)
| Bol                                          (* [^] *)
| Eol.                                         (* [$] without MULTILINE *)

(** Position of the matcher: the byte before it ([None] at the start of
    the subject), what is left, and the text of group 1 if it took part. *)
Record pos := mkPos {
  before : option ascii;
  rest : string;
  group1 : option string
}.

Definition last_char (dflt : option ascii) (s : string) : option ascii :=
  let fix go (d : option ascii) (s : string) :=
    match s with
    | EmptyString => d
    | String c s' => go (Some c) s'
    end in
  go dflt s.

(** Greedy bounded repetition of a one-byte class. *)
Fixpoint rep {R} (p : ascii -> bool) (lo : nat) (hi : option nat)
    (bef : option ascii) (s : string) (g : option string)
    (k : pos -> option R) : option R :=
  let stop := match lo with O => k (mkPos bef s g) | S _ => None end in
  match s with
  | String c s' =>
      let room := match hi with Some O => false | _ => true end in
      if p c && room then
        match rep p (Nat.pred lo) (option_map Nat.pred hi) (Some c) s' g k with
        | Some x => Some x
        | None => stop
        end
      else stop
  | EmptyString => stop
  end.

Definition at_eol (s : string) : bool :=
  match s with
  | EmptyString => true
  | String c EmptyString => N.eqb (Str.code c) 10
  | _ => false
  end.

Fixpoint exec {R} (r : re) (st : pos) (k : pos -> option R) : option R :=
  match r with
  | Eps => k st
  | Chr p =>
      match rest st with
      | String c s' => if p c then k (mkPos (Some c) s' (group1 st)) else None
      | EmptyString => None
      end
  | Lit l =>
      match Str.strip_prefix l (rest st) with
      | Some s' => k (mkPos (last_char (before st) l) s' (group1 st))
      | None => None
      end
  | Seq r1 r2 => exec r1 st (fun st' => exec r2 st' k)
  | Alt r1 r2 =>
      match exec r1 st k with
      | Some x => Some x
      | None => exec r2 st k
      end
  | Opt r1 =>
      match exec r1 st k with
      | Some x => Some x
      | None => k st
      end
  | Rep p lo hi => rep p lo hi (before st) (rest st) (group1 st) k
  | Group r1 =>
      exec r1 st (fun st' =>
        k (mkPos (before st') (rest st')
             (Some (Str.take (String.length (rest st) - String.length (rest st'))
                             (rest st)))))
  | NotBehind p =>
      match before st with
      | Some c => if p c then None else k st
      | None => k st
      end
  | Bol => match before st with None => k st | Some _ => None end
  | Eol => if at_eol (rest st) then k st else None
  end.

(** A match anchored at the current position. *)
Definition match_here (r : re) (bef : option ascii) (s : string) : option pos :=
  exec r (mkPos bef s None) Some.

(** [re.search]: the leftmost position with a match. *)
Fixpoint search_from (r : re) (bef : option ascii) (s : string) : option pos :=
  match match_here r bef s with
  | Some m => Some m
  | None =>
      match s with
      | String c s' => search_from r (Some c) s'
      | EmptyString => None
      end
  end.

Definition search (r : re) (s : string) : option pos := search_from r None s.

(** [re.sub(r, repl, s)] for patterns that cannot match the empty string
    (all the patterns of the sources): scan left to right, and after a
    match at a position drop the matched bytes ([skip] counts the ones
    still to drop) and resume behind them. *)
Fixpoint sub_from (r : re) (repl : string) (skip : nat)
    (bef : option ascii) (s : string) : string :=
  match s with
  | EmptyString => EmptyString
  | String c s' =>
      match skip with
      | S n => sub_from r repl n (Some c) s'
      | O =>
          match match_here r bef s with
          | Some m =>
              match (String.length s - String.length (rest m))%nat with
              | S n => repl +:+ sub_from r repl n (Some c) s'
              | O => String c (sub_from r repl 0 (Some c) s')
              end
          | None => String c (sub_from r repl 0 (Some c) s')
          end
      end
  end.

Definition sub (r : re) (repl : string) (s : string) : string :=
  sub_from r repl 0 None s.

(** Pattern builders.  [ichr c] is the letter [c] under [re.IGNORECASE]. *)
Definition chr (c : ascii) : re := Chr (Str.eqb_char c).
Definition ichr (c : ascii) : re :=
  Chr (fun x => Str.eqb_char (Str.lower_char x) (Str.lower_char c)).
Definition iset (chars : string) : ascii -> bool :=
  fun x => Str.mem (Str.lower_char x) (Str.lower chars).
Definition cset (chars : string) : ascii -> bool := fun x => Str.mem x chars.

Fixpoint ilit (s : string) : re :=
  match s with
  | EmptyString => Eps
  | String c s' => Seq (ichr c) (ilit s')
  end.

Fixpoint seqs (rs : list re) : re :=
  match rs with
  | [] => Eps
  | [r] => r
  | r :: rest => Seq r (seqs rest)
  end.

Fixpoint alts (r : re) (rs : list re) : re :=
  match rs with
  | [] => r
  | r' :: rest => Alt r (alts r' rest)
  end.

End Regex.

(** ** classifier.py *)

Module Classifier.
Import TmdbMapping Regex.

(** [TMDBMapping.lookup]. *)
Definition lookup (m : TMDBMapping) (context : string) (number : Z) : option EpisodeInfo :=
  if String.eqb context "cumulative" then by_cumulative m !! number
  else if Str.startswith context "season_" then
    match Str.split "_" context with
    | _ :: piece :: _ =>
        match Str.int_of_str piece with
        | Some season => by_season_episode m !! (season, number)
        | None => None                                   (* ValueError *)
        end
    | _ => None                                          (* IndexError *)
    end
  else None.

Record ClassifyResult := mkClassifyResult {
  file_path : string;
  file_name : string;
  extracted_number : Z;
  status : string;
  error_message : string;
  r_tmdb_id : Z;
  r_season : Z;
  r_episode : Z;
  output_name : string
}.

Definition digit : ascii -> bool := Str.is_digit.

(** [[xh]26[45]] and [HEVC|AVC|Ma10p|10bit], both with [re.IGNORECASE]. *)
Definition codec_x26 : re :=
  seqs [Chr (iset "xh"); chr "2"; chr "6"; Chr (cset "45")].
Definition codec_names : re :=
  alts (ilit "HEVC") [ilit "AVC"; ilit "Ma10p"; ilit "10bit"].

(** The class [[\.\s\-_]] and its variant with ['[']. *)
Definition sep_class (extra : string) : ascii -> bool :=
  fun c => Str.mem c ".-_" || Str.is_space c || Str.mem c extra.

(** The six patterns, in the order of the source list. *)
Definition patterns : list re :=
  [ seqs [ichr "E"; Opt (ichr "P"); Opt (chr "."); Group (Rep digit 2 (Some 4%nat))];
    seqs [NotBehind (iset "xh"); ichr "E"; Group (Rep digit 2 (Some 4%nat))];
    seqs [Lit "第"; Group (Rep digit 1 (Some 4%nat));
          alts (Lit "集") [Lit "话"; Lit "話"]];
    seqs [chr "["; Group (Rep digit 2 (Some 4%nat)); chr "]"];
    seqs [Chr (sep_class EmptyString); Group (Rep digit 2 (Some 4%nat)); Chr (sep_class "[")];
    seqs [ichr "S"; Rep digit 1 None; ichr "E"; Group (Rep digit 2 (Some 4%nat))] ].

Definition clean_name (filename : string) : string :=
  sub codec_names EmptyString (sub codec_x26 EmptyString filename).

(** [int(match.group(1))] of a search, when the pattern matches. *)
Definition search_number (r : re) (s : string) : option Z :=
  match search r s with
  | Some m =>
      match group1 m with
      | Some g => Some (Str.digits_value 0 g)
      | None => None
      end
  | None => None
  end.

(** The [for pattern in patterns] loop. *)
Fixpoint first_accepted (ps : list re) (s : string) : Z :=
  match ps with
  | [] => 0
  | p :: rest =>
      match search_number p s with
      | Some ep => if (ep <? 1000) && (0 <? ep) then ep else first_accepted rest s
      | None => first_accepted rest s
      end
  end.

Definition extract_episode_number (filename : string) : Z :=
  first_accepted patterns (clean_name filename).

Definition classify_file (path name context : string) (mapping : TMDBMapping) : ClassifyResult :=
  let number := extract_episode_number name in
  if number =? 0 then
    mkClassifyResult path name number "error" "无法从文件名提取编号" 0 0 0 EmptyString
  else
    match lookup mapping context number with
    | None =>
        mkClassifyResult path name number "unmatched"
          ("编号 " +:+ Py.str_of_int number +:+ " 在 context=" +:+ context +:+ " 下未找到对应集数")
          0 0 0 EmptyString
    | Some episode_info =>
        mkClassifyResult path name number "matched" EmptyString
          (tmdb_id mapping) (season episode_info) (tmdb_episode episode_info)
          (to_output_name episode_info)
    end.

End Classifier.

(** ** os.path (posixpath) and urllib.parse.quote *)

Module OsPath.

Definition last_piece (l : list string) : string := List.last l EmptyString.

(** [os.path.basename]: what follows the last ['/']. *)
Definition basename (p : string) : string := last_piece (Str.split "/" p).

(** [os.path.dirname]: the head up to the last ['/'], without trailing
    slashes unless it consists of slashes only. *)
Definition dirname (p : string) : string :=
  let head := Str.take (String.length p - String.length (basename p)) p in
  if Str.all_chars (Str.eqb_char "/") head then head else Str.rstrip "/" head.

(** [os.path.splitext(p)[1]]: from the last dot of the base name on,
    unless only dots precede it there. *)
Definition ext_of (p : string) : string :=
  let pieces := Str.split "." (basename p) in
  match pieces with
  | [] | [_] => EmptyString
  | _ =>
      if forallb Str.is_empty (removelast pieces) then EmptyString
      else String "." (last_piece pieces)
  end.

End OsPath.

Module Url.

Definition hex_digit (n : N) : ascii :=
  if (n <? 10)%N then ascii_of_N (48 + n) else ascii_of_N (55 + n).

(** ['%{:02X}'.format(b)]. *)
Definition percent (c : ascii) : string :=
  String "%" (String (hex_digit (Str.code c / 16)) (String (hex_digit (Str.code c mod 16)) EmptyString)).

(** The characters [quote] never encodes. *)
Definition always_safe (c : ascii) : bool := Str.is_alnum c || Str.mem c "_.-~".

(** [urllib.parse.quote(s, safe=safe)] on the UTF-8 bytes of [s]. *)
Fixpoint quote (s : string) (safe : string) : string :=
  match s with
  | EmptyString => EmptyString
  | String c s' =>
      (if always_safe c || Str.mem c safe then String c EmptyString else percent c)
      +:+ quote s' safe
  end.

End Url.

(** ** utils/naming.py *)

Module Naming.
Import Regex.

(** The class of the characters Windows forbids in a file name. *)
Definition illegal_char (c : ascii) : bool :=
  Str.mem c "\/:*?<>|" || Str.eqb_char c "034".

Definition bang : ascii -> bool := Str.eqb_char "!".
Definition dot : ascii -> bool := Str.eqb_char ".".

Definition sanitize_filename (name : string) : string :=
  let cleaned := sub (Chr illegal_char) "." name in
  let cleaned := Str.replace_char "~" "-" cleaned in
  let cleaned := Str.replace_char "'" EmptyString cleaned in
  let cleaned := sub (Seq (Rep bang 1 None) Eol) EmptyString cleaned in
  let cleaned := sub (Seq Bol (Rep bang 1 None)) EmptyString cleaned in
  let cleaned := sub (Rep dot 2 None) "." cleaned in
  Str.strip ". " cleaned.

Definition format_episode_name (title : string) (season episode : Z) (ext : string) : string :=
  sanitize_filename title +:+ ".S" +:+ Py.fmt_02d season +:+ ".E" +:+ Py.fmt_02d episode +:+ ext.

(** [if year:] on an optional integer. *)
Definition year_given (year : option Z) : option Z :=
  match year with
  | Some y => if y =? 0 then None else Some y
  | None => None
  end.

Definition format_movie_name (title : string) (year : option Z) (ext : string) : string :=
  let clean_title := Str.replace_char " " "." (sanitize_filename title) in
  match year_given year with
  | Some y => clean_title +:+ "." +:+ Py.str_of_int y +:+ ext
  | None => clean_title +:+ ext
  end.

Definition format_strm_episode_name (title : string) (season episode : Z) : string :=
  format_episode_name title season episode ".strm".

Definition format_strm_movie_name (title : string) (year : option Z) : string :=
  format_movie_name title year ".strm".

Definition format_season_folder (season : Z) : string := "Season " +:+ Py.fmt_02d season.

End Naming.

(** ** agents/tools/strm_tools.py: subtitle selection and STRM content *)

Module Strm.

Record SubtitleFile := mkSubtitleFile {
  sub_path : string;
  sub_name : string;
  language : string
}.

Record ClassifiedFile := mkClassifiedFile {
  cf_path : string;
  cf_name : string;
  episode : Z;
  cf_season : Z;
  subtitles : list SubtitleFile
}.

Record SubtitleTask := mkSubtitleTask {
  source_path : string;
  target_path : string;
  is_default : bool
}.

Definition SUBTITLE_LANGUAGE_PRIORITY : list string :=
  ["chs"; "sc"; "chsjp"; "scjp";
   "cht"; "tc"; "chtjp"; "tcjp";
   "eng"; "en";
   "jpn"; "jap"; "jp";
   "und"].

(** [list.index(x)], [None] standing for the [ValueError]. *)
Fixpoint index_of (x : string) (l : list string) : option Z :=
  match l with
  | [] => None
  | y :: rest =>
      if String.eqb y x then Some 0
      else match index_of x rest with
           | Some i => Some (i + 1)
           | None => None
           end
  end.

Definition _get_language_priority (lang : string) : Z :=
  let lang_lower := if Str.is_empty lang then "und" else Str.lower lang in
  match index_of lang_lower SUBTITLE_LANGUAGE_PRIORITY with
  | Some i => i
  | None => 999
  end.

(** [min(l, key=key)] on a list with head [best]: the first minimum. *)
Fixpoint min_by {A} (key : A -> Z) (best : A) (l : list A) : A :=
  match l with
  | [] => best
  | x :: rest => if key x <? key best then min_by key x rest else min_by key best rest
  end.

Definition _select_default_subtitle (subs : list SubtitleFile) : option SubtitleFile :=
  match subs with
  | [] => None
  | s :: rest => Some (min_by (fun s => _get_language_priority (language s)) s rest)
  end.

(** [sub.language or "und"]. *)
Definition lang_or_und (sub : SubtitleFile) : string :=
  if Str.is_empty (language sub) then "und" else language sub.

Definition sub_ext (sub : SubtitleFile) : string := Str.lower (OsPath.ext_of (sub_name sub)).

Definition _format_subtitle_name (title : string) (season episode : Z)
    (sub : SubtitleFile) (is_default : bool) : string :=
  let ext := sub_ext sub in
  let stem := title +:+ ".S" +:+ Py.fmt_02d season +:+ ".E" +:+ Py.fmt_02d episode in
  if is_default then stem +:+ ext
  else stem +:+ "." +:+ lang_or_und sub +:+ ext.

Definition _format_movie_subtitle_name (title : string) (year : option Z)
    (sub : SubtitleFile) (is_default : bool) : string :=
  let clean_title := Str.replace_char " " "." (Naming.sanitize_filename title) in
  let ext := sub_ext sub in
  let stem := match Naming.year_given year with
              | Some y => clean_title +:+ "." +:+ Py.str_of_int y
              | None => clean_title
              end in
  if is_default then stem +:+ ext
  else stem +:+ "." +:+ lang_or_und sub +:+ ext.

Definition ENCODE_URI_SAFE : string := "-_.!~*'();/?:@&=+$,#".

Definition _build_play_url (base_url file_path storage_type : string) : string :=
  let encoded_path := Url.quote file_path ENCODE_URI_SAFE in
  let base := Str.rstrip "/" base_url in
  if String.eqb storage_type "alist" then base +:+ "/d" +:+ encoded_path
  else base +:+ "/dav" +:+ encoded_path.

(** [storage_config] is the dictionary kept in the session state. *)
Definition _generate_strm_content (storage_config : gmap string string) (file_path : string) : string :=
  let base_url := default EmptyString (storage_config !! "url") in
  let storage_type := default "webdav" (storage_config !! "type") in
  _build_play_url base_url file_path storage_type.

(** The two lists [generate_strm] appends to. *)
Record Collected := mkCollected {
  all_strm_files : list (string * string);
  all_subtitle_tasks : list SubtitleTask
}.

(** The block under [if cf.subtitles:]: first the default task, then one
    tagged task per subtitle.  [folder] is the directory of the video and
    [name_of] the file-name formatter of the branch. *)
Definition add_subtitle_tasks (folder : string) (name_of : SubtitleFile -> bool -> string)
    (subs : list SubtitleFile) (tasks : list SubtitleTask) : list SubtitleTask :=
  match subs with
  | [] => tasks
  | _ =>
      let tasks :=
        match _select_default_subtitle subs with
        | Some default_sub =>
            tasks ++ [mkSubtitleTask (sub_path default_sub)
                        (folder +:+ "/" +:+ name_of default_sub true) true]
        | None => tasks
        end in
      fold_left (fun acc sub =>
                   acc ++ [mkSubtitleTask (sub_path sub)
                             (folder +:+ "/" +:+ name_of sub false) false])
                subs tasks
  end.

(** Body of [for cf in files] in the TV branch; a file whose episode is
    not positive is passed over by [continue]. *)
Definition tv_file_step (storage_config : gmap string string)
    (base_folder title : string) (season_num : Z)
    (acc : Collected) (cf : ClassifiedFile) : Collected :=
  if episode cf <=? 0 then acc
  else
    let folder := base_folder +:+ "/" +:+ Naming.format_season_folder season_num in
    let strm_name := Naming.format_strm_episode_name title season_num (episode cf) in
    mkCollected
      (all_strm_files acc ++
         [(folder +:+ "/" +:+ strm_name, _generate_strm_content storage_config (cf_path cf))])
      (add_subtitle_tasks folder
         (_format_subtitle_name title season_num (episode cf))
         (subtitles cf) (all_subtitle_tasks acc)).

(** [sorted(cls.seasons.keys())]. *)
Definition sorted_seasons (seasons : gmap Z (list ClassifiedFile)) : list Z :=
  merge_sort Z.le (map fst (map_to_list seasons)).

(** The TV branch of the loop over classifications. *)
Definition collect_tv (storage_config : gmap string string)
    (base_folder title : string) (seasons : gmap Z (list ClassifiedFile))
    (acc : Collected) : Collected :=
  fold_left (fun acc season_num =>
               fold_left (tv_file_step storage_config base_folder title season_num)
                         (default [] (seasons !! season_num)) acc)
            (sorted_seasons seasons) acc.

(** Body of [for cf in files] in the movie branch. *)
Definition movie_file_step (storage_config : gmap string string)
    (base_folder title : string) (year : option Z)
    (acc : Collected) (cf : ClassifiedFile) : Collected :=
  let strm_name := Naming.format_strm_movie_name title year in
  mkCollected
    (all_strm_files acc ++
       [(base_folder +:+ "/" +:+ strm_name, _generate_strm_content storage_config (cf_path cf))])
    (add_subtitle_tasks base_folder
       (_format_movie_subtitle_name title year)
       (subtitles cf) (all_subtitle_tasks acc)).

Definition collect_movie (storage_config : gmap string string)
    (base_folder title : string) (year : option Z) (files : list ClassifiedFile)
    (acc : Collected) : Collected :=
  fold_left (movie_file_step storage_config base_folder title year) files acc.

End Strm.

(** ** Results of calls that may raise *)

Inductive outcome (A : Type) : Type :=
| Returned (a : A)
| Raised (msg : string).
Arguments Returned {A} a.
Arguments Raised {A} msg.

Definition nl : string := String "010" EmptyString.

(** ** agents/tools/strm_tools.py: retry_failed_uploads *)

Module Retry.

(** One entry of [failed_uploads]: a dictionary whose keys may be missing. *)
Record FailedUpload := mkFailedUpload {
  fu_source_path : option string;
  fu_target_path : option string;
  fu_type : option string;
  fu_error : option string
}.

(** The part of the session state the tool reads and writes. *)
Record AgentState := mkAgentState {
  failed_uploads : option (list FailedUpload)
}.

(** The [state_update] dictionary; [None] means the key is not set. *)
Record StateUpdate := mkStateUpdate {
  su_failed_uploads : option (list FailedUpload)
}.

Definition no_update : StateUpdate := mkStateUpdate None.

(** [make_tool_response] followed by [parse_tool_response]: the pair the
    tool node gets back. *)
Definition make_tool_response (message : string) (state_update : StateUpdate)
  : string * StateUpdate := (message, state_update).

(** The merge of the tool node, [{**state, **updated_data}]. *)
Definition apply_update (state : AgentState) (u : StateUpdate) : AgentState :=
  match su_failed_uploads u with
  | Some l => mkAgentState (Some l)
  | None => state
  end.

(** Storage calls, recorded in the order they are made. *)
Inductive Event :=
| Download (path : string)
| Upload (path content : string).

Section WithStorage.

(** [W] is whatever the two stores consist of; a call may change it. *)
Context {W : Type}.

Record StorageService := mkStorageService {
  get_file_content : string -> W -> outcome (option string) * W;
  put_file_content : string -> string -> W -> outcome bool * W
}.

Record Progress := mkProgress {
  success_count : Z;
  error_count : Z;
  still_failed : list FailedUpload
}.

Definition failed_again (source_path target_path error : string) (p : Progress) : Progress :=
  mkProgress (success_count p) (error_count p + 1)
    (still_failed p ++
       [mkFailedUpload (Some source_path) (Some target_path) (Some "subtitle") (Some error)]).

Definition is_subtitle (item : FailedUpload) : bool :=
  match fu_type item with
  | Some t => String.eqb t "subtitle"
  | None => false
  end.

(** The [try] block for one subtitle entry. *)
Definition retry_one (source target : StorageService) (source_path target_path : string)
    (p : Progress) (w : W) (log : list Event) : Progress * W * list Event :=
  let '(got, w) := get_file_content source source_path w in
  let log := log ++ [Download source_path] in
  match got with
  | Raised e => (failed_again source_path target_path e p, w, log)
  | Returned content =>
      match Py.truthy content with
      | None => (failed_again source_path target_path "下载失败（返回空内容）" p, w, log)
      | Some text =>
          let '(put, w) := put_file_content target target_path text w in
          let log := log ++ [Upload target_path text] in
          match put with
          | Raised e => (failed_again source_path target_path e p, w, log)
          | Returned true =>
              (mkProgress (success_count p + 1) (error_count p) (still_failed p), w, log)
          | Returned false =>
              (failed_again source_path target_path "上传失败（API返回失败）" p, w, log)
          end
      end
  end.

(** [for item in failed_uploads]; a subtitle entry without one of its
    paths raises [KeyError] outside the [try]. *)
Fixpoint retry_loop (source target : StorageService) (items : list FailedUpload)
    (p : Progress) (w : W) (log : list Event) : outcome Progress * W * list Event :=
  match items with
  | [] => (Returned p, w, log)
  | item :: rest =>
      if negb (is_subtitle item) then retry_loop source target rest p w log
      else
        match fu_source_path item, fu_target_path item with
        | None, _ => (Raised "'source_path'", w, log)
        | Some _, None => (Raised "'target_path'", w, log)
        | Some source_path, Some target_path =>
            let '(p, w, log) := retry_one source target source_path target_path p w log in
            retry_loop source target rest p w log
        end
  end.

Definition len {A} (l : list A) : Z := Z.of_nat (length l).

(** The lines listing the first five entries that failed again. *)
Definition failed_lines (l : list FailedUpload) : string :=
  fold_left (fun out item =>
               out +:+ "- `" +:+ OsPath.basename (default EmptyString (fu_source_path item))
                   +:+ "`: " +:+ default EmptyString (fu_error item) +:+ nl)
            (take 5 l) EmptyString.

Definition report (total : Z) (p : Progress) : string :=
  "## 🔄 重试失败的上传任务" +:+ nl +:+ nl +:+
  "共有 " +:+ Py.str_of_int total +:+ " 个任务需要重试" +:+ nl +:+ nl +:+
  "✅ 重试完成" +:+ nl +:+
  "- 成功: " +:+ Py.str_of_int (success_count p) +:+ nl +:+
  "- 仍然失败: " +:+ Py.str_of_int (error_count p) +:+ nl +:+
  match still_failed p with
  | [] => nl +:+ "🎉 所有任务已成功完成！" +:+ nl
  | l =>
      nl +:+ "### ⚠️ 仍然失败的文件" +:+ nl +:+ failed_lines l +:+
      (if 5 <? len l then "- ... 还有 " +:+ Py.str_of_int (len l - 5) +:+ " 个" +:+ nl else EmptyString) +:+
      nl +:+ "💡 可以再次使用 `retry_failed_uploads` 重试" +:+ nl
  end.

(** [retry_failed_uploads(state)].  [source] and [target] are what
    [get_storage_service(state)] and [get_strm_target_service(state)]
    yield; they are consulted only after the emptiness test. *)
Definition retry_failed_uploads (state : option AgentState)
    (source target : option StorageService) (w : W)
  : outcome (string * StateUpdate) * W * list Event :=
  let failed_uploads :=
    match state with
    | Some st => default [] (failed_uploads st)
    | None => []
    end in
  match failed_uploads with
  | [] => (Returned (make_tool_response "✅ 没有需要重试的失败任务" no_update), w, [])
  | _ =>
      match source, target with
      | Some source, Some target =>
          match retry_loop source target failed_uploads (mkProgress 0 0 []) w [] with
          | (Raised e, w, log) => (Raised e, w, log)
          | (Returned p, w, log) =>
              (Returned (make_tool_response (report (len failed_uploads) p)
                           (mkStateUpdate (Some (still_failed p)))), w, log)
          end
      | _, _ => (Returned (make_tool_response "❌ 请先连接源存储和目标存储" no_update), w, [])
      end
  end.

(** The state after the tool node has merged the update of a call that
    returned; a call that raised leaves the state as it was. *)
Definition state_after (state : AgentState) (r : outcome (string * StateUpdate)) : AgentState :=
  match r with
  | Returned (_, u) => apply_update state u
  | Raised _ => state
  end.

End WithStorage.
Arguments StorageService : clear implicits.

End Retry.

(** ** services/alist_service.py

    Durations and clock readings are in milliseconds. *)

Module Alist.

Definition MAX_RETRIES : Z := 3.
Definition RETRY_DELAY : Z := 1000.
Definition DEFAULT_RATE_LIMIT_DELAY : Z := 5000.
Definition DEFAULT_CACHE_TTL : Z := 300000.
Definition DEFAULT_CACHE_SIZE : nat := 100.

Record FileInfo := mkFileInfo {
  fi_path : string;
  fi_name : string;
  fi_is_dir : bool
}.

(** *** LRUCache: an [OrderedDict], oldest entry first *)

Record LRUCache := mkLRUCache {
  max_size : nat;
  ttl : Z;
  entries : list (string * (list FileInfo * Z))
}.

Fixpoint cache_find (key : string) (l : list (string * (list FileInfo * Z)))
  : option (list FileInfo * Z) :=
  match l with
  | [] => None
  | (k, v) :: rest => if String.eqb k key then Some v else cache_find key rest
  end.

Definition cache_remove (key : string) (l : list (string * (list FileInfo * Z)))
  : list (string * (list FileInfo * Z)) :=
  filter (fun kv => negb (String.eqb (fst kv) key)) l.

(** [LRUCache.get] at clock reading [now]. *)
Definition cache_get (c : LRUCache) (key : string) (now : Z) : option (list FileInfo) * LRUCache :=
  match cache_find key (entries c) with
  | None => (None, c)
  | Some (value, timestamp) =>
      if ttl c <? now - timestamp then
        (None, mkLRUCache (max_size c) (ttl c) (cache_remove key (entries c)))
      else
        (Some value,
         mkLRUCache (max_size c) (ttl c)
           (cache_remove key (entries c) ++ [(key, (value, timestamp))]))
  end.

(** [while len(self.cache) >= self.max_size: popitem(last=False)]; popping
    from an empty dictionary raises [KeyError] ([None]). *)
Fixpoint evict (fuel : nat) (max_size : nat) (l : list (string * (list FileInfo * Z)))
  : option (list (string * (list FileInfo * Z))) :=
  if (max_size <=? length l)%nat then
    match l, fuel with
    | _ :: rest, S fuel' => evict fuel' max_size rest
    | _, _ => None
    end
  else Some l.

(** [LRUCache.set] at clock reading [now]. *)
Definition cache_set (c : LRUCache) (key : string) (value : list FileInfo) (now : Z)
  : option LRUCache :=
  let l := cache_remove key (entries c) in
  match evict (S (length l)) (max_size c) l with
  | Some l' => Some (mkLRUCache (max_size c) (ttl c) (l' ++ [(key, (value, now))]))
  | None => None
  end.

Definition cache_invalidate (c : LRUCache) (key : string) : LRUCache :=
  mkLRUCache (max_size c) (ttl c) (cache_remove key (entries c)).

(** *** The server *)

Inductive Request :=
| ApiLogin (username password : string)
| FsList (path : string) (refresh : bool) (page per_page : Z)
| FsRename (path name : string)
| FsMove (src_dir dst_dir : string) (names : list string)
| FsCopy (src_dir dst_dir : string) (names : list string)
| FsRemove (dir : string) (names : list string)
| FsMkdir (path : string)
| FsGet (path : string)
| FsPut (path content : string).

(** A JSON [message] field: missing, [null], or a string. *)
Inductive Msg := MsgAbsent | MsgNull | MsgStr (s : string).

Record Item := mkItem { item_name : string; item_is_dir : bool }.

Record Body := mkBody {
  code : option Z;
  message : Msg;
  data_token : option string;
  data_content : list Item
}.

(** What [client.post] or [client.put] does: it raises, or it returns a
    status with a body that may fail to parse as JSON ([None]). *)
Inductive Response :=
| TransportError (msg : string)
| Http (status : Z) (body : option Body).

(** The answers the server is going to give, each with the time it takes,
    and the wall clock. *)
Record World := mkWorld {
  now : Z;
  pending : list (Z * Response)
}.

Inductive Event :=
| EvHttp (r : Request)
| EvSleep (ms : Z)
| EvGate.

Record Service := mkService {
  url : string;
  username : string;
  password : string;
  base_path : string;
  token : option string;
  cache : LRUCache
}.

Record St := mkSt {
  svc : Service;
  world : World;
  log : list Event
}.

(** *** A state-and-exception monad for the methods *)

Definition M (A : Type) : Type := St -> outcome A * St.

Definition ret {A} (a : A) : M A := fun s => (Returned a, s).
Definition raise {A} (msg : string) : M A := fun s => (Raised msg, s).
Definition bind {A B} (m : M A) (f : A -> M B) : M B :=
  fun s => match m s with
           | (Returned a, s') => f a s'
           | (Raised e, s') => (Raised e, s')
           end.
(** [try: m except Exception as e: h(str(e))]. *)
Definition catch {A} (m : M A) (h : string -> M A) : M A :=
  fun s => match m s with
           | (Returned a, s') => (Returned a, s')
           | (Raised e, s') => h e s'
           end.

Declare Scope alist_scope.
Delimit Scope alist_scope with alist.
Notation "x <- m ;; k" := (bind m (fun x => k))
  (at level 100, m at next level, right associativity) : alist_scope.
Notation "m ;;; k" := (bind m (fun _ => k))
  (at level 100, right associativity) : alist_scope.
Local Open Scope alist_scope.

Definition emit (e : Event) : M unit :=
  fun s => (Returned tt, mkSt (svc s) (world s) (log s ++ [e])).

(** [time.sleep(ms)]. *)
Definition sleep (ms : Z) : M unit :=
  fun s => (Returned tt,
            mkSt (svc s) (mkWorld (now (world s) + ms) (pending (world s)))
                 (log s ++ [EvSleep ms])).

(** [self._rate_limiter.wait()]: the gate is built with a zero interval;
    only the call is recorded. *)
Definition gate : M unit := emit EvGate.

(** One HTTP exchange: the next scripted answer, or a transport error when
    the script is exhausted. *)
Definition http (r : Request) : M Response :=
  fun s =>
    match pending (world s) with
    | (took, resp) :: rest =>
        (Returned resp,
         mkSt (svc s) (mkWorld (now (world s) + took) rest) (log s ++ [EvHttp r]))
    | [] =>
        (Returned (TransportError "connection failed"),
         mkSt (svc s) (world s) (log s ++ [EvHttp r]))
    end.

(** [client.post(...)]: a transport error is an exception. *)
Definition post (r : Request) : M (Z * option Body) :=
  resp <- http r ;;
  match resp with
  | TransportError e => raise e
  | Http status body => ret (status, body)
  end.

(** [response.json()]. *)
Definition json (body : option Body) : M Body :=
  match body with
  | Some b => ret b
  | None => raise "Expecting value: line 1 column 1 (char 0)"
  end.

Definition get_service : M Service := fun s => (Returned (svc s), s).
Definition clock : M Z := fun s => (Returned (now (world s)), s).

Definition set_token (t : option string) : M unit :=
  fun s => (Returned tt,
            mkSt (mkService (url (svc s)) (username (svc s)) (password (svc s))
                            (base_path (svc s)) t (cache (svc s)))
                 (world s) (log s)).

Definition set_cache (c : LRUCache) : M unit :=
  fun s => (Returned tt,
            mkSt (mkService (url (svc s)) (username (svc s)) (password (svc s))
                            (base_path (svc s)) (token (svc s)) c)
                 (world s) (log s)).

Definition code_is (b : Body) (n : Z) : bool :=
  match code b with Some c => c =? n | None => false end.

(** *** Methods of AlistService *)

(** [_login_sync]. *)
Definition _login_sync : M bool :=
  catch
    (s <- get_service ;;
     r <- post (ApiLogin (username s) (password s)) ;;
     let '(status, body) := r in
     if status =? 200 then
       data <- json body ;;
       if code_is data 200 then set_token (data_token data) ;;; ret true
       else ret false
     else ret false)
    (fun _ => ret false).

(** [if not self._token: if not self._login_sync(): raise Exception(...)]. *)
Definition ensure_login : M unit :=
  s <- get_service ;;
  match Py.truthy (token s) with
  | Some _ => ret tt
  | None =>
      ok <- _login_sync ;;
      if ok then ret tt else raise "登录失败"
  end.

(** ["//" -> "/"], left to right without overlap. *)
Fixpoint squeeze_slashes (s : string) : string :=
  match s with
  | String "/" (String "/" rest) => String "/" (squeeze_slashes rest)
  | String c rest => String c (squeeze_slashes rest)
  | EmptyString => EmptyString
  end.

Definition full_path_of (base_path path : string) : string :=
  if Str.is_empty path || String.eqb path "/" then base_path
  else if Str.startswith path "/" then path
  else squeeze_slashes (base_path +:+ "/" +:+ path).

(** [_full_path]. *)
Definition _full_path (path : string) : M string :=
  s <- get_service ;; ret (full_path_of (base_path s) path).

(** [_parse_list_response]. *)
Definition _parse_list_response (data : Body) (parent_path : string) : list FileInfo :=
  map (fun item =>
         mkFileInfo (Str.rstrip "/" parent_path +:+ "/" +:+ item_name item)
                    (item_name item) (item_is_dir item))
      (data_content data).

Definition cache_key_of (full_path : string) : string := "list:" +:+ full_path.

(** How one pass through the body of the retry loop ends. *)
Inductive LoopExit :=
| Return (result : list FileInfo)        (* [return result] *)
| Continue                               (* [continue]: straight to the next attempt *)
| Failed (last_error : option string).   (* fell through to the delay at the bottom *)

Definition msg_lower_has_too_many (m : Msg) : M bool :=
  match m with
  | MsgAbsent => ret false
  | MsgStr s => ret (Str.contains "too many" (Str.lower s))
  | MsgNull => raise "'NoneType' object has no attribute 'lower'"
  end.

(** [data.get("message", "未知错误")]. *)
Definition msg_or_unknown (m : Msg) : option string :=
  match m with
  | MsgAbsent => Some "未知错误"
  | MsgStr s => Some s
  | MsgNull => None
  end.

(** The [try] block of one attempt of [list_directory]. *)
Definition list_attempt (full_path : string) : M LoopExit :=
  catch
    (gate ;;;
     r <- post (FsList full_path false 1 0) ;;
     let '(status, body) := r in
     if status =? 200 then
       data <- json body ;;
       if code_is data 200 then
         let result := _parse_list_response data full_path in
         s <- get_service ;;
         t <- clock ;;
         match cache_set (cache s) (cache_key_of full_path) result t with
         | Some c => set_cache c ;;; ret (Return result)
         | None => raise "'dictionary is empty'"
         end
       else if code_is data 401 then
         set_token None ;;;
         ok <- _login_sync ;;
         if ok then ret Continue else ret (Failed (msg_or_unknown (message data)))
       else
         limited <- (if code_is data 429 then ret true
                     else msg_lower_has_too_many (message data)) ;;
         if limited then sleep DEFAULT_RATE_LIMIT_DELAY ;;; ret Continue
         else ret (Failed (msg_or_unknown (message data)))
     else if status =? 429 then
       sleep DEFAULT_RATE_LIMIT_DELAY ;;; ret Continue
     else ret (Failed (Some ("HTTP " +:+ Py.str_of_int status))))
    (fun e => ret (Failed (Some e))).

(** [for attempt in range(MAX_RETRIES)] and the [raise] behind it. *)
Fixpoint list_attempts (full_path : string) (attempts : list Z)
    (last_error : option string) : M (list FileInfo) :=
  match attempts with
  | [] =>
      raise ("列出目录失败（重试" +:+ Py.str_of_int MAX_RETRIES +:+ "次后）: "
             +:+ default "None" last_error)
  | attempt :: rest =>
      e <- list_attempt full_path ;;
      match e with
      | Return result => ret result
      | Continue => list_attempts full_path rest last_error
      | Failed err =>
          (if attempt <? MAX_RETRIES - 1 then sleep (RETRY_DELAY * (attempt + 1)) else ret tt) ;;;
          list_attempts full_path rest err
      end
  end.

Definition list_directory (path : string) : M (list FileInfo) :=
  ensure_login ;;;
  full_path <- _full_path path ;;
  s <- get_service ;;
  t <- clock ;;
  let '(cached, c) := cache_get (cache s) (cache_key_of full_path) t in
  set_cache c ;;;
  match cached with
  | Some result => ret result
  | None => list_attempts full_path (Py.range 0 MAX_RETRIES) None
  end.

(** [response.status_code == 200 and response.json().get("code") in codes]
    at the end of a [try] block. *)
Definition answered (r : Z * option Body) (codes : list Z) : M bool :=
  let '(status, body) := r in
  if status =? 200 then
    data <- json body ;;
    ret (existsb (code_is data) codes)
  else ret false.

Definition move_file (source destination : string) : M bool :=
  ensure_login ;;;
  src_full <- _full_path source ;;
  dst_full <- _full_path destination ;;
  let src_dir := OsPath.dirname src_full in
  let src_name := OsPath.basename src_full in
  let dst_dir := OsPath.dirname dst_full in
  let dst_name := OsPath.basename dst_full in
  gate ;;;
  catch
    (response <-
       (if String.eqb src_dir dst_dir then post (FsRename src_full dst_name)
        else
          moved <- post (FsMove src_dir dst_dir [src_name]) ;;
          if negb (String.eqb src_name dst_name) then
            post (FsRename (dst_dir +:+ "/" +:+ src_name) dst_name)
          else ret moved) ;;
     answered response [200])
    (fun e => raise ("移动文件失败: " +:+ e)).

(** The polling loop of [copy_file]: up to [rounds] probes half a second
    apart; a probe that answers with code 200 ends it. *)
Fixpoint wait_copied (rounds : nat) (copied_path : string) : M unit :=
  match rounds with
  | O => ret tt
  | S n =>
      sleep 500 ;;;
      check <- post (FsGet copied_path) ;;
      let '(status, body) := check in
      if status =? 200 then
        check_data <- json body ;;
        if code_is check_data 200 then ret tt else wait_copied n copied_path
      else wait_copied n copied_path
  end.

Definition copy_file (source destination : string) : M bool :=
  ensure_login ;;;
  src_full <- _full_path source ;;
  dst_full <- _full_path destination ;;
  let src_dir := OsPath.dirname src_full in
  let src_name := OsPath.basename src_full in
  let dst_dir := OsPath.dirname dst_full in
  let dst_name := OsPath.basename dst_full in
  gate ;;;
  catch
    (response <- post (FsCopy src_dir dst_dir [src_name]) ;;
     let '(status, body) := response in
     if status =? 200 then
       data <- json body ;;
       if negb (code_is data 200) then ret false
       else
         wait_copied 60 (dst_dir +:+ "/" +:+ src_name) ;;;
         if negb (String.eqb src_name dst_name) then
           renamed <- post (FsRename (dst_dir +:+ "/" +:+ src_name) dst_name) ;;
           rename_data <- json (snd renamed) ;;
           ret ((fst renamed =? 200) && code_is rename_data 200)
         else ret true
     else ret false)
    (fun e => raise ("复制文件失败: " +:+ e)).

Definition delete_file (path : string) : M bool :=
  ensure_login ;;;
  full_path <- _full_path path ;;
  gate ;;;
  catch
    (response <- post (FsRemove (OsPath.dirname full_path) [OsPath.basename full_path]) ;;
     answered response [200])
    (fun e => raise ("删除文件失败: " +:+ e)).

Definition create_directory (path : string) : M bool :=
  ensure_login ;;;
  full_path <- _full_path path ;;
  gate ;;;
  catch
    (response <- post (FsMkdir full_path) ;;
     answered response [200; 500])
    (fun e => raise ("创建目录失败: " +:+ e)).

Definition put_file_content (path content : string) : M bool :=
  ensure_login ;;;
  full_path <- _full_path path ;;
  gate ;;;
  catch
    (response <- post (FsPut full_path content) ;;
     answered response [200])
    (fun _ => ret false).

(** [refresh_directory_async], run to completion. *)
Definition refresh_directory_async (path : string) : M bool :=
  s <- get_service ;;
  logged_in <- (match Py.truthy (token s) with
                | Some _ => ret true
                | None => _login_sync
                end) ;;
  if negb logged_in then ret false
  else
    full_path <- _full_path path ;;
    catch
      (response <- post (FsList full_path true 1 1) ;;
       let '(status, body) := response in
       if status =? 200 then
         data <- json body ;;
         if code_is data 200 then
           s <- get_service ;;
           set_cache (cache_invalidate (cache s) (cache_key_of full_path)) ;;;
           ret true
         else ret false
       else ret false)
      (fun _ => ret false).

(** A fresh client: [AlistService(url, username, password, base_path)]. *)
Definition new_service (url username password base_path : string) : Service :=
  let b := Str.rstrip "/" base_path in
  let b := if Str.is_empty b then "/" else b in
  let b := if Str.startswith b "/" then b else "/" +:+ b in
  mkService (Str.rstrip "/" url) username password b None
            (mkLRUCache DEFAULT_CACHE_SIZE DEFAULT_CACHE_TTL []).

Definition start (s : Service) (clock0 : Z) (script : list (Z * Response)) : St :=
  mkSt s (mkWorld clock0 script) [].

End Alist.

(** ** tmdb_mapping.py: the module-level cache *)

Module MappingCache.
Import TmdbMapping.

(** [get_or_build_mapping] with [_mapping_cache] threaded explicitly: the
    answer and the cache it leaves.  A [TMDBMapping] instance is truthy,
    so [if mapping:] tests for [None]. *)
Definition get_or_build_mapping (id : Z) (svc : TMDBService)
    (cache : gmap Z TMDBMapping) : option TMDBMapping * gmap Z TMDBMapping :=
  let cache' :=
    match cache !! id with
    | Some _ => cache
    | None =>
        match build_episode_mapping id svc with
        | Some mapping => <[id := mapping]> cache
        | None => cache
        end
    end in
  (cache' !! id, cache').

(** [clear_mapping_cache]. *)
Definition clear_mapping_cache (cache : gmap Z TMDBMapping) : gmap Z TMDBMapping := ∅.

End MappingCache.

(** ** classifier.py: the batch entry point and the summary *)

Module ClassifierBatch.
Import TmdbMapping Classifier.

(** One element of [files] and one of [mappings]: dictionaries read with
    [.get(key, default)], so every key may be missing. *)
Record FileEntry := mkFileEntry {
  f_path : option string;
  f_name : option string;
  f_directory : option string
}.

Record Rule := mkRule {
  path_pattern : option string;
  file_pattern : option string;
  rule_tmdb_id : option Z;
  rule_context : option string;
  rule_media_type : option string
}.

(** The two tests of the inner loop: a non-empty pattern that occurs,
    case-insensitively, in the path or in the name. *)
Definition rule_matches (file_path file_name : string) (m : Rule) : bool :=
  let path_pattern := default EmptyString (path_pattern m) in
  let file_pattern := default EmptyString (file_pattern m) in
  (negb (Str.is_empty path_pattern)
   && Str.contains (Str.lower path_pattern) (Str.lower file_path))
  || (negb (Str.is_empty file_pattern)
      && Str.contains (Str.lower file_pattern) (Str.lower file_name)).

(** [for m in mappings: ... break]. *)
Fixpoint matched_mapping (file_path file_name : string) (mappings : list Rule)
    : option Rule :=
  match mappings with
  | [] => None
  | m :: rest =>
      if rule_matches file_path file_name m then Some m
      else matched_mapping file_path file_name rest
  end.

(** Body of [for file in files]: the result appended for one file. *)
Definition classify_one (file : FileEntry) (mappings : list Rule)
    (tmdb_mappings : gmap Z TMDBMapping) : ClassifyResult :=
  let file_path := default EmptyString (f_path file) in
  let file_name := default EmptyString (f_name file) in
  match matched_mapping file_path file_name mappings with
  | None =>
      mkClassifyResult file_path file_name 0 "unmatched" "没有匹配的 mapping 规则" 0 0 0 EmptyString
  | Some m =>
      let tmdb_id := default 0 (rule_tmdb_id m) in
      let context := default "cumulative" (rule_context m) in
      let media_type := default "tv" (rule_media_type m) in
      if String.eqb media_type "movie" then
        mkClassifyResult file_path file_name 0 "matched" EmptyString tmdb_id 0 0 EmptyString
      else
        match tmdb_mappings !! tmdb_id with
        | None =>
            mkClassifyResult file_path file_name 0 "error"
              ("TMDB ID " +:+ Py.str_of_int tmdb_id +:+ " 的映射表不存在") 0 0 0 EmptyString
        | Some tmdb_mapping => classify_file file_path file_name context tmdb_mapping
        end
  end.

Definition classify_files (files : list FileEntry) (mappings : list Rule)
    (tmdb_mappings : gmap Z TMDBMapping) : list ClassifyResult :=
  (fun file => classify_one file mappings tmdb_mappings) <$> files.

(** [summary["by_tmdb"][tmdb_id]]. *)
Record Group := mkGroup {
  seasons : gmap Z (list ClassifyResult);
  files : list ClassifyResult
}.

Record Summary := mkSummary {
  total : Z;
  matched : Z;
  unmatched : Z;
  error : Z;
  by_tmdb : gmap Z Group;
  unmatched_files : list ClassifyResult;
  error_files : list ClassifyResult
}.

(** [if k not in d: d[k] = v]. *)
Definition setdefault `{Countable K} {V} (k : K) (v : V) (d : gmap K V) : gmap K V :=
  match d !! k with Some _ => d | None => <[k := v]> d end.

(** The [matched] branch: the result is filed under its series, by
    season when the season is positive. *)
Definition file_matched (r : ClassifyResult) (by_tmdb : gmap Z Group) : gmap Z Group :=
  let tmdb_id := r_tmdb_id r in
  let by_tmdb := setdefault tmdb_id (mkGroup ∅ []) by_tmdb in
  let group := default (mkGroup ∅ []) (by_tmdb !! tmdb_id) in
  if 0 <? r_season r then
    let seasons := setdefault (r_season r) [] (seasons group) in
    let listed := default [] (seasons !! r_season r) in
    <[tmdb_id := mkGroup (<[r_season r := listed ++ [r]]> seasons) (files group)]> by_tmdb
  else
    <[tmdb_id := mkGroup (seasons group) (files group ++ [r])]> by_tmdb.

(** Body of [for r in results]. *)
Definition summarize_step (summary : Summary) (r : ClassifyResult) : Summary :=
  if String.eqb (status r) "matched" then
    mkSummary (total summary) (matched summary + 1) (unmatched summary) (error summary)
      (file_matched r (by_tmdb summary)) (unmatched_files summary) (error_files summary)
  else if String.eqb (status r) "unmatched" then
    mkSummary (total summary) (matched summary) (unmatched summary + 1) (error summary)
      (by_tmdb summary) (unmatched_files summary ++ [r]) (error_files summary)
  else
    mkSummary (total summary) (matched summary) (unmatched summary) (error summary + 1)
      (by_tmdb summary) (unmatched_files summary) (error_files summary ++ [r]).

Definition summarize_results (results : list ClassifyResult) : Summary :=
  fold_left summarize_step results
    (mkSummary (Z.of_nat (length results)) 0 0 0 ∅ [] []).

End ClassifierBatch.

(** ** agents/models/enums.py *)

Module Enums.

Inductive MediaType := TV | MOVIE.

Inductive SubCategory := ANIMATION | DOCUMENTARY | MUSIC | VARIETY | DEFAULT.

(** The [.value] of the two enumerations. *)
Definition media_type_value (m : MediaType) : string :=
  match m with TV => "tv" | MOVIE => "movie" end.

Definition sub_category_value (c : SubCategory) : string :=
  match c with
  | ANIMATION => "animation"
  | DOCUMENTARY => "documentary"
  | MUSIC => "music"
  | VARIETY => "variety"
  | DEFAULT => "default"
  end.

Definition SUBCATEGORY_TV_ZH (c : SubCategory) : string :=
  match c with
  | ANIMATION => "动漫"
  | DOCUMENTARY => "纪录片"
  | MUSIC => "音乐"
  | VARIETY => "综艺"
  | DEFAULT => "电视剧"
  end.

Definition SUBCATEGORY_MOVIE_ZH (c : SubCategory) : string :=
  match c with
  | ANIMATION => "动漫"
  | DOCUMENTARY => "纪录片"
  | MUSIC => "音乐"
  | VARIETY => "综艺"
  | DEFAULT => "电影"
  end.

Definition SUBCATEGORY_TV_EN (c : SubCategory) : string :=
  match c with
  | ANIMATION => "Animation"
  | DOCUMENTARY => "Documentary"
  | MUSIC => "Music"
  | VARIETY => "Variety"
  | DEFAULT => "TV Shows"
  end.

Definition SUBCATEGORY_MOVIE_EN (c : SubCategory) : string :=
  match c with
  | ANIMATION => "Animation"
  | DOCUMENTARY => "Documentary"
  | MUSIC => "Music"
  | VARIETY => "Variety"
  | DEFAULT => "Movies"
  end.

Definition GENRE_TO_SUBCATEGORY : gmap string SubCategory :=
  list_to_map
    [ ("Animation", ANIMATION);
      ("Documentary", DOCUMENTARY);
      ("Music", MUSIC);
      ("Reality", VARIETY);
      ("Talk", VARIETY);
      ("动画", ANIMATION);
      ("纪录", DOCUMENTARY);
      ("纪录片", DOCUMENTARY);
      ("音乐", MUSIC);
      ("真人秀", VARIETY);
      ("脱口秀", VARIETY) ].

Fixpoint determine_subcategory (genres : list string) : SubCategory :=
  match genres with
  | [] => DEFAULT
  | genre :: rest =>
      match GENRE_TO_SUBCATEGORY !! genre with
      | Some c => c
      | None => determine_subcategory rest
      end
  end.

(** The tables have every sub-category as a key, so the default of
    [.get] is never used. *)
Definition get_subcategory_name (sub_category : SubCategory) (media_type : MediaType)
    (language : string) : string :=
  if String.eqb language "zh" then
    match media_type with
    | TV => SUBCATEGORY_TV_ZH sub_category
    | MOVIE => SUBCATEGORY_MOVIE_ZH sub_category
    end
  else
    match media_type with
    | TV => SUBCATEGORY_TV_EN sub_category
    | MOVIE => SUBCATEGORY_MOVIE_EN sub_category
    end.

End Enums.

(** ** utils/path_utils.py *)

Module PathUtils.
Import Enums.

Definition get_target_path (root_path : string) (media_type : MediaType)
    (sub_category : SubCategory) (language : string) : string :=
  let root := Str.rstrip "/" root_path in
  let type_name :=
    if String.eqb language "zh"
    then match media_type with TV => "剧集" | MOVIE => "电影" end
    else match media_type with TV => "TV" | MOVIE => "Movies" end in
  let sub_name := get_subcategory_name sub_category media_type language in
  root +:+ "/" +:+ type_name +:+ "/" +:+ sub_name.

(** [get_all_target_paths]: the dictionary as the list of its items, in
    the order of insertion. *)
Definition get_all_target_paths (root_path language : string) : list (string * string) :=
  media_type ← [TV; MOVIE];
  sub_cat ← [ANIMATION; DOCUMENTARY; MUSIC; VARIETY; DEFAULT];
  [(media_type_value media_type +:+ "_" +:+ sub_category_value sub_cat,
    get_target_path root_path media_type sub_cat language)].

End PathUtils.

(** ** utils/naming.py: the folder names *)

Module NamingFolders.
Import Naming.

Definition format_series_folder (title : string) (year : option Z) : string :=
  let clean_title := sanitize_filename title in
  match year_given year with
  | Some y => clean_title +:+ " (" +:+ Py.str_of_int y +:+ ")"
  | None => clean_title
  end.

Definition format_movie_folder (title : string) (year : option Z) : string :=
  let clean_title := sanitize_filename title in
  match year_given year with
  | Some y => clean_title +:+ " (" +:+ Py.str_of_int y +:+ ")"
  | None => clean_title
  end.

End NamingFolders.

(** ** agents/tools/strm_tools.py: where [generate_strm] puts a series *)

Module StrmLayout.
Import Enums PathUtils NamingFolders.

(** [base_folder] of the TV branch and of the movie branch. *)
Definition tv_base_folder (target_path : string) (sub_category : SubCategory)
    (language title : string) (year : option Z) : string :=
  let series_folder := format_series_folder title year in
  let category_path := get_target_path target_path TV sub_category language in
  category_path +:+ "/" +:+ series_folder.

Definition movie_base_folder (target_path : string) (sub_category : SubCategory)
    (language title : string) (year : option Z) : string :=
  let movie_folder := format_movie_folder title year in
  let category_path := get_target_path target_path MOVIE sub_category language in
  category_path +:+ "/" +:+ movie_folder.

End StrmLayout.

(** ** agents/tools/strm_tools.py: the subtitle batch *)

Module SubtitleBatch.
Import Strm Retry.








End SubtitleBatch.

(** * Proofs *)

(** ** The episode resolver *)

Module MappingProofs.
Import TmdbMapping.

(** What holds of the builder while season [s] is being filled and [i]
    of its episodes have been entered. *)
Definition filling (s i : Z) (b : Builder) : Prop :=
  0 <= b_cumulative b /\
  (forall k, is_Some (b_by_cumulative b !! k) <-> 1 <= k <= b_cumulative b) /\
  (forall k E, b_by_cumulative b !! k = Some E ->
     cumulative E = k /\
     b_by_season_episode b !! (season E, episode_in_season E) = Some E /\
     (season E < s \/ (season E = s /\ episode_in_season E <= i))).

Lemma filling_empty s : filling s 0 (mkBuilder ∅ ∅ 0).
Proof.
  split; [simpl; lia|]. split.
  - intros k. simpl. rewrite lookup_empty. split; [intros [? ?]; discriminate | lia].
  - intros k E. simpl. rewrite lookup_empty. discriminate.
Qed.

Lemma episode_step_filling s i ep b :
  filling s i b -> filling s (i + 1) (episode_step s i ep b).
Proof.
  intros (Hc & Hdom & Hrows). unfold episode_step. split; [simpl; lia|]. split.
  - intros k. simpl. destruct (decide (b_cumulative b + 1 = k)) as [<-|Hne].
    + rewrite lookup_insert_eq. split; [lia | eauto].
    + rewrite lookup_insert_ne by done. rewrite Hdom. lia.
  - intros k E. simpl. destruct (decide (b_cumulative b + 1 = k)) as [<-|Hne].
    + rewrite lookup_insert_eq. intros [= <-]. simpl.
      split; [done|]. split; [apply lookup_insert_eq | right; lia].
    + rewrite lookup_insert_ne by done. intros HE.
      destruct (Hrows k E HE) as (Hk & Hse & Hs).
      split; [done|]. split; [|lia].
      rewrite lookup_insert_ne; [done|]. intros [= Ha Hb]. lia.
Qed.

Lemma episodes_loop_filling s eps : forall i b,
  filling s i b -> filling s (i + Z.of_nat (length eps)) (episodes_loop s i eps b).
Proof.
  induction eps as [|ep eps IH]; intros i b Hb; cbn [episodes_loop length].
  - by rewrite Z.add_0_r.
  - rewrite Nat2Z.inj_succ.
    replace (i + Z.succ (Z.of_nat (length eps)))
      with ((i + 1) + Z.of_nat (length eps)) by lia.
    apply IH. by apply episode_step_filling.
Qed.

(** Once a season is done, the next one starts from the same facts. *)
Lemma filling_next s i b : filling s i b -> filling (s + 1) 0 b.
Proof.
  intros (Hc & Hdom & Hrows). split; [done|]. split; [done|].
  intros k E HE. destruct (Hrows k E HE) as (? & ? & ?). repeat split; [done..|lia].
Qed.

Lemma season_step_filling svc id s b :
  filling s 0 b -> filling (s + 1) 0 (season_step svc id b s).
Proof.
  intros Hb. unfold season_step.
  destruct (get_tv_season svc id s) as [info|]; [|by eapply filling_next].
  destruct (episodes info) as [eps|]; [|by eapply filling_next].
  eapply filling_next. by apply episodes_loop_filling.
Qed.

Lemma seasons_fold_filling svc id (n : nat) : forall s b,
  filling s 0 b ->
  filling (s + Z.of_nat n) 0 (fold_left (season_step svc id) (seqZ s (Z.of_nat n)) b).
Proof.
  induction n as [|n IH]; intros s b Hb.
  - simpl. by rewrite Z.add_0_r.
  - rewrite seqZ_cons by lia. simpl fold_left.
    replace (Z.pred (Z.of_nat (S n))) with (Z.of_nat n) by lia.
    replace (s + Z.of_nat (S n)) with (Z.succ s + Z.of_nat n) by lia.
    apply IH. replace (Z.succ s) with (s + 1) by lia. by apply season_step_filling.
Qed.

Lemma range_fold_filling svc id n :
  exists s, filling s 0 (fold_left (season_step svc id) (Py.range 1 (n + 1)) (mkBuilder ∅ ∅ 0)).
Proof.
  unfold Py.range. replace (n + 1 - 1) with n by lia.
  destruct (Z_le_gt_dec 0 n) as [Hn|Hn].
  - exists (1 + Z.of_nat (Z.to_nat n)).
    rewrite <- (Z2Nat.id n) at 2 by done.
    apply seasons_fold_filling, filling_empty.
  - exists 1. rewrite seqZ_nil by lia. apply filling_empty.
Qed.

(** C1.  For every mapping that [build_episode_mapping] returns, whatever
    the season fetches answer (failures and empty lists included): the
    keys of [by_cumulative] are exactly [1 .. total_episodes], every row
    is stored under its own cumulative number, and looking a row of
    [by_cumulative] up again by its (season, episode_in_season) gives the
    same row. *)
Theorem build_episode_mapping_round_trip id svc m :
  build_episode_mapping id svc = Some m ->
  dom (by_cumulative m) = list_to_set (seqZ 1 (total_episodes m)) /\
  (forall k, is_Some (by_cumulative m !! k) <-> 1 <= k <= total_episodes m) /\
  (forall k E, by_cumulative m !! k = Some E ->
     cumulative E = k /\
     by_season_episode m !! (season E, episode_in_season E) = Some E).
Proof.
  unfold build_episode_mapping.
  destruct (get_tv_details svc id) as [tv_info|]; [|discriminate].
  intros [= <-]. simpl.
  destruct (range_fold_filling svc id (seasons_or_zero tv_info)) as (s & Hc & Hdom & Hrows).
  split; [|split].
  - apply set_eq. intros k. rewrite elem_of_dom, Hdom, elem_of_list_to_set, elem_of_seqZ. lia.
  - done.
  - intros k E HE. destruct (Hrows k E HE) as (? & ? & ?). done.
Qed.

(** A series with three announced seasons: the first has two episodes
    (one renumbered by the provider), the fetch of the second fails, the
    third has one episode without a declared number. *)
Definition sample_service : TMDBService :=
  mkTMDBService
    (fun _ => Some (mkTMDBMediaInfo "Sample" None (Some 3)))
    (fun _ s =>
       if s =? 1 then Some (mkSeasonInfo (Some [mkEpisode (Some 1); mkEpisode (Some 13)]))
       else if s =? 3 then Some (mkSeasonInfo (Some [mkEpisode None]))
       else None).

Lemma build_episode_mapping_round_trip_witness :
  exists m, build_episode_mapping 7 sample_service = Some m /\
    total_episodes m = 3 /\
    by_cumulative m !! 3 = Some (mkEpisodeInfo 3 1 1 3) /\
    (forall k, is_Some (by_cumulative m !! k) <-> 1 <= k <= total_episodes m).
Proof.
  eexists. split; [reflexivity|]. split; [reflexivity|]. split; [reflexivity|].
  apply (build_episode_mapping_round_trip 7 sample_service). reflexivity.
Defined.

End MappingProofs.

(** ** Decimal numerals: printing with [str] and reading with [int] *)

Module NumeralProofs.

Definition WHITESPACE : string :=
  String (ascii_of_N 9) (String (ascii_of_N 10) (String (ascii_of_N 11)
    (String (ascii_of_N 12) (String (ascii_of_N 13) (String (ascii_of_N 28)
    (String (ascii_of_N 29) (String (ascii_of_N 30) (String (ascii_of_N 31) " ")))))))).

Ltac each_byte c := destruct c as [[|] [|] [|] [|] [|] [|] [|] [|]].

Lemma digit_not_space c : Str.is_digit c = true -> Str.mem c WHITESPACE = false.
Proof. each_byte c; vm_compute; congruence. Qed.

Lemma digit_not_sign c :
  Str.is_digit c = true -> c <> "-"%char /\ c <> "+"%char /\ c <> "_"%char.
Proof. each_byte c; vm_compute; intros; repeat split; congruence. Qed.

Lemma lstrip_digits s : Str.all_chars Str.is_digit s = true -> Str.lstrip WHITESPACE s = s.
Proof.
  destruct s as [|c s]; [done|]. cbn [Str.lstrip Str.all_chars]. intros [Hc _]%andb_prop.
  by rewrite (digit_not_space c Hc).
Qed.

Lemma rstrip_digits s : Str.all_chars Str.is_digit s = true -> Str.rstrip WHITESPACE s = s.
Proof.
  induction s as [|c s IH]; [done|]. cbn [Str.rstrip Str.all_chars]. intros [Hc Hs]%andb_prop.
  rewrite (IH Hs). destruct s; [|done]. by rewrite (digit_not_space c Hc).
Qed.

Lemma strip_digits s : Str.all_chars Str.is_digit s = true -> Str.strip WHITESPACE s = s.
Proof. intros H. unfold Str.strip. rewrite lstrip_digits by done. by apply rstrip_digits. Qed.

(** [int] reads a non-empty run of digits as its value. *)
Lemma int_of_str_digits s :
  s <> EmptyString -> Str.all_chars Str.is_digit s = true ->
  Str.int_of_str s = Some (Str.digits_value 0 s).
Proof.
  intros Hne Hd. unfold Str.int_of_str. fold WHITESPACE. rewrite (strip_digits s Hd).
  destruct s as [|c s]; [done|].
  pose proof Hd as Hd'. simpl in Hd'. apply andb_prop in Hd' as [Hc _].
  destruct (digit_not_sign c Hc) as (Hm & Hp & _).
  assert (Hbody : (let '(neg, body) :=
            match String c s with
            | String "-" r => (true, r)
            | String "+" r => (false, r)
            | _ => (false, String c s)
            end in
            if Str.is_empty body || negb (Str.all_chars Str.is_digit body) then None
            else Some (if neg then - Str.digits_value 0 body else Str.digits_value 0 body))
          = Some (Str.digits_value 0 (String c s))).
  { revert Hm Hp Hc. each_byte c; intros Hm Hp Hc; try congruence;
      try (vm_compute in Hc; congruence);
      cbv beta iota; rewrite Hd; reflexivity. }
  exact Hbody.
Qed.

Lemma digits_of_uint d : Str.all_chars Str.is_digit (NilEmpty.string_of_uint d) = true.
Proof. induction d; simpl; try done. Qed.

Lemma digits_value_acc d : forall acc,
  Str.digits_value (Z.pos acc) (NilEmpty.string_of_uint d) = Z.pos (Pos.of_uint_acc d acc).
Proof.
  induction d; intros acc; cbn [NilEmpty.string_of_uint Str.digits_value Pos.of_uint_acc];
    try reflexivity;
    match goal with
    | |- Str.digits_value ?v _ = _ =>
        match goal with
        | |- _ = Z.pos (Pos.of_uint_acc _ ?a) =>
            replace v with (Z.pos a) by (vm_compute Str.code; cbn; lia)
        end
    end; apply IHd.
Qed.

Lemma digits_value_of_uint d :
  Str.digits_value 0 (NilEmpty.string_of_uint d) = Z.of_N (Pos.of_uint d).
Proof.
  induction d; cbn [NilEmpty.string_of_uint Str.digits_value Pos.of_uint];
    try reflexivity; try exact IHd;
    match goal with
    | |- Str.digits_value ?v _ = Z.of_N (N.pos (Pos.of_uint_acc _ ?a)) =>
        change v with (Z.pos a); apply digits_value_acc
    end.
Qed.

Lemma to_uint_digits p :
  Py.str_of_int (Z.pos p) = NilEmpty.string_of_uint (Pos.to_uint p) /\
  NilEmpty.string_of_uint (Pos.to_uint p) <> EmptyString.
Proof.
  unfold Py.str_of_int. simpl. unfold Pos.to_int, NilZero.string_of_int, NilZero.string_of_uint.
  pose proof (Unsigned.of_to p) as Hp.
  destruct (Pos.to_uint p) eqn:E; try (split; [reflexivity | discriminate]).
  simpl in Hp. discriminate.
Qed.

(** Reading back what [str] printed, for a natural number. *)
Lemma int_of_str_of_int n :
  0 <= n -> Str.int_of_str (Py.str_of_int n) = Some n /\
            Str.all_chars Str.is_digit (Py.str_of_int n) = true.
Proof.
  intros Hn. destruct n as [|p|p]; [by vm_compute| |lia].
  destruct (to_uint_digits p) as [-> Hne]. split; [|apply digits_of_uint].
  rewrite int_of_str_digits; [|done|apply digits_of_uint].
  rewrite digits_value_of_uint, Unsigned.of_to. reflexivity.
Qed.

End NumeralProofs.

(** ** The classifier *)

Module ClassifierProofs.
Import TmdbMapping Regex Classifier NumeralProofs.

Lemma split_digits s : Str.all_chars Str.is_digit s = true -> Str.split "_" s = [s].
Proof.
  induction s as [|c s IH]; [done|]. cbn [Str.all_chars Str.split].
  intros [Hc Hs]%andb_prop. destruct (digit_not_sign c Hc) as (_ & _ & Hu).
  unfold Str.eqb_char. destruct (Ascii.eqb_spec c "_"); [done|]. by rewrite (IH Hs).
Qed.

Lemma lookup_cumulative m n : lookup m "cumulative" n = by_cumulative m !! n.
Proof. reflexivity. Qed.

(** [lookup] on ["season_" + digits]. *)
Lemma lookup_season_digits m ds n :
  ds <> EmptyString -> Str.all_chars Str.is_digit ds = true ->
  lookup m ("season_" +:+ ds) n = by_season_episode m !! (Str.digits_value 0 ds, n).
Proof.
  intros Hne Hd. unfold lookup.
  change ("season_" +:+ ds) with
    (String "s" (String "e" (String "a" (String "s" (String "o" (String "n" (String "_" ds))))))).
  cbn [String.eqb Ascii.eqb Bool.eqb Str.startswith Str.strip_prefix Str.eqb_char Str.split].
  rewrite (split_digits ds Hd). cbn [Ascii.eqb Bool.eqb].
  by rewrite (int_of_str_digits ds Hne Hd).
Qed.

Lemma lookup_season m N n :
  0 <= N -> lookup m ("season_" +:+ Py.str_of_int N) n = by_season_episode m !! (N, n).
Proof.
  intros HN. destruct (int_of_str_of_int N HN) as [Hint Hd].
  assert (Hne : Py.str_of_int N <> EmptyString).
  { intros E. rewrite E in Hint. vm_compute in Hint. discriminate. }
  rewrite lookup_season_digits by done.
  rewrite (int_of_str_digits _ Hne Hd) in Hint. by injection Hint as ->.
Qed.




Example clean_name_sample :
  clean_name "Show.S01E05.1080p.x265.HEVC.10bit.mkv" = "Show.S01E05.1080p....mkv".
Proof. reflexivity. Qed.

(** Greedy repetition with backtracking: four digits are taken first. *)
Example search_greedy :
  search_number (nth 0 patterns Eps) "E12345" = Some 1234 /\
  search_number (nth 4 patterns Eps) "a 123456 7890 b" = Some 7890.
Proof. split; reflexivity. Qed.

(** Only the leftmost match of a pattern is looked at. *)
Example extract_leftmost_only : extract_episode_number "E0000 E05" = 0.
Proof. reflexivity. Qed.

Example extract_bracket : extract_episode_number "[024].mkv" = 24.
Proof. reflexivity. Qed.

Example extract_resolution_rejected : extract_episode_number "Show.1080.mkv" = 0.
Proof. reflexivity. Qed.

Example extract_zero_rejected : extract_episode_number "Show.E00.mkv" = 0.
Proof. reflexivity. Qed.

Example extract_after_codec_strip : extract_episode_number "Show x265 - 07 .mkv" = 7.
Proof. reflexivity. Qed.





End ClassifierProofs.

(** ** Substitution with [re.sub] *)

Module SubProofs.
Import Regex.

Lemma all_chars_app p s t :
  Str.all_chars p (s +:+ t) = Str.all_chars p s && Str.all_chars p t.
Proof. induction s as [|c s IH]; simpl; [done|]. by rewrite IH, andb_assoc. Qed.

(** The output of a substitution is made of bytes of the subject and of
    the replacement. *)
Lemma sub_from_all_chars p r repl s : forall skip bef,
  Str.all_chars p repl = true -> Str.all_chars p s = true ->
  Str.all_chars p (sub_from r repl skip bef s) = true.
Proof.
  induction s as [|c s IH]; intros skip bef Hrepl Hs; [done|].
  simpl in Hs. apply andb_prop in Hs as [Hc Hs].
  cbn [sub_from]. destruct skip as [|n]; [|by apply IH].
  destruct (match_here r bef (String c s)) as [m|].
  - destruct (String.length (String c s) - String.length (rest m))%nat.
    + simpl. rewrite Hc. by apply IH.
    + rewrite all_chars_app, Hrepl. by apply IH.
  - simpl. rewrite Hc. by apply IH.
Qed.

Lemma sub_all_chars p r repl s :
  Str.all_chars p repl = true -> Str.all_chars p s = true ->
  Str.all_chars p (sub r repl s) = true.
Proof. apply sub_from_all_chars. Qed.

(** Substituting a one-byte class: every byte of the class becomes the
    replacement. *)
Lemma sub_class_all_chars (cls q : ascii -> bool) repl s : forall bef,
  Str.all_chars q repl = true ->
  (forall c, cls c = false -> q c = true) ->
  Str.all_chars q (sub_from (Chr cls) repl 0 bef s) = true.
Proof.
  induction s as [|c s IH]; intros bef Hrepl Hq; [done|].
  cbn [sub_from match_here exec rest]. destruct (cls c) eqn:Hc.
  - cbn [rest String.length]. replace (S (String.length s) - String.length s)%nat with 1%nat by lia.
    rewrite all_chars_app, Hrepl. by apply IH.
  - simpl. rewrite (Hq c Hc). by apply IH.
Qed.

Lemma replace_char_all_chars p c new s :
  Str.all_chars p new = true ->
  Str.all_chars p s = true ->
  Str.all_chars p (Str.replace_char c new s) = true.
Proof.
  intros Hnew. induction s as [|d s IH]; [done|]. simpl.
  intros [Hd Hs]%andb_prop. unfold Str.eqb_char. destruct (Ascii.eqb d c).
  - rewrite all_chars_app, Hnew. by apply IH.
  - simpl. rewrite Hd. by apply IH.
Qed.

Lemma lstrip_all_chars p chars s :
  Str.all_chars p s = true -> Str.all_chars p (Str.lstrip chars s) = true.
Proof.
  induction s as [|c s IH]; [done|]. intros Hs. cbn [Str.lstrip].
  destruct (Str.mem c chars); [|done].
  simpl in Hs. apply andb_prop in Hs as [_ Hs]. by apply IH.
Qed.

Lemma rstrip_all_chars p chars s :
  Str.all_chars p s = true -> Str.all_chars p (Str.rstrip chars s) = true.
Proof.
  induction s as [|c s IH]; [done|]. simpl. intros [Hc Hs]%andb_prop.
  specialize (IH Hs). destruct (Str.rstrip chars s).
  - destruct (Str.mem c chars); simpl; [done | by rewrite Hc].
  - cbn [Str.all_chars] in *. by rewrite Hc, IH.
Qed.

Lemma strip_all_chars p chars s :
  Str.all_chars p s = true -> Str.all_chars p (Str.strip chars s) = true.
Proof. intros. by apply rstrip_all_chars, lstrip_all_chars. Qed.

End SubProofs.

(** ** File-name sanitation *)

Module NamingProofs.
Import Regex Naming SubProofs.

Definition legal (c : ascii) : bool := negb (illegal_char c).















(** The Boolean tests say what they should. *)
Lemma all_chars_spec p s :
  Str.all_chars p s = true <-> forall pre c post, s = pre +:+ String c post -> p c = true.
Proof.
  induction s as [|d s IH]; simpl.
  - split; [|done]. intros _ [|] ? ? ?; discriminate.
  - rewrite andb_true_iff, IH. split.
    + intros [Hd Hs] [|e pre] c post; simpl; intros [= -> ->]; [done | by eapply Hs].
    + intros H. split; [by apply (H EmptyString d s) | intros pre c post ->; by apply (H (String d pre) c post)].
Qed.





Example sanitize_sample :
  sanitize_filename "!!K-ON!: Let's..Go~*!!" = "K-ON!. Lets.Go-".
Proof. reflexivity. Qed.

End NamingProofs.

(** ** STRM content: the play URL *)

Module UrlProofs.
Import Strm.

(** The bytes JavaScript's [encodeURI] leaves alone. *)
Definition kept (c : ascii) : bool :=
  Str.is_alnum c || Str.mem c "-_.!~*'();/?:@&=+$,#".

Lemma kept_is_safe c : Url.always_safe c || Str.mem c ENCODE_URI_SAFE = kept c.
Proof. destruct c as [[|] [|] [|] [|] [|] [|] [|] [|]]; reflexivity. Qed.

Lemma quote_step c rest :
  Url.quote (String c rest) ENCODE_URI_SAFE =
  (if kept c then String c EmptyString else Url.percent c) +:+ Url.quote rest ENCODE_URI_SAFE.
Proof. cbn [Url.quote]. by rewrite kept_is_safe. Qed.

Lemma rstrip_no_trailing chars s :
  (forall pre c, s = pre +:+ String c EmptyString -> Str.mem c chars = false) ->
  Str.rstrip chars s = s.
Proof.
  induction s as [|c s IH]; [done|]. intros H. cbn [Str.rstrip].
  destruct s as [|d s].
  - simpl. by rewrite (H EmptyString c eq_refl).
  - assert (Hs : Str.rstrip chars (String d s) = String d s).
    { apply IH. intros pre e Heq. apply (H (String c pre) e). by rewrite Heq. }
    by rewrite Hs.
Qed.

(** C7.  The content written to a [.strm] file is the base URL (trailing
    slashes dropped), then [/d] for Alist and [/dav] otherwise, then the
    path encoded byte by byte: alphanumerics and the characters
    - _ . ! ~ * ' ( ) ; / ? : @ & = + $ , # stay as they are, every other
    byte becomes [%XX] in upper-case hexadecimal.  In particular brackets
    and spaces are encoded and slashes are not. *)
Theorem strm_content_follows_encodeURI storage_config base_url file_path storage_type :
  _generate_strm_content storage_config file_path =
    _build_play_url (default EmptyString (storage_config !! "url")) file_path
                    (default "webdav" (storage_config !! "type")) /\
  _build_play_url base_url file_path storage_type =
    Str.rstrip "/" base_url +:+
    (if String.eqb storage_type "alist" then "/d" else "/dav") +:+
    Url.quote file_path ENCODE_URI_SAFE /\
  ((forall pre, base_url <> pre +:+ "/") -> Str.rstrip "/" base_url = base_url) /\
  Url.quote EmptyString ENCODE_URI_SAFE = EmptyString /\
  (forall c rest,
     Url.quote (String c rest) ENCODE_URI_SAFE =
     (if Str.is_alnum c || Str.mem c "-_.!~*'();/?:@&=+$,#"
      then String c EmptyString
      else String "%" (String (Url.hex_digit (Str.code c / 16))
                         (String (Url.hex_digit (Str.code c mod 16)) EmptyString)))
     +:+ Url.quote rest ENCODE_URI_SAFE) /\
  Url.quote "[ ]/" ENCODE_URI_SAFE = "%5B%20%5D/".
Proof.
  split; [reflexivity|]. split.
  - unfold _build_play_url. by destruct (String.eqb storage_type "alist").
  - split; [|split; [reflexivity|split; [|reflexivity]]].
    + intros H. apply rstrip_no_trailing. intros pre c -> .
      destruct (Ascii.eqb_spec c "/") as [->|Hc]; [by destruct (H pre)|].
      simpl. unfold Str.eqb_char. by destruct (Ascii.eqb_spec c "/").
    + intros c rest. apply quote_step.
Qed.

Lemma strm_content_follows_encodeURI_witness :
  _build_play_url "http://nas:5244" "/anime/[Sub] Show 01.mkv" "alist"
  = "http://nas:5244/d/anime/%5BSub%5D%20Show%2001.mkv".
Proof.
  destruct (strm_content_follows_encodeURI ∅ "http://nas:5244"
              "/anime/[Sub] Show 01.mkv" "alist") as (_ & H & _).
  rewrite H. reflexivity.
Defined.

End UrlProofs.

(** ** Subtitle tasks of [generate_strm] *)

Module StrmProofs.
Import Strm.

Definition priority (s : SubtitleFile) : Z := _get_language_priority (language s).

(** [min] with a key returns the first element whose key is least. *)
Lemma min_by_first_least {A} (key : A -> Z) l : forall best,
  let d := min_by key best l in
  (d = best /\ Forall (fun s => key best <= key s) l) \/
  (exists l1 l2, l = l1 ++ d :: l2 /\ key d < key best /\
     Forall (fun s => key d < key s) l1 /\ Forall (fun s => key d <= key s) l2).
Proof.
  induction l as [|x rest IH]; intros best; cbn [min_by].
  - left. by split.
  - destruct (Z.ltb_spec (key x) (key best)) as [Hlt|Hge].
    + destruct (IH x) as [[Hd Hall]|(l1 & l2 & Hl & Hk & H1 & H2)].
      * right. exists [], rest. rewrite Hd. repeat split; [done..|constructor|done].
      * right. exists (x :: l1), l2. rewrite Hl at 1. repeat split; [lia| |done].
        constructor; [done|]. done.
    + destruct (IH best) as [[Hd Hall]|(l1 & l2 & Hl & Hk & H1 & H2)].
      * left. split; [done|]. by constructor.
      * right. exists (x :: l1), l2. rewrite Hl at 1. repeat split; [done| |done].
        constructor; [lia | done].
Qed.

Lemma select_default_first_least subs :
  subs <> [] ->
  exists d before after,
    _select_default_subtitle subs = Some d /\
    subs = before ++ d :: after /\
    Forall (fun s => priority d < priority s) before /\
    Forall (fun s => priority d <= priority s) after.
Proof.
  destruct subs as [|s rest]; [done|]. intros _. cbn [_select_default_subtitle].
  destruct (min_by_first_least priority rest s) as [[Hd Hall]|(l1 & l2 & Hl & Hk & H1 & H2)].
  - eexists _, [], rest. split; [reflexivity|]. fold priority. rewrite Hd.
    repeat split; [constructor | done].
  - eexists _, (s :: l1), l2. split; [reflexivity|]. fold priority.
    split; [by rewrite Hl at 1|]. split; [by constructor | done].
Qed.

Lemma fold_left_snoc {A B} (f : A -> B) l : forall init,
  fold_left (fun acc x => acc ++ [f x]) l init = init ++ map f l.
Proof.
  induction l as [|x l IH]; intros init; simpl; [by rewrite app_nil_r|].
  by rewrite IH, <- app_assoc.
Qed.

Lemma add_subtitle_tasks_eq folder name_of subs tasks d :
  _select_default_subtitle subs = Some d ->
  add_subtitle_tasks folder name_of subs tasks =
  tasks ++ mkSubtitleTask (sub_path d) (folder +:+ "/" +:+ name_of d true) true ::
           map (fun sub => mkSubtitleTask (sub_path sub)
                             (folder +:+ "/" +:+ name_of sub false) false) subs.
Proof.
  intros Hd. unfold add_subtitle_tasks. destruct subs as [|s rest]; [done|].
  rewrite Hd, fold_left_snoc, <- app_assoc. reflexivity.
Qed.

(** The priority list ranks the fourteen codes 0 to 13, compares them
    without regard to case, reads a missing code as [und], and puts every
    other code behind all of them. *)
Lemma priority_ranks :
  map _get_language_priority SUBTITLE_LANGUAGE_PRIORITY = seqZ 0 14 /\
  _get_language_priority EmptyString = 13 /\
  _get_language_priority "CHS" = 0 /\
  forall lang, 0 <= _get_language_priority lang <= 13 \/ _get_language_priority lang = 999.
Proof.
  split; [reflexivity|]. split; [reflexivity|]. split; [reflexivity|].
  intros lang. unfold _get_language_priority.
  generalize (if Str.is_empty lang then "und" else Str.lower lang). intros l.
  unfold SUBTITLE_LANGUAGE_PRIORITY. cbn [index_of].
  repeat (destruct (String.eqb _ l); [left; lia|]). right. reflexivity.
Qed.

(** C6, as the code has it.  A TV file whose episode number is positive,
    and every movie file, that has subtitles gets exactly these tasks, in
    this order: one default task for the first subtitle of least
    priority index, named without a language segment, then one task per
    subtitle, named with its language code ([und] if it has none) before
    the extension.  A TV file whose episode number is not positive is
    passed over and gets no task. *)
Theorem subtitle_tasks_default_then_tagged
    storage_config base_folder title season_num year acc cf :
  subtitles cf <> [] ->
  exists d before after,
    _select_default_subtitle (subtitles cf) = Some d /\
    subtitles cf = before ++ d :: after /\
    Forall (fun s => priority d < priority s) before /\
    Forall (fun s => priority d <= priority s) after /\
    (0 < episode cf ->
     let stem := title +:+ ".S" +:+ Py.fmt_02d season_num +:+ ".E" +:+ Py.fmt_02d (episode cf) in
     let folder := base_folder +:+ "/" +:+ Naming.format_season_folder season_num in
     all_subtitle_tasks (tv_file_step storage_config base_folder title season_num acc cf) =
     all_subtitle_tasks acc ++
       mkSubtitleTask (sub_path d) (folder +:+ "/" +:+ stem +:+ sub_ext d) true ::
       map (fun s => mkSubtitleTask (sub_path s)
                       (folder +:+ "/" +:+ stem +:+ "." +:+ lang_or_und s +:+ sub_ext s) false)
           (subtitles cf)) /\
    (episode cf <= 0 ->
     tv_file_step storage_config base_folder title season_num acc cf = acc) /\
    (let stem := match Naming.year_given year with
                 | Some y => Str.replace_char " " "." (Naming.sanitize_filename title)
                               +:+ "." +:+ Py.str_of_int y
                 | None => Str.replace_char " " "." (Naming.sanitize_filename title)
                 end in
     all_subtitle_tasks (movie_file_step storage_config base_folder title year acc cf) =
     all_subtitle_tasks acc ++
       mkSubtitleTask (sub_path d) (base_folder +:+ "/" +:+ stem +:+ sub_ext d) true ::
       map (fun s => mkSubtitleTask (sub_path s)
                       (base_folder +:+ "/" +:+ stem +:+ "." +:+ lang_or_und s +:+ sub_ext s) false)
           (subtitles cf)).
Proof.
  intros Hne.
  destruct (select_default_first_least (subtitles cf) Hne) as (d & before & after & Hd & Hs & Hb & Ha).
  exists d, before, after. repeat split; [done..| | |].
  - intros Hep stem folder. unfold tv_file_step.
    destruct (Z.leb_spec (episode cf) 0); [lia|]. cbn [all_subtitle_tasks].
    rewrite (add_subtitle_tasks_eq _ _ _ _ d Hd). reflexivity.
  - intros Hep. unfold tv_file_step. destruct (Z.leb_spec (episode cf) 0); [done | lia].
  - intros stem. unfold movie_file_step. cbn [all_subtitle_tasks].
    rewrite (add_subtitle_tasks_eq _ _ _ _ d Hd).
    unfold _format_movie_subtitle_name. subst stem.
    destruct (Naming.year_given year); reflexivity.
Qed.

Definition sample_subs : list SubtitleFile :=
  [ mkSubtitleFile "/src/[01].cht.ass" "[01].cht.ass" "cht";
    mkSubtitleFile "/src/[01].chs.ass" "[01].chs.ass" "chs";
    mkSubtitleFile "/src/[01].eng.srt" "[01].eng.srt" "eng" ].

Definition sample_video (ep : Z) : ClassifiedFile :=
  mkClassifiedFile "/src/[01].mkv" "[01].mkv" ep 1 sample_subs.

Lemma subtitle_tasks_default_then_tagged_witness :
  exists d, _select_default_subtitle sample_subs = Some d /\ language d = "chs" /\
    all_subtitle_tasks (tv_file_step ∅ "/out/Show (2009)" "Show" 1 (mkCollected [] []) (sample_video 1)) =
      [ mkSubtitleTask "/src/[01].chs.ass" "/out/Show (2009)/Season 01/Show.S01.E01.ass" true;
        mkSubtitleTask "/src/[01].cht.ass" "/out/Show (2009)/Season 01/Show.S01.E01.cht.ass" false;
        mkSubtitleTask "/src/[01].chs.ass" "/out/Show (2009)/Season 01/Show.S01.E01.chs.ass" false;
        mkSubtitleTask "/src/[01].eng.srt" "/out/Show (2009)/Season 01/Show.S01.E01.eng.srt" false ].
Proof.
  destruct (subtitle_tasks_default_then_tagged ∅ "/out/Show (2009)" "Show" 1 None
              (mkCollected [] []) (sample_video 1)) as (d & b & a & Hd & _ & _ & _ & Htv & _);
    [discriminate|].
  exists d. split; [exact Hd|]. split.
  - vm_compute in Hd. injection Hd as <-. reflexivity.
  - rewrite Htv by reflexivity. vm_compute in Hd. injection Hd as <-. reflexivity.
Defined.

(** The claim fails as it stands: a classified TV file with subtitles but
    with episode number 0 yields no subtitle task at all, so no default
    one either. *)
Lemma subtitle_default_counterexample :
  subtitles (sample_video 0) <> [] /\
  all_subtitle_tasks
    (collect_tv ∅ "/out/Show (2009)" "Show" {[ 1 := [sample_video 0] ]} (mkCollected [] []))
  = [].
Proof. split; [discriminate | reflexivity]. Qed.

End StrmProofs.

(** ** Retrying failed uploads *)

Module RetryProofs.
Import Retry.

Section Facts.
Context {W : Type}.
Implicit Types (source target : StorageService W) (w : W).

(** C9.  With an empty [failed_uploads] the tool answers at once: no
    download, no upload, the stores as they were, no state update, and
    [failed_uploads] is still the empty list afterwards. *)
Theorem retry_on_empty_list_is_noop (source target : option (StorageService W)) w state :
  failed_uploads state = Some [] ->
  retry_failed_uploads (Some state) source target w =
    (Returned ("✅ 没有需要重试的失败任务", no_update), w, []) /\
  state_after state (fst (fst (retry_failed_uploads (Some state) source target w))) = state /\
  failed_uploads
    (state_after state (fst (fst (retry_failed_uploads (Some state) source target w)))) = Some [].
Proof.
  intros Hempty. unfold retry_failed_uploads. rewrite Hempty. simpl.
  split; [reflexivity|]. split; [reflexivity | exact Hempty].
Qed.

Lemma retry_one_still_failed source target sp tp p w log :
  Forall (fun i => is_subtitle i = true) (still_failed p) ->
  Forall (fun i => is_subtitle i = true)
         (still_failed (fst (fst (retry_one source target sp tp p w log)))).
Proof.
  intros Hp. unfold retry_one.
  assert (Hf : forall e, Forall (fun i => is_subtitle i = true)
                           (still_failed (failed_again sp tp e p))).
  { intros e. simpl. apply Forall_app. split; [done|]. by repeat constructor. }
  destruct (get_file_content source sp w) as [[content|e] w1]; [|apply Hf].
  destruct (Py.truthy content) as [text|]; [|apply Hf].
  destruct (put_file_content target tp text w1) as [[[|]|e] w2]; [done|apply Hf..].
Qed.

Lemma retry_loop_skips source target items : forall p w log,
  retry_loop source target items p w log =
  retry_loop source target (filter (fun i => is_subtitle i = true) items) p w log.
Proof.
  induction items as [|item rest IH]; intros p w log; [done|].
  rewrite filter_cons. destruct (decide (is_subtitle item = true)) as [Hs|Hs].
  - cbn [retry_loop]. rewrite Hs. cbn [negb].
    destruct (fu_source_path item) as [sp|]; [|done].
    destruct (fu_target_path item) as [tp|]; [|done].
    destruct (retry_one source target sp tp p w log) as [[p' w'] log']. apply IH.
  - cbn [retry_loop]. destruct (is_subtitle item); [done|]. cbn [negb]. apply IH.
Qed.

Lemma retry_loop_still_failed source target items : forall p w log p' w' log',
  retry_loop source target items p w log = (Returned p', w', log') ->
  Forall (fun i => is_subtitle i = true) (still_failed p) ->
  Forall (fun i => is_subtitle i = true) (still_failed p').
Proof.
  induction items as [|item rest IH]; intros p w log p' w' log'; cbn [retry_loop].
  - by intros [= -> -> ->].
  - destruct (is_subtitle item); cbn [negb]; [|apply IH].
    destruct (fu_source_path item) as [sp|]; [|done].
    destruct (fu_target_path item) as [tp|]; [|done].
    pose proof (retry_one_still_failed source target sp tp p w log) as Hone.
    destruct (retry_one source target sp tp p w log) as [[p1 w1] log1].
    intros Hloop Hp. eapply IH; [exact Hloop|]. by apply Hone.
Qed.

Lemma retry_loop_none_subtitle source target items : forall p w log,
  Forall (fun i => is_subtitle i = false) items ->
  retry_loop source target items p w log = (Returned p, w, log).
Proof.
  induction items as [|item rest IH]; intros p w log Hall; [done|].
  inversion Hall as [|? ? Hi Hrest]; subst. cbn [retry_loop]. rewrite Hi. cbn [negb].
  by apply IH.
Qed.

(** C10.  In a retry pass the entries whose type is not ["subtitle"]
    take no part: the pass does exactly what it does on the subtitle
    entries alone, and the list written back holds subtitle entries only.
    When no entry is a subtitle entry the pass touches no store, reports
    0 successes and 0 failures, and writes the empty list back. *)
Theorem retry_drops_other_entries source target items w :
  items <> [] ->
  (forall p w0 log,
     retry_loop source target items p w0 log =
     retry_loop source target (filter (fun i => is_subtitle i = true) items) p w0 log) /\
  (forall message update w' log,
     retry_failed_uploads (Some (mkAgentState (Some items))) (Some source) (Some target) w
       = (Returned (message, update), w', log) ->
     exists written,
       su_failed_uploads update = Some written /\
       Forall (fun i => fu_type i = Some "subtitle") written) /\
  (Forall (fun i => is_subtitle i = false) items ->
   retry_failed_uploads (Some (mkAgentState (Some items))) (Some source) (Some target) w =
     (Returned (report (len items) (mkProgress 0 0 []), mkStateUpdate (Some [])), w, []) /\
   report (len items) (mkProgress 0 0 []) =
     "## 🔄 重试失败的上传任务" +:+ nl +:+ nl +:+
     "共有 " +:+ Py.str_of_int (len items) +:+ " 个任务需要重试" +:+ nl +:+ nl +:+
     "✅ 重试完成" +:+ nl +:+
     "- 成功: 0" +:+ nl +:+
     "- 仍然失败: 0" +:+ nl +:+ nl +:+
     "🎉 所有任务已成功完成！" +:+ nl /\
   failed_uploads
     (state_after (mkAgentState (Some items))
        (fst (fst (retry_failed_uploads (Some (mkAgentState (Some items)))
                     (Some source) (Some target) w)))) = Some []).
Proof.
  intros Hne. split; [|split].
  - apply retry_loop_skips.
  - intros message update w' log. unfold retry_failed_uploads.
    cbn [failed_uploads default from_option id].
    destruct items as [|i rest]; [done|].
    destruct (retry_loop source target (i :: rest) (mkProgress 0 0 []) w [])
      as [[[p|e] w1] log1] eqn:Hloop; [|intros [=]].
    unfold make_tool_response. intros Heq. injection Heq as <- <- <- <-. exists (still_failed p). split; [done|].
    pose proof (retry_loop_still_failed _ _ _ _ _ _ _ _ _ Hloop (List.Forall_nil _)) as Hall.
    eapply Forall_impl; [exact Hall|]. intros x Hx. unfold is_subtitle in Hx.
    destruct (fu_type x) as [t|]; [|done]. apply String.eqb_eq in Hx. by subst.
  - intros Hall.
    assert (Hrun : retry_failed_uploads (Some (mkAgentState (Some items)))
                     (Some source) (Some target) w =
                   (Returned (report (len items) (mkProgress 0 0 []), mkStateUpdate (Some [])), w, [])).
    { unfold retry_failed_uploads. cbn [failed_uploads default from_option id].
      destruct items as [|i rest]; [done|].
      by rewrite (retry_loop_none_subtitle source target (i :: rest) _ w [] Hall). }
    split; [exact Hrun|]. split; [reflexivity|]. by rewrite Hrun.
Qed.

End Facts.

(** A store for the examples: the paths that can be read, with their
    contents, and the files written so far. *)
Definition shelf : Type := list (string * string).

Definition shelf_service : StorageService shelf :=
  mkStorageService
    (fun path w =>
       (Returned (option_map snd (List.find (fun kv => String.eqb (fst kv) path) w)), w))
    (fun path content w => (Returned true, (path, content) :: w)).

Definition mixed_entries : list FailedUpload :=
  [ mkFailedUpload (Some "/src/a.strm") (Some "/out/a.strm") (Some "strm") (Some "HTTP 403");
    mkFailedUpload (Some "/src/b.ass") (Some "/out/b.ass") None (Some "HTTP 403") ].

Lemma retry_on_empty_list_is_noop_witness :
  retry_failed_uploads (Some (mkAgentState (Some [])))
    (Some shelf_service) (Some shelf_service) [("/src/b.ass", "text")] =
  (Returned ("✅ 没有需要重试的失败任务", no_update), [("/src/b.ass", "text")], []).
Proof.
  apply (retry_on_empty_list_is_noop (Some shelf_service) (Some shelf_service)
           [("/src/b.ass", "text")] (mkAgentState (Some []))).
  reflexivity.
Defined.

Lemma retry_drops_other_entries_witness :
  retry_failed_uploads (Some (mkAgentState (Some mixed_entries)))
    (Some shelf_service) (Some shelf_service) [("/src/b.ass", "text")] =
  (Returned (report 2 (mkProgress 0 0 []), mkStateUpdate (Some [])),
   [("/src/b.ass", "text")], []).
Proof.
  destruct (retry_drops_other_entries shelf_service shelf_service mixed_entries
              [("/src/b.ass", "text")]) as (_ & _ & H); [discriminate|].
  destruct H as (H & _); [repeat constructor|]. exact H.
Defined.

End RetryProofs.

(** ** The Alist client *)

Module AlistProofs.
Import Alist.
Local Open Scope alist_scope.

(** *** Computations that leave the directory cache alone *)

(** [neutral m]: running [m] changes neither the cache nor the base path
    of the client. *)
Definition neutral {A} (m : M A) : Prop :=
  forall s, cache (svc (snd (m s))) = cache (svc s) /\
            base_path (svc (snd (m s))) = base_path (svc s).

Lemma neutral_ret {A} (a : A) : neutral (ret a).
Proof. by intros s. Qed.

Lemma neutral_raise {A} e : neutral (@raise A e).
Proof. by intros s. Qed.

Lemma neutral_bind {A B} (m : M A) (f : A -> M B) :
  neutral m -> (forall a, neutral (f a)) -> neutral (bind m f).
Proof.
  intros Hm Hf s. unfold bind. specialize (Hm s).
  destruct (m s) as [[a|e] s']; simpl in *; [|done].
  destruct (Hf a s') as [H1 H2]. by rewrite H1, H2.
Qed.

Lemma neutral_catch {A} (m : M A) (h : string -> M A) :
  neutral m -> (forall e, neutral (h e)) -> neutral (catch m h).
Proof.
  intros Hm Hh s. unfold catch. specialize (Hm s).
  destruct (m s) as [[a|e] s']; simpl in *; [done|].
  destruct (Hh e s') as [H1 H2]. by rewrite H1, H2.
Qed.

Lemma neutral_emit e : neutral (emit e).
Proof. by intros s. Qed.

Lemma neutral_sleep ms : neutral (sleep ms).
Proof. by intros s. Qed.

Lemma neutral_gate : neutral gate.
Proof. by intros s. Qed.

Lemma neutral_http r : neutral (http r).
Proof. intros s. unfold http. by destruct (pending (world s)) as [|[took resp] rest]. Qed.

Lemma neutral_get_service : neutral get_service.
Proof. by intros s. Qed.

Lemma neutral_clock : neutral clock.
Proof. by intros s. Qed.

Lemma neutral_set_token t : neutral (set_token t).
Proof. by intros s. Qed.

Create HintDb neutral.
#[local] Hint Resolve neutral_ret neutral_raise neutral_emit neutral_sleep neutral_gate
  neutral_http neutral_get_service neutral_clock neutral_set_token : neutral.

Ltac neutral_step :=
  first
    [ solve [auto with neutral]
    | match goal with
      | |- neutral (bind _ _) => apply neutral_bind; [|intros ?]
      | |- neutral (catch _ _) => apply neutral_catch; [|intros ?]
      end
    | match goal with
      | |- neutral (if ?c then _ else _) => destruct c
      | |- neutral (match ?x with _ => _ end) => destruct x
      end ].

Ltac neutral_auto := repeat neutral_step.

Lemma neutral_post r : neutral (post r).
Proof. unfold post. neutral_auto. Qed.

Lemma neutral_json body : neutral (json body).
Proof. unfold json. neutral_auto. Qed.

#[local] Hint Resolve neutral_post neutral_json : neutral.

Lemma neutral_login : neutral _login_sync.
Proof. unfold _login_sync. neutral_auto. Qed.

#[local] Hint Resolve neutral_login : neutral.

Lemma neutral_ensure_login : neutral ensure_login.
Proof. unfold ensure_login. neutral_auto. Qed.

Lemma neutral_full_path path : neutral (_full_path path).
Proof. unfold _full_path. neutral_auto. Qed.

Lemma neutral_answered r codes : neutral (answered r codes).
Proof. unfold answered. neutral_auto. Qed.

#[local] Hint Resolve neutral_ensure_login neutral_full_path neutral_answered : neutral.

Lemma neutral_wait_copied rounds path : neutral (wait_copied rounds path).
Proof. induction rounds as [|n IH]; cbn [wait_copied]; neutral_auto. Qed.

#[local] Hint Resolve neutral_wait_copied : neutral.

Lemma neutral_move_file src dst : neutral (move_file src dst).
Proof. unfold move_file. neutral_auto. Qed.

Lemma neutral_copy_file src dst : neutral (copy_file src dst).
Proof. unfold copy_file. neutral_auto. Qed.

Lemma neutral_delete_file path : neutral (delete_file path).
Proof. unfold delete_file. neutral_auto. Qed.

Lemma neutral_create_directory path : neutral (create_directory path).
Proof. unfold create_directory. neutral_auto. Qed.

Lemma neutral_put_file_content path content : neutral (put_file_content path content).
Proof. unfold put_file_content. neutral_auto. Qed.

(** *** Refreshing a directory, and listing a cached one *)

Lemma cache_find_remove key l : cache_find key (cache_remove key l) = None.
Proof.
  induction l as [|[k v] l IH]; [done|]. unfold cache_remove in *. rewrite filter_cons.
  cbn [fst]. destruct (String.eqb k key) eqn:E; simpl; [done|]. by rewrite E.
Qed.

(** [ends m s Q]: the outcome and the final state of running [m] from
    [s] satisfy [Q]. *)
Inductive ends {A} (m : M A) (s : St) (Q : outcome A -> St -> Prop) : Prop :=
| ends_intro : Q (fst (m s)) (snd (m s)) -> ends m s Q.

Lemma ends_elim {A} (m : M A) s Q : ends m s Q -> Q (fst (m s)) (snd (m s)).
Proof. by intros []. Qed.

Lemma ends_bind {A B} (m : M A) (f : A -> M B) s Q :
  ends m s (fun r s' => match r with
                        | Returned a => ends (f a) s' Q
                        | Raised e => Q (Raised e) s'
                        end) ->
  ends (bind m f) s Q.
Proof.
  intros [H]. constructor. unfold bind. destruct (m s) as [[a|e] s']; [|done].
  by apply ends_elim.
Qed.

Lemma ends_catch {A} (m : M A) (h : string -> M A) s Q :
  ends m s (fun r s' => match r with
                        | Returned a => Q (Returned a) s'
                        | Raised e => ends (h e) s' Q
                        end) ->
  ends (catch m h) s Q.
Proof.
  intros [H]. constructor. unfold catch. destruct (m s) as [[a|e] s']; [done|].
  by apply ends_elim.
Qed.

Lemma ends_neutral {A} (m : M A) s (Q : outcome A -> St -> Prop) :
  neutral m ->
  (forall r s', cache (svc s') = cache (svc s) ->
                base_path (svc s') = base_path (svc s) -> Q r s') ->
  ends m s Q.
Proof. intros Hm HQ. constructor. destruct (Hm s). by apply HQ. Qed.

Lemma ends_post r s (Q : outcome (Z * option Body) -> St -> Prop) :
  (forall out s', svc s' = svc s -> log s' = log s ++ [EvHttp r] -> Q out s') ->
  ends (post r) s Q.
Proof.
  intros HQ. constructor. unfold post, bind, http.
  destruct (pending (world s)) as [|[took [e|status body]] rest]; by apply HQ.
Qed.

Lemma ends_ret {A} (a : A) s (Q : outcome A -> St -> Prop) :
  Q (Returned a) s -> ends (ret a) s Q.
Proof. by constructor. Qed.

Lemma ends_raise {A} e s (Q : outcome A -> St -> Prop) :
  Q (Raised e) s -> ends (raise e) s Q.
Proof. by constructor. Qed.

Lemma ends_get_service s (Q : outcome Service -> St -> Prop) :
  Q (Returned (svc s)) s -> ends get_service s Q.
Proof. by constructor. Qed.

Lemma ends_clock s (Q : outcome Z -> St -> Prop) :
  Q (Returned (now (world s))) s -> ends clock s Q.
Proof. by constructor. Qed.

Lemma ends_set_cache c s (Q : outcome unit -> St -> Prop) :
  Q (Returned tt)
    (mkSt (mkService (url (svc s)) (username (svc s)) (password (svc s))
                     (base_path (svc s)) (token (svc s)) c)
          (world s) (log s)) ->
  ends (set_cache c) s Q.
Proof. by constructor. Qed.

(** Run the next primitive of a sequence. *)
Ltac step :=
  first [ apply ends_bind | idtac ];
  first [ apply ends_ret | apply ends_raise | apply ends_get_service
        | apply ends_clock | apply ends_set_cache ];
  cbv beta iota.

(** A refresh that succeeds asks the server for the listing with
    [refresh=true] and removes the entry of the directory; one that fails
    leaves the cache as it is. *)
Lemma refresh_directory_cache path s :
  ends (refresh_directory_async path) s (fun r s' =>
    match r with
    | Returned true =>
        cache (svc s') =
          cache_invalidate (cache (svc s))
            (cache_key_of (full_path_of (base_path (svc s)) path)) /\
        last (log s') =
          Some (EvHttp (FsList (full_path_of (base_path (svc s)) path) true 1 1))
    | _ => cache (svc s') = cache (svc s)
    end).
Proof.
  unfold refresh_directory_async. step.
  apply ends_bind. apply ends_neutral.
  { destruct (Py.truthy (token (svc s))); auto with neutral. }
  intros [logged_in|e] s1 Hc Hb; [|done].
  destruct logged_in; cbn [negb]; [|by step].
  apply ends_bind. unfold _full_path. step. step. rewrite Hb.
  apply ends_catch, ends_bind, ends_post.
  intros [[status body]|e] s2 Hsvc Hlog; [|step; by rewrite Hsvc].
  destruct (status =? 200); [|step; by rewrite Hsvc].
  apply ends_bind. destruct body as [data|]; [|step; step; by rewrite Hsvc].
  step. destruct (code_is data 200); [|step; by rewrite Hsvc].
  step. step. step. cbn [svc cache log].
  rewrite Hsvc, Hc, Hlog. split; [done | by rewrite last_snoc].
Qed.

(** A listing that is in the cache and not older than the TTL is
    returned without a request. *)
Lemma list_directory_cached path s listing stamp :
  Py.truthy (token (svc s)) <> None ->
  cache_find (cache_key_of (full_path_of (base_path (svc s)) path)) (entries (cache (svc s)))
    = Some (listing, stamp) ->
  now (world s) - stamp <= ttl (cache (svc s)) ->
  ends (list_directory path) s (fun r s' =>
    r = Returned listing /\ log s' = log s /\ world s' = world s).
Proof.
  intros Htok Hfind Hfresh. unfold list_directory.
  apply ends_bind. unfold ensure_login. step.
  destruct (Py.truthy (token (svc s))); [|done]. step.
  apply ends_bind. unfold _full_path. step. step. step. step.
  unfold cache_get. rewrite Hfind.
  destruct (Z.ltb_spec (ttl (cache (svc s))) (now (world s) - stamp)); [lia|].
  step. step. done.
Qed.

(** C4, as the code has it.  [move_file], [copy_file], [delete_file],
    [create_directory] and [put_file_content] never touch the directory
    cache, whatever the server answers; only a refresh that succeeds
    removes the entry [list:<path>] of the refreshed directory, after
    asking the server with [refresh=true].  So a directory that was
    listed less than the TTL ago is still answered from the cache, with
    no request, after any of the five operations. *)
Theorem only_refresh_evicts_cache s :
  (forall src dst, cache (svc (snd (move_file src dst s))) = cache (svc s)) /\
  (forall src dst, cache (svc (snd (copy_file src dst s))) = cache (svc s)) /\
  (forall path, cache (svc (snd (delete_file path s))) = cache (svc s)) /\
  (forall path, cache (svc (snd (create_directory path s))) = cache (svc s)) /\
  (forall path content, cache (svc (snd (put_file_content path content s))) = cache (svc s)) /\
  (forall path,
     let key := cache_key_of (full_path_of (base_path (svc s)) path) in
     let r := refresh_directory_async path s in
     match fst r with
     | Returned true =>
         cache (svc (snd r)) = cache_invalidate (cache (svc s)) key /\
         cache_find key (entries (cache (svc (snd r)))) = None /\
         last (log (snd r)) = Some (EvHttp (FsList (full_path_of (base_path (svc s)) path) true 1 1))
     | _ => cache (svc (snd r)) = cache (svc s)
     end) /\
  (forall path listing stamp,
     Py.truthy (token (svc s)) <> None ->
     cache_find (cache_key_of (full_path_of (base_path (svc s)) path)) (entries (cache (svc s)))
       = Some (listing, stamp) ->
     now (world s) - stamp <= ttl (cache (svc s)) ->
     fst (list_directory path s) = Returned listing /\
     log (snd (list_directory path s)) = log s).
Proof.
  split; [intros; apply neutral_move_file|].
  split; [intros; apply neutral_copy_file|].
  split; [intros; apply neutral_delete_file|].
  split; [intros; apply neutral_create_directory|].
  split; [intros; apply neutral_put_file_content|].
  split.
  - intros path key r. pose proof (ends_elim _ _ _ (refresh_directory_cache path s)) as H.
    cbv beta in H. fold key in H. fold r in H.
    destruct (fst r) as [[|]|]; [|done..].
    destruct H as [H1 H2]. split; [done|]. split; [|done].
    rewrite H1. apply cache_find_remove.
  - intros path listing stamp Htok Hfind Hfresh.
    destruct (ends_elim _ _ _ (list_directory_cached path s listing stamp Htok Hfind Hfresh))
      as (H1 & H2 & _).
    by split.
Qed.

(** *** Counting the list requests of a listing *)

Definition is_list_request (e : Event) : bool :=
  match e with
  | EvHttp (FsList _ _ _ _) => true
  | _ => false
  end.

Definition list_requests (evs : list Event) : nat :=
  length (List.filter is_list_request evs).

Lemma list_requests_snoc evs e :
  list_requests (evs ++ [e]) = (list_requests evs + if is_list_request e then 1 else 0)%nat.
Proof.
  unfold list_requests. rewrite List.filter_app, length_app. simpl.
  by destruct (is_list_request e).
Qed.

(** [bounded k m]: running [m] sends at most [k] list requests. *)
Definition bounded {A} (k : nat) (m : M A) : Prop :=
  forall s, (list_requests (log (snd (m s))) <= list_requests (log s) + k)%nat.

Lemma bounded_weaken {A} j k (m : M A) : (j <= k)%nat -> bounded j m -> bounded k m.
Proof. intros Hjk Hm s. specialize (Hm s). lia. Qed.

Lemma bounded_ret {A} (a : A) : bounded 0 (ret a).
Proof. intros s. simpl. lia. Qed.

Lemma bounded_raise {A} e : bounded 0 (@raise A e).
Proof. intros s. simpl. lia. Qed.

Lemma bounded_bind {A B} j k (m : M A) (f : A -> M B) :
  bounded j m -> (forall a, bounded k (f a)) -> bounded (j + k) (bind m f).
Proof.
  intros Hm Hf s. unfold bind. specialize (Hm s).
  destruct (m s) as [[a|e] s']; simpl in *; [|lia].
  specialize (Hf a s'). lia.
Qed.

Lemma bounded_catch {A} j k (m : M A) (h : string -> M A) :
  bounded j m -> (forall e, bounded k (h e)) -> bounded (j + k) (catch m h).
Proof.
  intros Hm Hh s. unfold catch. specialize (Hm s).
  destruct (m s) as [[a|e] s']; simpl in *; [lia|].
  specialize (Hh e s'). lia.
Qed.

Lemma bounded_sleep ms : bounded 0 (sleep ms).
Proof. intros s. simpl. rewrite list_requests_snoc. simpl. lia. Qed.

Lemma bounded_gate : bounded 0 gate.
Proof. intros s. simpl. rewrite list_requests_snoc. simpl. lia. Qed.

Lemma bounded_http r : bounded (if is_list_request (EvHttp r) then 1 else 0) (http r).
Proof.
  intros s. unfold http.
  destruct (pending (world s)) as [|[took resp] rest]; cbn [snd log];
    rewrite list_requests_snoc; apply Nat.le_refl.
Qed.

Lemma bounded_get_service : bounded 0 get_service.
Proof. intros s. simpl. lia. Qed.

Lemma bounded_clock : bounded 0 clock.
Proof. intros s. simpl. lia. Qed.

Lemma bounded_set_token t : bounded 0 (set_token t).
Proof. intros s. simpl. lia. Qed.

Lemma bounded_set_cache c : bounded 0 (set_cache c).
Proof. intros s. simpl. lia. Qed.

Create HintDb bounded.
#[local] Hint Resolve bounded_ret bounded_raise bounded_sleep bounded_gate
  bounded_get_service bounded_clock bounded_set_token bounded_set_cache : bounded.

(** Steps for a computation that sends no list request at all. *)
Ltac quiet_step :=
  first
    [ solve [auto with bounded]
    | match goal with
      | |- bounded _ (bind _ _) => apply (bounded_bind 0 0); [|intros ?]
      | |- bounded _ (catch _ _) => apply (bounded_catch 0 0); [|intros ?]
      end
    | match goal with
      | |- bounded _ (if ?c then _ else _) => destruct c
      | |- bounded _ (match ?x with _ => _ end) => destruct x
      end ].

Ltac quiet := repeat quiet_step.

Lemma bounded_post r : bounded (if is_list_request (EvHttp r) then 1 else 0) (post r).
Proof.
  unfold post.
  replace (if is_list_request (EvHttp r) then 1 else 0)%nat
    with ((if is_list_request (EvHttp r) then 1 else 0) + 0)%nat by lia.
  apply bounded_bind; [apply bounded_http|]. intros resp. quiet.
Qed.

Lemma bounded_json body : bounded 0 (json body).
Proof. unfold json. quiet. Qed.

#[local] Hint Resolve bounded_json : bounded.

Lemma bounded_login : bounded 0 _login_sync.
Proof.
  unfold _login_sync. apply (bounded_catch 0 0); [|intros; quiet].
  apply (bounded_bind 0 0); [quiet|]. intros sv.
  apply (bounded_bind 0 0); [apply (bounded_post (ApiLogin _ _))|]. intros r. quiet.
Qed.

#[local] Hint Resolve bounded_login : bounded.

Lemma bounded_ensure_login : bounded 0 ensure_login.
Proof. unfold ensure_login. quiet. Qed.

Lemma bounded_full_path path : bounded 0 (_full_path path).
Proof. unfold _full_path. quiet. Qed.

Lemma bounded_msg m : bounded 0 (msg_lower_has_too_many m).
Proof. unfold msg_lower_has_too_many. quiet. Qed.

#[local] Hint Resolve bounded_ensure_login bounded_full_path bounded_msg : bounded.

(** One attempt sends exactly one list request (and perhaps a login). *)
Lemma bounded_list_attempt full_path : bounded 1 (list_attempt full_path).
Proof.
  unfold list_attempt. apply (bounded_catch 1 0); [|intros; quiet].
  apply (bounded_bind 0 1); [quiet|]. intros _.
  apply (bounded_bind 1 0); [apply (bounded_post (FsList _ _ _ _))|]. intros r. quiet.
Qed.

Lemma bounded_list_attempts full_path attempts : forall last_error,
  bounded (length attempts) (list_attempts full_path attempts last_error).
Proof.
  induction attempts as [|attempt rest IH]; intros last_error; cbn [list_attempts length].
  - quiet.
  - apply (bounded_bind 1 (length rest)); [apply bounded_list_attempt|].
    intros [result| |err].
    + apply (bounded_weaken 0); [lia | quiet].
    + apply IH.
    + apply (bounded_bind 0 (length rest)); [quiet|]. intros _. apply IH.
Qed.

Lemma bounded_list_directory path : bounded 3 (list_directory path).
Proof.
  unfold list_directory.
  apply (bounded_bind 0 3); [quiet|]. intros _.
  apply (bounded_bind 0 3); [quiet|]. intros full_path.
  apply (bounded_bind 0 3); [quiet|]. intros sv.
  apply (bounded_bind 0 3); [quiet|]. intros t.
  destruct (cache_get (cache sv) (cache_key_of full_path) t) as [cached c].
  apply (bounded_bind 0 3); [quiet|]. intros _.
  destruct cached as [result|].
  - apply (bounded_weaken 0); [lia | quiet].
  - apply (bounded_list_attempts full_path (Py.range 0 MAX_RETRIES) None).
Qed.

(** *** What one attempt does with the answer it gets *)

(** The four ways [list_directory] reads an answer to its list request. *)
Inductive Verdict :=
| Listing                          (* status 200, code 200 *)
| Expired                          (* status 200, code 401 *)
| Limited                          (* HTTP 429, code 429, or a message with "too many" *)
| Broken (error : option string).  (* anything else, with the text kept as [last_error] *)

Definition verdict (resp : Response) : Verdict :=
  match resp with
  | TransportError e => Broken (Some e)
  | Http status body =>
      if status =? 200 then
        match body with
        | None => Broken (Some "Expecting value: line 1 column 1 (char 0)")
        | Some data =>
            if code_is data 200 then Listing
            else if code_is data 401 then Expired
            else if code_is data 429 then Limited
            else match message data with
                 | MsgStr m =>
                     if Str.contains "too many" (Str.lower m) then Limited
                     else Broken (Some m)
                 | MsgAbsent => Broken (Some "未知错误")
                 | MsgNull => Broken (Some "'NoneType' object has no attribute 'lower'")
                 end
        end
      else if status =? 429 then Limited
      else Broken (Some ("HTTP " +:+ Py.str_of_int status))
  end.

(** The state once the gate has been passed and the list request for
    [full_path] has been answered after [took] milliseconds, with [more]
    answers left. *)
Definition answered_state (s : St) (full_path : string) (took : Z)
    (more : list (Z * Response)) : St :=
  mkSt (svc s) (mkWorld (now (world s) + took) more)
       ((log s ++ [EvGate]) ++ [EvHttp (FsList full_path false 1 0)]).

Definition slept (ms : Z) (s : St) : St :=
  mkSt (svc s) (mkWorld (now (world s) + ms) (pending (world s))) (log s ++ [EvSleep ms]).

Ltac run_attempt Hp :=
  unfold list_attempt, gate, emit, post, http, answered_state, slept;
  unfold catch, bind;
  cbn [svc world log pending now fst snd]; rewrite Hp;
  cbn [svc world log pending now fst snd ret raise].

Lemma attempt_limited full_path s took resp more :
  pending (world s) = (took, resp) :: more ->
  verdict resp = Limited ->
  list_attempt full_path s =
    (Returned Continue, slept DEFAULT_RATE_LIMIT_DELAY (answered_state s full_path took more)).
Proof.
  intros Hp Hv. run_attempt Hp.
  destruct resp as [e|status body]; [done|]. cbn [verdict] in Hv. cbn [ret raise].
  destruct (status =? 200).
  - destruct body as [data|]; [|done]. cbn [json ret].
    destruct (code_is data 200); [done|]. destruct (code_is data 401); [done|].
    destruct (code_is data 429); [reflexivity|].
    destruct (message data) as [| |m]; [done..|]. cbn [msg_lower_has_too_many ret].
    destruct (Str.contains "too many" (Str.lower m)); [reflexivity | done].
  - destruct (status =? 429); [reflexivity | done].
Qed.

Lemma attempt_broken full_path s took resp more error :
  pending (world s) = (took, resp) :: more ->
  verdict resp = Broken error ->
  list_attempt full_path s = (Returned (Failed error), answered_state s full_path took more).
Proof.
  intros Hp Hv. run_attempt Hp.
  destruct resp as [e|status body]; cbn [verdict] in Hv; [by injection Hv as <-|].
  cbn [ret raise]. destruct (status =? 200).
  - destruct body as [data|]; cbn [json ret raise]; [|by injection Hv as <-].
    destruct (code_is data 200); [done|]. destruct (code_is data 401); [done|].
    destruct (code_is data 429); [done|].
    destruct (message data) as [| |m]; cbn [msg_lower_has_too_many msg_or_unknown ret raise];
      [by injection Hv as <-..|].
    destruct (Str.contains "too many" (Str.lower m)); [done | by injection Hv as <-].
  - destruct (status =? 429); [done | by injection Hv as <-].
Qed.

(** An expired token followed by a login that succeeds: the new token is
    stored and the attempt ends with [continue]. *)
Lemma attempt_expired_relogin full_path s took resp took' status' granted more :
  pending (world s) = (took, resp) :: (took', Http status' (Some granted)) :: more ->
  verdict resp = Expired ->
  status' = 200 -> code_is granted 200 = true ->
  list_attempt full_path s =
    (Returned Continue,
     mkSt (mkService (url (svc s)) (username (svc s)) (password (svc s))
                     (base_path (svc s)) (data_token granted) (cache (svc s)))
          (mkWorld (now (world s) + took + took') more)
          (((log s ++ [EvGate]) ++ [EvHttp (FsList full_path false 1 0)])
             ++ [EvHttp (ApiLogin (username (svc s)) (password (svc s)))])).
Proof.
  intros Hp Hv -> Hg. run_attempt Hp.
  destruct resp as [e|status body]; [done|]. cbn [verdict] in Hv. cbn [ret raise].
  destruct (status =? 200); [|by destruct (status =? 429)].
  destruct body as [data|]; [|done]. cbn [json ret].
  destruct (code_is data 200); [done|]. destruct (code_is data 401) eqn:E401.
  - unfold set_token, _login_sync, catch, bind, get_service, post, bind, http, json, ret.
    cbn [svc world log pending now fst snd username password url base_path cache token].
    rewrite Hg. reflexivity.
  - destruct (code_is data 429); [done|]. destruct (message data) as [| |m]; [done..|].
    by destruct (Str.contains "too many" (Str.lower m)).
Qed.

(** C5, as the code has it.  A listing sends at most three list
    requests, whatever the server answers.  An answer that signals rate
    limiting (HTTP 429, code 429, or a message containing "too many" in
    any case) is followed by a sleep of 5 s and the next attempt; any
    other failure by a sleep of 1 s times the number of the attempt
    (none behind the third) and the next attempt.  An answer with code
    401 is followed by a login; when the login succeeds the next attempt
    starts at once with the new token -- and it is one of the three: the
    loop goes on with the attempts that are left. *)
Theorem list_directory_retry_policy full_path attempt rest last_error s took resp more :
  pending (world s) = (took, resp) :: more ->
  Py.range 0 MAX_RETRIES = [0; 1; 2] /\
  (forall path s0,
     (list_requests (log (snd (list_directory path s0))) <= list_requests (log s0) + 3)%nat) /\
  (verdict resp = Limited ->
   list_attempts full_path (attempt :: rest) last_error s =
   list_attempts full_path rest last_error
     (slept 5000 (answered_state s full_path took more))) /\
  (forall error, verdict resp = Broken error ->
   list_attempts full_path (attempt :: rest) last_error s =
   list_attempts full_path rest error
     (if attempt <? 2 then slept (1000 * (attempt + 1)) (answered_state s full_path took more)
      else answered_state s full_path took more)) /\
  (forall took' granted more',
     more = (took', Http 200 (Some granted)) :: more' ->
     verdict resp = Expired -> code_is granted 200 = true ->
     list_attempts full_path (attempt :: rest) last_error s =
     list_attempts full_path rest last_error
       (mkSt (mkService (url (svc s)) (username (svc s)) (password (svc s))
                        (base_path (svc s)) (data_token granted) (cache (svc s)))
             (mkWorld (now (world s) + took + took') more')
             (((log s ++ [EvGate]) ++ [EvHttp (FsList full_path false 1 0)])
                ++ [EvHttp (ApiLogin (username (svc s)) (password (svc s)))]))).
Proof.
  intros Hp. split; [reflexivity|]. split; [intros; apply bounded_list_directory|].
  split; [|split].
  - intros Hv. cbn [list_attempts]. unfold bind at 1.
    by rewrite (attempt_limited full_path s took resp more Hp Hv).
  - intros error Hv. cbn [list_attempts]. unfold bind at 1.
    rewrite (attempt_broken full_path s took resp more error Hp Hv).
    change (MAX_RETRIES - 1) with 2. change RETRY_DELAY with 1000.
    by destruct (attempt <? 2).
  - intros took' granted more' -> Hv Hg. cbn [list_attempts]. unfold bind at 1.
    by rewrite (attempt_expired_relogin full_path s took resp took' 200 granted more' Hp Hv eq_refl Hg).
Qed.

(** *** Scripted servers for the examples *)

Definition nas : Service :=
  mkService "http://nas:5244" "user" "secret" "/" (Some "token-1")
            (mkLRUCache DEFAULT_CACHE_SIZE DEFAULT_CACHE_TTL []).

Definition ok_body (items : list Item) : Response :=
  Http 200 (Some (mkBody (Some 200) (MsgStr "success") (Some "token-2") items)).

Definition code_body (c : Z) (m : string) : Response :=
  Http 200 (Some (mkBody (Some c) (MsgStr m) None [])).

(** Every answer takes 10 ms. *)
Definition script (answers : list Response) : list (Z * Response) :=
  map (fun r => (10, r)) answers.

Lemma list_directory_retry_policy_witness :
  list_attempts "/x" [0; 1; 2] None
    (start nas 0 (script [Http 429 None; ok_body [mkItem "a.mkv" false]])) =
  list_attempts "/x" [1; 2] None
    (mkSt nas (mkWorld 5010 (script [ok_body [mkItem "a.mkv" false]]))
          [EvGate; EvHttp (FsList "/x" false 1 0); EvSleep 5000]).
Proof.
  destruct (list_directory_retry_policy "/x" 0 [1; 2] None
              (start nas 0 (script [Http 429 None; ok_body [mkItem "a.mkv" false]]))
              10 (Http 429 None) (script [ok_body [mkItem "a.mkv" false]]))
    as (_ & _ & H & _); [reflexivity|].
  rewrite H by reflexivity. reflexivity.
Defined.

(** The claim fails as it stands: after an answer with code 401 and a
    login that succeeds, two more failures exhaust the loop.  The listing
    raises after three list requests and the fourth answer of the server,
    a good listing, is never asked for. *)
Lemma relogin_counts_counterexample :
  let r := list_directory "/x"
             (start nas 0 (script [code_body 401 "token is expired"; ok_body [];
                                   Http 500 None; Http 500 None;
                                   ok_body [mkItem "a.mkv" false]])) in
  fst r = Raised "列出目录失败（重试3次后）: HTTP 500" /\
  list_requests (log (snd r)) = 3%nat /\
  log (snd r) =
    [EvGate; EvHttp (FsList "/x" false 1 0); EvHttp (ApiLogin "user" "secret");
     EvGate; EvHttp (FsList "/x" false 1 0); EvSleep 2000;
     EvGate; EvHttp (FsList "/x" false 1 0)] /\
  pending (world (snd r)) = script [ok_body [mkItem "a.mkv" false]].
Proof. repeat split. Qed.

Lemma only_refresh_evicts_cache_witness :
  let s1 := snd (list_directory "/x" (start nas 0 (script [ok_body [mkItem "a.mkv" false]]))) in
  fst (list_directory "/x" s1) = Returned [mkFileInfo "/x/a.mkv" "a.mkv" false] /\
  log (snd (list_directory "/x" s1)) = log s1.
Proof.
  intros s1.
  destruct (only_refresh_evicts_cache s1) as (_ & _ & _ & _ & _ & _ & H).
  apply (H "/x" [mkFileInfo "/x/a.mkv" "a.mkv" false] 10); [discriminate | reflexivity |].
  vm_compute. discriminate.
Defined.

(** The claim fails as it stands: a directory is listed, a file is moved
    out of it with success, and the directory is listed again 30 ms
    later.  The entry [list:/x] is still in the cache and the second
    listing answers from it with the file that is gone; the server, which
    would now answer with an empty directory, is not asked. *)
Lemma move_keeps_stale_listing_counterexample :
  let s0 := start nas 0 (script [ok_body [mkItem "a.mkv" false];
                                 code_body 200 "success"; code_body 200 "success";
                                 ok_body []]) in
  let listed := list_directory "/x" s0 in
  let moved := move_file "/x/a.mkv" "/y/b.mkv" (snd listed) in
  let again := list_directory "/x" (snd moved) in
  fst listed = Returned [mkFileInfo "/x/a.mkv" "a.mkv" false] /\
  fst moved = Returned true /\
  cache_find "list:/x" (entries (cache (svc (snd moved))))
    = Some ([mkFileInfo "/x/a.mkv" "a.mkv" false], 10) /\
  fst again = Returned [mkFileInfo "/x/a.mkv" "a.mkv" false] /\
  now (world (snd again)) - 10 < DEFAULT_CACHE_TTL /\
  log (snd again) =
    [EvGate; EvHttp (FsList "/x" false 1 0);
     EvGate; EvHttp (FsMove "/x" "/y" ["a.mkv"]); EvHttp (FsRename "/y/a.mkv" "b.mkv")] /\
  pending (world (snd again)) = script [ok_body []].
Proof. repeat split. Qed.

End AlistProofs.

(** ** The episode resolver, continued: both indexes, numbering, cache *)

Module MappingFacts.
Import TmdbMapping MappingCache MappingProofs.

(** The episodes the collaborator lists for a season; a failed fetch and
    a missing list count as no episode. *)
Definition fetched (svc : TMDBService) (id s : Z) : list Episode :=
  match get_tv_season svc id s with
  | Some info => match episodes info with Some eps => eps | None => [] end
  | None => []
  end.

(** Number of episodes listed for the [n] seasons from [s] on. *)
Definition listed (svc : TMDBService) (id s : Z) (n : Z) : Z :=
  foldr Z.add 0 ((fun t => Z.of_nat (length (fetched svc id t))) <$> seqZ s n).

(** Episodes listed for the seasons before [s]. *)
Definition episodes_before (svc : TMDBService) (id s : Z) : Z :=
  listed svc id 1 (s - 1).

(** The row the loop writes for the episode at position [i] of season [s]
    when [c] episodes were entered before it. *)
Definition row_of (s : Z) (i : nat) (ep : Episode) (c : Z) : EpisodeInfo :=
  mkEpisodeInfo s (Z.of_nat i + 1)
    (match episode_number ep with Some n => n | None => Z.of_nat i + 1 end)
    (c + Z.of_nat i + 1).

Definition row_lt (E E' : EpisodeInfo) : Prop :=
  season E < season E' \/
  (season E = season E' /\ episode_in_season E < episode_in_season E').

(** The season index holds only rows of the cumulative index, each under
    its own key, and the cumulative numbers grow with (season, position). *)
Definition indexed (lo s i : Z) (b : Builder) : Prop :=
  filling s i b /\
  (forall p E, b_by_season_episode b !! p = Some E ->
     p = (season E, episode_in_season E) /\
     b_by_cumulative b !! cumulative E = Some E /\
     lo <= season E /\ 1 <= episode_in_season E) /\
  (forall k k' E E', b_by_cumulative b !! k = Some E ->
     b_by_cumulative b !! k' = Some E' -> k < k' -> row_lt E E').

Lemma indexed_empty lo s : indexed lo s 0 (mkBuilder ∅ ∅ 0).
Proof.
  split; [apply filling_empty|]. split.
  - intros p E. simpl. rewrite lookup_empty. discriminate.
  - intros k k' E E'. simpl. rewrite lookup_empty. discriminate.
Qed.

Lemma episode_step_indexed lo s i ep b :
  lo <= s -> 0 <= i ->
  indexed lo s i b -> indexed lo s (i + 1) (episode_step s i ep b).
Proof.
  intros Hlo Hi (Hf & Hse & Hord).
  split; [by apply episode_step_filling|].
  destruct Hf as (Hc & Hdom & Hrows). unfold episode_step. split.
  - intros p E. simpl. destruct (decide ((s, i + 1) = p)) as [<-|Hne].
    + rewrite lookup_insert_eq. intros [= <-]. simpl.
      split; [done|]. split; [apply lookup_insert_eq | lia].
    + rewrite lookup_insert_ne by done. intros HE.
      destruct (Hse p E HE) as (Hp & Hcum & Hb).
      split; [done|]. split; [|done].
      rewrite lookup_insert_ne; [done|].
      assert (is_Some (b_by_cumulative b !! cumulative E)) as Hin by eauto.
      apply Hdom in Hin. lia.
  - intros k k' E E'. simpl.
    destruct (decide (b_cumulative b + 1 = k)) as [<-|Hk];
      destruct (decide (b_cumulative b + 1 = k')) as [<-|Hk'].
    + lia.
    + rewrite lookup_insert_eq, lookup_insert_ne by done. intros _ HE' Hlt.
      assert (is_Some (b_by_cumulative b !! k')) as Hin by eauto.
      apply Hdom in Hin. lia.
    + rewrite lookup_insert_eq, lookup_insert_ne by done. intros HE [= <-] _.
      destruct (Hrows k E HE) as (_ & _ & Hs). unfold row_lt. simpl. lia.
    + rewrite !lookup_insert_ne by done. apply Hord.
Qed.

Lemma episodes_loop_indexed lo s eps : forall i b,
  lo <= s -> 0 <= i ->
  indexed lo s i b ->
  indexed lo s (i + Z.of_nat (length eps)) (episodes_loop s i eps b).
Proof.
  induction eps as [|ep eps IH]; intros i b Hlo Hi Hb; cbn [episodes_loop length].
  - by rewrite Z.add_0_r.
  - rewrite Nat2Z.inj_succ.
    replace (i + Z.succ (Z.of_nat (length eps)))
      with ((i + 1) + Z.of_nat (length eps)) by lia.
    apply IH; [done | lia |]. by apply episode_step_indexed.
Qed.

Lemma indexed_next lo s i b : indexed lo s i b -> indexed lo (s + 1) 0 b.
Proof.
  intros (Hf & Hse & Hord). split; [by eapply filling_next|]. done.
Qed.

Lemma season_step_indexed lo svc id s b :
  lo <= s -> indexed lo s 0 b -> indexed lo (s + 1) 0 (season_step svc id b s).
Proof.
  intros Hlo Hb. unfold season_step.
  destruct (get_tv_season svc id s) as [info|]; [|by eapply indexed_next].
  destruct (episodes info) as [eps|]; [|by eapply indexed_next].
  eapply indexed_next. by apply episodes_loop_indexed.
Qed.

Lemma seasons_fold_indexed lo svc id (n : nat) : forall s b,
  lo <= s -> indexed lo s 0 b ->
  indexed lo (s + Z.of_nat n) 0 (fold_left (season_step svc id) (seqZ s (Z.of_nat n)) b).
Proof.
  induction n as [|n IH]; intros s b Hlo Hb.
  - simpl. by rewrite Z.add_0_r.
  - rewrite seqZ_cons by lia. simpl fold_left.
    replace (Z.pred (Z.of_nat (S n))) with (Z.of_nat n) by lia.
    replace (s + Z.of_nat (S n)) with (Z.succ s + Z.of_nat n) by lia.
    apply IH; [lia|]. replace (Z.succ s) with (s + 1) by lia.
    by apply season_step_indexed.
Qed.

Lemma range_fold_indexed svc id n :
  indexed 1 (1 + Z.max 0 n) 0
    (fold_left (season_step svc id) (Py.range 1 (n + 1)) (mkBuilder ∅ ∅ 0)).
Proof.
  unfold Py.range. replace (n + 1 - 1) with n by lia.
  destruct (Z_le_gt_dec 0 n) as [Hn|Hn].
  - replace (Z.max 0 n) with (Z.of_nat (Z.to_nat n)) by lia.
    rewrite <- (Z2Nat.id n) at 2 by done.
    apply seasons_fold_indexed; [lia | apply indexed_empty].
  - rewrite seqZ_nil by lia. apply indexed_empty.
Qed.

(** *** Every listed episode is entered *)

Lemma episodes_loop_cumulative s eps : forall i b,
  b_cumulative (episodes_loop s i eps b) = b_cumulative b + Z.of_nat (length eps).
Proof.
  induction eps as [|ep eps IH]; intros i b; cbn [episodes_loop length].
  - lia.
  - rewrite IH. unfold episode_step. simpl b_cumulative. lia.
Qed.

(** The loop of season [s] leaves the rows of other seasons, and the rows
    of [s] up to position [i], where they are. *)
Lemma episodes_loop_keeps s eps : forall i b t j,
  t <> s \/ j <= i ->
  b_by_season_episode (episodes_loop s i eps b) !! (t, j) = b_by_season_episode b !! (t, j).
Proof.
  induction eps as [|ep eps IH]; intros i b t j Hk; cbn [episodes_loop]; [done|].
  rewrite IH by lia. unfold episode_step. simpl.
  apply lookup_insert_ne. intros [= ? ?]. lia.
Qed.

Lemma episodes_loop_enters s eps : forall (i : nat) b (j : nat) ep,
  eps !! j = Some ep ->
  b_by_season_episode (episodes_loop s (Z.of_nat i) eps b) !! (s, Z.of_nat (i + j) + 1)
  = Some (row_of s (i + j) ep (b_cumulative b - Z.of_nat i)).
Proof.
  induction eps as [|e eps IH]; intros i b j ep Hj; [done|].
  cbn [episodes_loop]. destruct j as [|j].
  - injection Hj as ->. rewrite Nat.add_0_r.
    rewrite episodes_loop_keeps by lia. unfold episode_step, row_of. simpl.
    rewrite lookup_insert_eq. do 2 f_equal. lia.
  - simpl in Hj. replace (Z.of_nat i + 1) with (Z.of_nat (S i)) by lia.
    replace (i + S j)%nat with (S i + j)%nat by lia.
    rewrite (IH (S i) _ j ep Hj). unfold episode_step. cbn [b_cumulative]. do 2 f_equal. lia.
Qed.

Lemma season_step_cumulative svc id s b :
  b_cumulative (season_step svc id b s)
  = b_cumulative b + Z.of_nat (length (fetched svc id s)).
Proof.
  unfold season_step, fetched.
  destruct (get_tv_season svc id s) as [info|]; [|simpl; lia].
  destruct (episodes info) as [eps|]; [|simpl; lia].
  apply episodes_loop_cumulative.
Qed.

Lemma season_step_keeps svc id s b t j :
  t <> s ->
  b_by_season_episode (season_step svc id b s) !! (t, j) = b_by_season_episode b !! (t, j).
Proof.
  intros Ht. unfold season_step.
  destruct (get_tv_season svc id s) as [info|]; [|done].
  destruct (episodes info) as [eps|]; [|done].
  apply episodes_loop_keeps. by left.
Qed.

Lemma season_step_enters svc id s b (j : nat) ep :
  fetched svc id s !! j = Some ep ->
  b_by_season_episode (season_step svc id b s) !! (s, Z.of_nat j + 1)
  = Some (row_of s j ep (b_cumulative b)).
Proof.
  unfold season_step, fetched.
  destruct (get_tv_season svc id s) as [info|]; [|done].
  destruct (episodes info) as [eps|]; [|done].
  intros Hj. pose proof (episodes_loop_enters s eps 0 b j ep Hj) as H.
  change (Z.of_nat 0) with 0 in H. change (0 + j)%nat with j in H.
  rewrite H. do 2 f_equal. lia.
Qed.

Lemma listed_cons svc id s n :
  0 < n ->
  listed svc id s n = Z.of_nat (length (fetched svc id s)) + listed svc id (s + 1) (n - 1).
Proof.
  intros Hn. unfold listed. rewrite seqZ_cons by done. simpl.
  by replace (Z.succ s) with (s + 1) by lia; replace (Z.pred n) with (n - 1) by lia.
Qed.

Lemma listed_nil svc id s n : n <= 0 -> listed svc id s n = 0.
Proof. intros Hn. unfold listed. by rewrite seqZ_nil. Qed.

Lemma seasons_fold_keeps svc id (n : nat) : forall s b t j,
  t < s ->
  b_by_season_episode (fold_left (season_step svc id) (seqZ s (Z.of_nat n)) b) !! (t, j)
  = b_by_season_episode b !! (t, j).
Proof.
  induction n as [|n IH]; intros s b t j Ht; [done|].
  rewrite seqZ_cons by lia. simpl fold_left.
  replace (Z.pred (Z.of_nat (S n))) with (Z.of_nat n) by lia.
  rewrite IH by lia. apply season_step_keeps. lia.
Qed.

Lemma seasons_fold_enters svc id (n : nat) : forall s b,
  let b' := fold_left (season_step svc id) (seqZ s (Z.of_nat n)) b in
  b_cumulative b' = b_cumulative b + listed svc id s (Z.of_nat n) /\
  (forall t (j : nat) ep, s <= t < s + Z.of_nat n ->
     fetched svc id t !! j = Some ep ->
     b_by_season_episode b' !! (t, Z.of_nat j + 1)
     = Some (row_of t j ep (b_cumulative b + listed svc id s (t - s)))).
Proof.
  induction n as [|n IH]; intros s b; cbn zeta.
  - simpl. split; [rewrite listed_nil; lia | intros; lia].
  - rewrite seqZ_cons by lia. simpl fold_left.
    replace (Z.pred (Z.of_nat (S n))) with (Z.of_nat n) by lia.
    destruct (IH (Z.succ s) (season_step svc id b s)) as [Hc Hrows]. split.
    + rewrite Hc, season_step_cumulative, (listed_cons _ _ s) by lia.
      replace (s + 1) with (Z.succ s) by lia.
      replace (Z.of_nat (S n) - 1) with (Z.of_nat n) by lia. lia.
    + intros t j ep Ht Hj. destruct (decide (t = s)) as [->|Hne].
      * rewrite seasons_fold_keeps by lia.
        rewrite (season_step_enters _ _ _ _ _ _ Hj).
        rewrite listed_nil by lia. do 2 f_equal. lia.
      * rewrite (Hrows t j ep) by (done || lia).
        rewrite season_step_cumulative, (listed_cons _ _ s (t - s)) by lia.
        replace (s + 1) with (Z.succ s) by lia.
        replace (t - s - 1) with (t - Z.succ s) by lia. do 2 f_equal. lia.
Qed.

Lemma range_fold_enters svc id n :
  let b' := fold_left (season_step svc id) (Py.range 1 (n + 1)) (mkBuilder ∅ ∅ 0) in
  b_cumulative b' = episodes_before svc id (n + 1) /\
  (forall s (j : nat) ep, 1 <= s <= n ->
     fetched svc id s !! j = Some ep ->
     b_by_season_episode b' !! (s, Z.of_nat j + 1)
     = Some (row_of s j ep (episodes_before svc id s))).
Proof.
  cbn zeta. unfold Py.range, episodes_before. replace (n + 1 - 1) with n by lia.
  destruct (Z_le_gt_dec 0 n) as [Hn|Hn].
  - destruct (Z_of_nat_complete n Hn) as [k ->].
    destruct (seasons_fold_enters svc id k 1 (mkBuilder ∅ ∅ 0)) as [Hc Hrows].
    split.
    + rewrite Hc. simpl. lia.
    + intros s j ep Hs Hj. rewrite (Hrows s j ep) by (done || lia). done.
  - rewrite seqZ_nil by lia. split; [by rewrite listed_nil by lia | intros; lia].
Qed.

(** X1.  In a mapping that [build_episode_mapping] returns, the season
    index holds nothing but rows of the cumulative index: a row found
    under (s, i) has season [s] and position [i], is the row stored under
    its own cumulative number, and its season lies in
    [1 .. total_seasons] and its position is at least 1. *)
Theorem season_index_rows_are_cumulative_rows id svc m s i E :
  build_episode_mapping id svc = Some m ->
  by_season_episode m !! (s, i) = Some E ->
  season E = s /\ episode_in_season E = i /\
  by_cumulative m !! cumulative E = Some E /\
  1 <= s <= total_seasons m /\ 1 <= i.
Proof.
  unfold build_episode_mapping.
  destruct (get_tv_details svc id) as [tv_info|]; [|discriminate].
  intros [= <-]. simpl. intros HE.
  destruct (range_fold_indexed svc id (seasons_or_zero tv_info))
    as ((_ & _ & Hrows) & Hse & _).
  destruct (Hse _ _ HE) as ([= -> ->] & Hcum & Hlo & Hpos).
  destruct (Hrows _ _ Hcum) as (_ & _ & Hs).
  repeat split; try done; lia.
Qed.

Lemma season_index_rows_are_cumulative_rows_witness :
  exists m, build_episode_mapping 7 sample_service = Some m /\
    by_season_episode m !! (3, 1) = Some (mkEpisodeInfo 3 1 1 3) /\
    by_cumulative m !! 3 = Some (mkEpisodeInfo 3 1 1 3).
Proof.
  eexists. split; [reflexivity|]. split; [reflexivity|].
  apply (season_index_rows_are_cumulative_rows 7 sample_service _ 3 1
           (mkEpisodeInfo 3 1 1 3) eq_refl eq_refl).
Defined.

(** X2.  The cumulative numbering follows the order of the seasons and of
    the positions inside a season: of two rows of a built mapping, the
    one with the smaller cumulative number is the one that comes first by
    (season, episode_in_season). *)
Theorem cumulative_order_is_season_order id svc m k k' E E' :
  build_episode_mapping id svc = Some m ->
  by_cumulative m !! k = Some E ->
  by_cumulative m !! k' = Some E' ->
  (k < k' <->
   season E < season E' \/
   (season E = season E' /\ episode_in_season E < episode_in_season E')).
Proof.
  unfold build_episode_mapping.
  destruct (get_tv_details svc id) as [tv_info|]; [|discriminate].
  intros [= <-]. simpl. intros HE HE'.
  destruct (range_fold_indexed svc id (seasons_or_zero tv_info)) as (_ & _ & Hord).
  split; [by apply (Hord k k' E E')|].
  intros Hlt. destruct (Z.lt_trichotomy k k') as [H|[H|H]]; [done|exfalso..].
  - subst k'. rewrite HE in HE'. injection HE' as <-. lia.
  - pose proof (Hord k' k E' E HE' HE H) as Hgt. unfold row_lt in Hgt. lia.
Qed.

Lemma cumulative_order_is_season_order_witness :
  exists m, build_episode_mapping 7 sample_service = Some m /\
    by_cumulative m !! 2 = Some (mkEpisodeInfo 1 2 13 2) /\
    by_cumulative m !! 3 = Some (mkEpisodeInfo 3 1 1 3) /\
    (2 < 3 <-> 1 < 3 \/ (1 = 3 /\ 2 < 1)).
Proof.
  eexists. split; [reflexivity|]. split; [reflexivity|]. split; [reflexivity|].
  apply (cumulative_order_is_season_order 7 sample_service _ 2 3
           (mkEpisodeInfo 1 2 13 2) (mkEpisodeInfo 3 1 1 3) eq_refl eq_refl eq_refl).
Defined.

(** X3.  Every episode the collaborator lists for a season in
    [1 .. total_seasons] is entered: the episode at position [j] (from 0)
    of season [s] is found under (s, j + 1), carries the provider's
    episode number when one is declared and [j + 1] otherwise, and its
    cumulative number is the number of episodes listed for the earlier
    seasons plus [j + 1].  [total_episodes] is the number of episodes
    listed for all the seasons. *)
Theorem build_episode_mapping_enters_every_episode id svc m :
  build_episode_mapping id svc = Some m ->
  total_episodes m = episodes_before svc id (total_seasons m + 1) /\
  (forall s (j : nat) ep, 1 <= s <= total_seasons m ->
     fetched svc id s !! j = Some ep ->
     by_season_episode m !! (s, Z.of_nat j + 1)
     = Some (row_of s j ep (episodes_before svc id s))).
Proof.
  unfold build_episode_mapping.
  destruct (get_tv_details svc id) as [tv_info|]; [|discriminate].
  intros [= <-]. simpl. apply range_fold_enters.
Qed.

Lemma build_episode_mapping_enters_every_episode_witness :
  exists m, build_episode_mapping 7 sample_service = Some m /\
    total_episodes m = episodes_before sample_service 7 (total_seasons m + 1) /\
    by_season_episode m !! (3, 1) = Some (mkEpisodeInfo 3 1 1 3).
Proof.
  eexists. split; [reflexivity|].
  destruct (build_episode_mapping_enters_every_episode 7 sample_service _ eq_refl)
    as [Htotal Hrows].
  split; [exact Htotal|].
  apply (Hrows 3 0%nat (mkEpisode None)); [change (1 <= 3 <= 3); lia | reflexivity].
Defined.

(** X4.  What a rule with context [season_N] finds in a built mapping:
    for a season [N] in [1 .. total_seasons] and a number [j + 1] that is
    a position of the season's list, [lookup] returns the row of that
    episode. *)
Theorem lookup_season_finds_listed_episode id svc m N (j : nat) ep :
  build_episode_mapping id svc = Some m ->
  1 <= N <= total_seasons m ->
  fetched svc id N !! j = Some ep ->
  Classifier.lookup m ("season_" +:+ Py.str_of_int N) (Z.of_nat j + 1)
  = Some (row_of N j ep (episodes_before svc id N)).
Proof.
  intros Hm HN Hj. rewrite ClassifierProofs.lookup_season by lia.
  revert Hm. unfold build_episode_mapping.
  destruct (get_tv_details svc id) as [tv_info|]; [|discriminate].
  intros [= <-]. simpl in *.
  by apply (range_fold_enters svc id (seasons_or_zero tv_info)).
Qed.

Lemma lookup_season_finds_listed_episode_witness :
  exists m, build_episode_mapping 7 sample_service = Some m /\
    Classifier.lookup m "season_1" 2 = Some (mkEpisodeInfo 1 2 13 2).
Proof.
  eexists. split; [reflexivity|].
  apply (lookup_season_finds_listed_episode 7 sample_service _ 1 1%nat (mkEpisode (Some 13)));
    [reflexivity | change (1 <= 1 <= 3); lia | reflexivity].
Defined.

Lemma cleared_cache_builds id svc cache :
  (get_or_build_mapping id svc (clear_mapping_cache cache)).1 = build_episode_mapping id svc.
Proof.
  unfold get_or_build_mapping, clear_mapping_cache. cbn [fst].
  rewrite lookup_empty.
  destruct (build_episode_mapping id svc); [apply lookup_insert_eq | apply lookup_empty].
Qed.

Lemma get_or_build_mapping_hit id svc cache m :
  cache !! id = Some m -> get_or_build_mapping id svc cache = (Some m, cache).
Proof. intros Hc. unfold get_or_build_mapping. rewrite Hc. cbv zeta. by rewrite Hc. Qed.

Lemma get_or_build_mapping_built id svc cache m :
  cache !! id = None -> build_episode_mapping id svc = Some m ->
  get_or_build_mapping id svc cache = (Some m, <[id := m]> cache).
Proof.
  intros Hc Hb. unfold get_or_build_mapping. rewrite Hc, Hb. cbv zeta.
  by rewrite lookup_insert_eq.
Qed.

Lemma get_or_build_mapping_failed id svc cache :
  cache !! id = None -> build_episode_mapping id svc = None ->
  get_or_build_mapping id svc cache = (None, cache).
Proof. intros Hc Hb. unfold get_or_build_mapping. rewrite Hc, Hb. cbv zeta. by rewrite Hc. Qed.

(** X5.  Once [get_or_build_mapping] has answered with a mapping, every
    later call for the same id answers with that mapping and leaves the
    cache as it is, whatever the collaborator would say now; entries of
    other ids are not touched by the call; a call that answers [None]
    leaves the cache unchanged, so a failure is asked again; and after
    [clear_mapping_cache] the answer is again what
    [build_episode_mapping] gives. *)
Theorem get_or_build_mapping_caches_success id svc cache :
  let r := get_or_build_mapping id svc cache in
  (forall id', id' <> id -> r.2 !! id' = cache !! id') /\
  (r.1 = None -> r.2 = cache) /\
  (forall m, r.1 = Some m ->
     forall svc', get_or_build_mapping id svc' r.2 = (Some m, r.2)) /\
  (forall svc', (get_or_build_mapping id svc' (clear_mapping_cache r.2)).1
                = build_episode_mapping id svc').
Proof.
  cbn zeta. destruct (cache !! id) as [m0|] eqn:Hc.
  - rewrite (get_or_build_mapping_hit _ _ _ _ Hc). cbn [fst snd].
    split; [done|]. split; [done|]. split; [|intros; apply cleared_cache_builds].
    intros m [= <-] svc'. by apply get_or_build_mapping_hit.
  - destruct (build_episode_mapping id svc) as [m1|] eqn:Hb.
    + rewrite (get_or_build_mapping_built _ _ _ _ Hc Hb). cbn [fst snd].
      split; [intros id' Hne; by rewrite lookup_insert_ne|].
      split; [done|]. split; [|intros; apply cleared_cache_builds].
      intros m [= <-] svc'. apply get_or_build_mapping_hit, lookup_insert_eq.
    + rewrite (get_or_build_mapping_failed _ _ _ Hc Hb). cbn [fst snd].
      split; [done|]. split; [done|]. split; [done|intros; apply cleared_cache_builds].
Qed.

End MappingFacts.

(** ** The batch classifier and its summary *)

Module BatchProofs.
Import TmdbMapping Regex Classifier ClassifierBatch ClassifierProofs.

Definition is_matched (r : ClassifyResult) : bool := String.eqb (status r) "matched".
Definition is_unmatched (r : ClassifyResult) : bool := String.eqb (status r) "unmatched".
Definition is_other (r : ClassifyResult) : bool := negb (is_matched r) && negb (is_unmatched r).


Lemma classify_file_names path name context mapping :
  file_path (classify_file path name context mapping) = path /\
  file_name (classify_file path name context mapping) = name.
Proof.
  unfold classify_file. destruct (extract_episode_number name =? 0); [done|].
  by destruct (lookup mapping context (extract_episode_number name)).
Qed.

Lemma classify_file_status path name context mapping :
  let r := classify_file path name context mapping in
  status r = "matched" \/ status r = "unmatched" \/ status r = "error".
Proof.
  cbn zeta. unfold classify_file. destruct (extract_episode_number name =? 0); [auto|].
  destruct (lookup mapping context (extract_episode_number name)); simpl; auto.
Qed.

Lemma classify_one_names file mappings tm :
  file_path (classify_one file mappings tm) = default EmptyString (f_path file) /\
  file_name (classify_one file mappings tm) = default EmptyString (f_name file).
Proof.
  unfold classify_one.
  destruct (matched_mapping _ _ mappings) as [m|]; [|done].
  destruct (String.eqb _ "movie"); [done|].
  destruct (tm !! _); [apply classify_file_names | done].
Qed.

Lemma classify_one_status file mappings tm :
  let r := classify_one file mappings tm in
  status r = "matched" \/ status r = "unmatched" \/ status r = "error".
Proof.
  cbn zeta. unfold classify_one.
  destruct (matched_mapping _ _ mappings) as [m|]; [|simpl; auto].
  destruct (String.eqb _ "movie"); [simpl; auto|].
  destruct (tm !! _); [apply classify_file_status | simpl; auto].
Qed.

(** X6.  [classify_files] answers with one result per file, in the order
    of the files, each carrying the path and the name of its file (empty
    when the key is missing), and every status is one of [matched],
    [unmatched] and [error]. *)
Theorem classify_files_one_result_per_file files mappings tm :
  (fun r => (file_path r, file_name r)) <$> classify_files files mappings tm
  = (fun f => (default EmptyString (f_path f), default EmptyString (f_name f))) <$> files /\
  Forall (fun r => status r = "matched" \/ status r = "unmatched" \/ status r = "error")
         (classify_files files mappings tm).
Proof.
  unfold classify_files. split.
  - rewrite <- list_fmap_compose. apply list_fmap_ext. intros i f _. simpl.
    by destruct (classify_one_names f mappings tm) as [-> ->].
  - apply Forall_fmap, Forall_forall. intros f _. apply classify_one_status.
Qed.









(** *** The summary *)

Definition count (p : ClassifyResult -> bool) (l : list ClassifyResult) : Z :=
  Z.of_nat (length (List.filter p l)).

Lemma count_cons p r l : count p (r :: l) = (if p r then 1 else 0) + count p l.
Proof. unfold count. simpl. destruct (p r); simpl length; lia. Qed.

Lemma summarize_fold results : forall s0,
  let s := fold_left summarize_step results s0 in
  total s = total s0 /\
  matched s = matched s0 + count is_matched results /\
  unmatched s = unmatched s0 + count is_unmatched results /\
  error s = error s0 + count is_other results /\
  unmatched_files s = unmatched_files s0 ++ List.filter is_unmatched results /\
  error_files s = error_files s0 ++ List.filter is_other results.
Proof.
  induction results as [|r results IH]; intros s0; cbn zeta.
  - simpl. unfold count. simpl. rewrite !app_nil_r. repeat split; lia.
  - cbn [fold_left]. destruct (IH (summarize_step s0 r)) as (Ht & Hm & Hu & He & Huf & Hef).
    rewrite Ht, Hm, Hu, He, Huf, Hef, !count_cons. cbn [List.filter].
    unfold summarize_step, is_other, is_matched, is_unmatched.
    destruct (String.eqb (status r) "matched") eqn:E1.
    + apply String.eqb_eq in E1. rewrite E1. simpl. repeat split; lia.
    + destruct (String.eqb (status r) "unmatched") eqn:E2; simpl;
        rewrite <- ?app_assoc; repeat split; lia.
Qed.

Lemma status_cases r :
  (is_matched r = true /\ is_unmatched r = false /\ is_other r = false) \/
  (is_matched r = false /\ is_unmatched r = true /\ is_other r = false) \/
  (is_matched r = false /\ is_unmatched r = false /\ is_other r = true).
Proof.
  unfold is_other, is_matched, is_unmatched.
  destruct (String.eqb (status r) "matched") eqn:E1.
  - apply String.eqb_eq in E1. rewrite E1. auto.
  - destruct (String.eqb (status r) "unmatched"); auto.
Qed.

Lemma count_partition results :
  count is_matched results + count is_unmatched results + count is_other results
  = Z.of_nat (length results).
Proof.
  induction results as [|r results IH]; [done|].
  rewrite !count_cons. cbn [length].
  destruct (status_cases r) as [(-> & -> & ->)|[(-> & -> & ->)|(-> & -> & ->)]]; lia.
Qed.

(** X9.  The counters of the summary add up: [total] is the number of
    results and is the sum of [matched], [unmatched] and [error];
    [unmatched_files] are the results with status [unmatched] and
    [error_files] the results whose status is neither [matched] nor
    [unmatched], both in the order of the results, and their lengths are
    the two counters. *)
Theorem summarize_results_counts results :
  let s := summarize_results results in
  total s = Z.of_nat (length results) /\
  matched s + unmatched s + error s = total s /\
  unmatched_files s = List.filter is_unmatched results /\
  error_files s = List.filter is_other results /\
  unmatched s = Z.of_nat (length (unmatched_files s)) /\
  error s = Z.of_nat (length (error_files s)).
Proof.
  cbn zeta. unfold summarize_results.
  destruct (summarize_fold results (mkSummary (Z.of_nat (length results)) 0 0 0 ∅ [] []))
    as (Ht & Hm & Hu & He & Huf & Hef).
  rewrite Ht, Hm, Hu, He, Huf, Hef. simpl.
  pose proof (count_partition results). unfold count in *. repeat split; lia.
Qed.

(** Where a matched result is filed: under its series, in the list of its
    season when the season is positive and in [files] otherwise. *)
Definition filed (r : ClassifyResult) (m : gmap Z Group) : Prop :=
  exists g, m !! r_tmdb_id r = Some g /\
    if 0 <? r_season r
    then exists l, seasons g !! r_season r = Some l /\ r ∈ l
    else r ∈ files g.

(** Every filed result satisfies [P] and sits under its own keys. *)
Definition well_filed (P : ClassifyResult -> Prop) (m : gmap Z Group) : Prop :=
  forall id g, m !! id = Some g ->
    (forall r, r ∈ files g -> P r /\ r_tmdb_id r = id /\ r_season r <= 0) /\
    (forall s l r, seasons g !! s = Some l -> r ∈ l ->
       P r /\ r_tmdb_id r = id /\ r_season r = s /\ 0 < s).

Definition group_of (m : gmap Z Group) (id : Z) : Group :=
  default (mkGroup ∅ []) (m !! id).

Lemma file_matched_eq r m :
  file_matched r m =
  <[r_tmdb_id r :=
      if 0 <? r_season r
      then mkGroup (<[r_season r :=
                        default [] (seasons (group_of m (r_tmdb_id r)) !! r_season r) ++ [r]]>
                      (seasons (group_of m (r_tmdb_id r))))
                   (files (group_of m (r_tmdb_id r)))
      else mkGroup (seasons (group_of m (r_tmdb_id r)))
                   (files (group_of m (r_tmdb_id r)) ++ [r])]> m.
Proof.
  unfold file_matched, group_of, setdefault.
  destruct (m !! r_tmdb_id r) as [g|] eqn:Hg; cbn zeta.
  - rewrite Hg. simpl. destruct (0 <? r_season r); [|done].
    destruct (seasons g !! r_season r) as [l|] eqn:Hl; [by rewrite Hl|].
    rewrite lookup_insert_eq. simpl. by rewrite insert_insert_eq.
  - rewrite lookup_insert_eq. simpl. rewrite !lookup_empty.
    destruct (0 <? r_season r); rewrite insert_insert_eq; [|done].
    rewrite lookup_insert_eq. simpl. by rewrite insert_insert_eq.
Qed.

Lemma file_matched_files r m : filed r (file_matched r m).
Proof.
  rewrite file_matched_eq. unfold filed. eexists. split; [apply lookup_insert_eq|].
  destruct (0 <? r_season r); simpl.
  - eexists. split; [apply lookup_insert_eq|]. apply elem_of_app. right. constructor.
  - apply elem_of_app. right. constructor.
Qed.

Lemma file_matched_keeps r r' m : filed r' m -> filed r' (file_matched r m).
Proof.
  intros (g & Hg & Hin). rewrite file_matched_eq. unfold filed, group_of.
  destruct (decide (r_tmdb_id r = r_tmdb_id r')) as [Heq|Hne].
  - rewrite Heq, lookup_insert_eq, Hg. simpl. eexists. split; [done|].
    destruct (0 <? r_season r) eqn:Hs; simpl.
    + destruct (0 <? r_season r'); [|done]. destruct Hin as (l & Hl & Hr').
      destruct (decide (r_season r = r_season r')) as [Hse|Hse].
      * rewrite Hse, lookup_insert_eq, Hl. simpl. eexists. split; [done|].
        apply elem_of_app. by left.
      * rewrite lookup_insert_ne by done. by exists l.
    + destruct (0 <? r_season r'); [done|]. apply elem_of_app. by left.
  - rewrite lookup_insert_ne by done. by exists g.
Qed.

Lemma file_matched_well_filed (P : ClassifyResult -> Prop) r m :
  P r -> well_filed P m -> well_filed P (file_matched r m).
Proof.
  intros HP Hm. rewrite file_matched_eq. intros id g.
  assert (Hold : forall g0, m !! r_tmdb_id r = Some g0 \/ g0 = mkGroup ∅ [] ->
            (forall r0, r0 ∈ files g0 -> P r0 /\ r_tmdb_id r0 = r_tmdb_id r /\ r_season r0 <= 0) /\
            (forall s l r0, seasons g0 !! s = Some l -> r0 ∈ l ->
               P r0 /\ r_tmdb_id r0 = r_tmdb_id r /\ r_season r0 = s /\ 0 < s)).
  { intros g0 [Hg0| ->]; [by apply Hm|]. simpl. split.
    - intros r0 Hr0. by apply elem_of_nil in Hr0.
    - intros s l r0. by rewrite lookup_empty. }
  assert (Hgrp : m !! r_tmdb_id r = Some (group_of m (r_tmdb_id r)) \/
                 group_of m (r_tmdb_id r) = mkGroup ∅ []).
  { unfold group_of. destruct (m !! r_tmdb_id r); [by left | by right]. }
  destruct (Hold _ Hgrp) as [Hfiles Hseasons].
  destruct (decide (r_tmdb_id r = id)) as [<-|Hne]; [|rewrite lookup_insert_ne by done; apply Hm].
  rewrite lookup_insert_eq. intros [= <-].
  destruct (0 <? r_season r) eqn:Hs; simpl.
  - split; [done|]. intros s l r0.
    destruct (decide (r_season r = s)) as [<-|Hse].
    + rewrite lookup_insert_eq. intros [= <-] Hr0. apply elem_of_app in Hr0 as [Hr0|Hr0].
      * destruct (seasons (group_of m (r_tmdb_id r)) !! r_season r) as [l0|] eqn:Hl0;
          [by eapply Hseasons | by apply elem_of_nil in Hr0].
      * apply list_elem_of_singleton in Hr0 as ->. repeat split; [done|lia].
    + rewrite lookup_insert_ne by done. apply Hseasons.
  - split; [|done]. intros r0 Hr0. apply elem_of_app in Hr0 as [Hr0|Hr0]; [by apply Hfiles|].
    apply list_elem_of_singleton in Hr0 as ->. repeat split; [done|lia].
Qed.

Lemma summarize_step_by_tmdb s r :
  by_tmdb (summarize_step s r)
  = if is_matched r then file_matched r (by_tmdb s) else by_tmdb s.
Proof.
  unfold summarize_step, is_matched.
  destruct (String.eqb (status r) "matched"); [done|].
  by destruct (String.eqb (status r) "unmatched").
Qed.

Lemma summarize_fold_filed results : forall s0 r,
  filed r (by_tmdb s0) \/ (r ∈ results /\ is_matched r = true) ->
  filed r (by_tmdb (fold_left summarize_step results s0)).
Proof.
  induction results as [|r0 results IH]; intros s0 r Hr; cbn [fold_left].
  - destruct Hr as [Hr|[Hr _]]; [done | by apply elem_of_nil in Hr].
  - apply IH. rewrite summarize_step_by_tmdb.
    destruct Hr as [Hr|[Hr Hm]].
    + left. destruct (is_matched r0); [by apply file_matched_keeps | done].
    + apply elem_of_cons in Hr as [->|Hr]; [|by right].
      left. rewrite Hm. apply file_matched_files.
Qed.

Lemma summarize_fold_well_filed (P : ClassifyResult -> Prop) results : forall s0,
  (forall r, r ∈ results -> is_matched r = true -> P r) ->
  well_filed P (by_tmdb s0) ->
  well_filed P (by_tmdb (fold_left summarize_step results s0)).
Proof.
  induction results as [|r0 results IH]; intros s0 HP Hs0; cbn [fold_left]; [done|].
  apply IH; [intros r Hr; apply HP; by right|].
  rewrite summarize_step_by_tmdb. destruct (is_matched r0) eqn:Hm; [|done].
  apply file_matched_well_filed; [|done]. apply HP; [by left | done].
Qed.

(** X10.  The summary files every matched result, and nothing else: a
    result with status [matched] is found under its series, in the list
    of its season when the season is positive and in the list [files]
    otherwise (the movie results); and whatever is found in a list of
    the summary is a matched result of the input that sits under its own
    series and season. *)
Theorem summarize_results_files_matched results :
  let s := summarize_results results in
  (forall r, r ∈ results -> status r = "matched" -> filed r (by_tmdb s)) /\
  well_filed (fun r => r ∈ results /\ status r = "matched") (by_tmdb s).
Proof.
  cbn zeta. unfold summarize_results. split.
  - intros r Hr Hm. apply summarize_fold_filed. right. split; [done|].
    unfold is_matched. by rewrite Hm.
  - apply summarize_fold_well_filed.
    + intros r Hr Hm. split; [done|]. by apply String.eqb_eq.
    + intros id g. simpl. by rewrite lookup_empty.
Qed.

End BatchProofs.

(** ** Strings, continued: splitting, cancelling, patterns without a match *)

Module StringFacts.
Import Regex SubProofs NumeralProofs.

Lemma append_cons c (a b : string) : String c a +:+ b = String c (a +:+ b).
Proof. done. Qed.

Lemma append_assoc (a b c : string) : (a +:+ b) +:+ c = a +:+ (b +:+ c).
Proof. induction a as [|x a IH]; [done|]. by rewrite !append_cons, IH. Qed.

Lemma append_nil_r (a : string) : a +:+ EmptyString = a.
Proof. induction a as [|x a IH]; [done|]. by rewrite append_cons, IH. Qed.

Lemma length_append (a b : string) :
  String.length (a +:+ b) = (String.length a + String.length b)%nat.
Proof. induction a as [|x a IH]; [done|]. rewrite append_cons. simpl. by rewrite IH. Qed.

Lemma append_inj_l (a x y : string) : a +:+ x = a +:+ y -> x = y.
Proof. induction a as [|c a IH]; [done|]. rewrite !append_cons. intros [= H]. by apply IH. Qed.

Lemma append_inj_r (t : string) : forall a b, a +:+ t = b +:+ t -> a = b.
Proof.
  induction a as [|c a IH]; intros [|d b] H.
  - done.
  - apply (f_equal String.length) in H. rewrite !length_append in H. simpl in H. lia.
  - apply (f_equal String.length) in H. rewrite !length_append in H. simpl in H. lia.
  - rewrite !append_cons in H. injection H as -> H. f_equal. by apply IH.
Qed.

Lemma split_nonempty sep s : Str.split sep s <> [].
Proof.
  induction s as [|c s IH]; [done|]. simpl.
  destruct (Str.eqb_char c sep); [done|]. by destruct (Str.split sep s).
Qed.

(** Splitting at a separator splits the two sides. *)
Lemma split_app sep a b :
  Str.split sep (a +:+ String sep b) = Str.split sep a ++ Str.split sep b.
Proof.
  induction a as [|c a IH]; [|rewrite append_cons]; simpl.
  - unfold Str.eqb_char. by rewrite Ascii.eqb_refl.
  - destruct (Str.eqb_char c sep); [by rewrite IH|].
    rewrite IH. pose proof (split_nonempty sep a). by destruct (Str.split sep a).
Qed.

Definition other_than (sep : ascii) (c : ascii) : bool := negb (Str.eqb_char c sep).

Lemma split_whole sep s :
  Str.all_chars (other_than sep) s = true -> Str.split sep s = [s].
Proof.
  induction s as [|c s IH]; [done|]. simpl. unfold other_than at 1.
  intros [Hc Hs]%andb_prop. apply negb_true_iff in Hc. by rewrite Hc, (IH Hs).
Qed.

Lemma all_chars_impl (p q : ascii -> bool) s :
  (forall c, p c = true -> q c = true) ->
  Str.all_chars p s = true -> Str.all_chars q s = true.
Proof.
  intros Hpq. induction s as [|c s IH]; [done|]. simpl.
  intros [Hc Hs]%andb_prop. by rewrite (Hpq c Hc), (IH Hs).
Qed.

Lemma basename_under dir name :
  Str.all_chars (other_than "/") name = true ->
  OsPath.basename (dir +:+ "/" +:+ name) = name.
Proof.
  intros Hn. unfold OsPath.basename, OsPath.last_piece.
  change ("/" +:+ name) with (String "/" name).
  rewrite split_app, (split_whole _ _ Hn). apply last_last.
Qed.

(** *** The decimal numerals *)

Definition numeral_char (c : ascii) : bool := Str.is_digit c || Str.eqb_char c "-".

Lemma str_of_int_chars z : Str.all_chars numeral_char (Py.str_of_int z) = true.
Proof.
  unfold Py.str_of_int, NilZero.string_of_int.
  assert (Hu : forall d, Str.all_chars numeral_char (NilZero.string_of_uint d) = true).
  { intros d. unfold NilZero.string_of_uint. destruct d; try done;
      apply (all_chars_impl Str.is_digit); try (intros c Hc; unfold numeral_char; by rewrite Hc);
      apply (digits_of_uint (_ d)). }
  destruct (Z.to_int z) as [d|d]; [apply Hu|].
  cbn [Str.all_chars]. by rewrite Hu.
Qed.

Lemma fmt_02d_chars z : Str.all_chars numeral_char (Py.fmt_02d z) = true.
Proof.
  unfold Py.fmt_02d. destruct ((0 <=? z) && (z <? 10)); [|apply str_of_int_chars].
  change ("0" +:+ Py.str_of_int z) with (String "0" (Py.str_of_int z)).
  cbn [Str.all_chars]. by rewrite str_of_int_chars.
Qed.

Lemma numeral_no_slash c : numeral_char c = true -> other_than "/" c = true.
Proof. each_byte c; vm_compute; congruence. Qed.

(** *** Patterns that cannot match *)

(** [starts_in q r]: a match of [r] begins with a byte of the class [q]. *)
Inductive starts_in (q : ascii -> bool) : re -> Prop :=
| starts_chr p : (forall c, p c = true -> q c = true) -> starts_in q (Chr p)
| starts_rep p lo hi : (forall c, p c = true -> q c = true) -> starts_in q (Rep p (S lo) hi)
| starts_seq r1 r2 : starts_in q r1 -> starts_in q (Seq r1 r2)
| starts_bol r2 : starts_in q r2 -> starts_in q (Seq Bol r2)
| starts_not_behind p r2 : starts_in q r2 -> starts_in q (Seq (NotBehind p) r2)
| starts_alt r1 r2 : starts_in q r1 -> starts_in q r2 -> starts_in q (Alt r1 r2)
| starts_group r1 : starts_in q r1 -> starts_in q (Group r1).

Definition blocked (q : ascii -> bool) (s : string) : Prop :=
  match s with
  | String c _ => q c = false
  | EmptyString => True
  end.

Lemma starts_in_fails q r : starts_in q r ->
  forall R st (k : pos -> option R), blocked q (rest st) -> exec r st k = None.
Proof.
  induction 1 as [p Hp|p lo hi Hp|r1 r2 _ IH|r2 _ IH|p r2 _ IH|r1 r2 _ IH1 _ IH2|r1 _ IH];
    intros R st k Hb; cbn [exec].
  - destruct (rest st) as [|c s]; [done|]. simpl in Hb.
    destruct (p c) eqn:E; [|done]. apply Hp in E. congruence.
  - destruct (rest st) as [|c s]; [done|]. simpl in Hb. cbn [rep].
    destruct (p c) eqn:E; [|done]. apply Hp in E. congruence.
  - by apply IH.
  - destruct (before st); [done|]. by apply IH.
  - destruct (before st) as [c|]; [destruct (p c); [done|]|]; by apply IH.
  - by rewrite IH1, IH2.
  - by apply IH.
Qed.

Lemma all_chars_blocked q s :
  Str.all_chars (fun c => negb (q c)) s = true -> blocked q s.
Proof.
  destruct s as [|c s]; [done|]. simpl. intros [Hc _]%andb_prop.
  by apply negb_true_iff.
Qed.

(** A substitution whose pattern needs a byte the subject does not have
    returns the subject. *)
Lemma sub_from_unmatched q r repl s : forall bef,
  starts_in q r ->
  Str.all_chars (fun c => negb (q c)) s = true ->
  sub_from r repl 0 bef s = s.
Proof.
  induction s as [|c s IH]; intros bef Hr Hs; [done|].
  cbn [sub_from]. unfold match_here.
  rewrite (starts_in_fails q r Hr) by (by apply all_chars_blocked).
  simpl in Hs. apply andb_prop in Hs as [_ Hs]. by rewrite IH.
Qed.

Lemma search_from_unmatched q r s : forall bef,
  starts_in q r ->
  Str.all_chars (fun c => negb (q c)) s = true ->
  search_from r bef s = None.
Proof.
  induction s as [|c s IH]; intros bef Hr Hs; cbn [search_from]; unfold match_here.
  - by rewrite (starts_in_fails q r Hr).
  - rewrite (starts_in_fails q r Hr) by (by apply all_chars_blocked).
    simpl in Hs. apply andb_prop in Hs as [_ Hs]. by apply IH.
Qed.

Lemma replace_char_absent c new s :
  Str.all_chars (other_than c) s = true -> Str.replace_char c new s = s.
Proof.
  induction s as [|d s IH]; [done|]. simpl. unfold other_than at 1.
  intros [Hd Hs]%andb_prop. apply negb_true_iff in Hd. by rewrite Hd, (IH Hs).
Qed.

(** After [replace(c, new)] no [c] is left, unless [new] brings one. *)
Lemma replace_char_removes c new s :
  Str.all_chars (other_than c) new = true ->
  Str.all_chars (other_than c) (Str.replace_char c new s) = true.
Proof.
  intros Hnew. induction s as [|d s IH]; [done|]. simpl.
  destruct (Str.eqb_char d c) eqn:E.
  - by rewrite all_chars_app, Hnew.
  - simpl. unfold other_than at 1. by rewrite E.
Qed.

(** *** Lengths *)

Lemma sub_from_length r repl s : forall skip bef,
  (String.length repl <= 1)%nat ->
  (String.length (sub_from r repl skip bef s) <= String.length s)%nat.
Proof.
  induction s as [|c s IH]; intros skip bef Hrepl; [done|].
  cbn [sub_from]. destruct skip as [|n].
  - destruct (match_here r bef (String c s)) as [m|].
    + destruct (String.length (String c s) - String.length (rest m))%nat.
      * simpl. specialize (IH 0%nat (Some c) Hrepl). lia.
      * rewrite length_append. specialize (IH n (Some c) Hrepl). simpl. lia.
    + simpl. specialize (IH 0%nat (Some c) Hrepl). lia.
  - specialize (IH n (Some c) Hrepl). simpl. lia.
Qed.

Lemma replace_char_length c new s :
  (String.length new <= 1)%nat ->
  (String.length (Str.replace_char c new s) <= String.length s)%nat.
Proof.
  intros Hnew. induction s as [|d s IH]; [done|]. simpl.
  destruct (Str.eqb_char d c); [rewrite length_append|]; simpl; lia.
Qed.

Lemma lstrip_length chars s :
  (String.length (Str.lstrip chars s) <= String.length s)%nat.
Proof.
  induction s as [|c s IH]; [done|]. cbn [Str.lstrip].
  destruct (Str.mem c chars); simpl; lia.
Qed.

Lemma rstrip_length chars s :
  (String.length (Str.rstrip chars s) <= String.length s)%nat.
Proof.
  induction s as [|c s IH]; [done|]. cbn [Str.rstrip].
  destruct (Str.rstrip chars s); [destruct (Str.mem c chars)|]; simpl in *; lia.
Qed.

(** *** The two ends of a stripped string *)

Definition first_char (s : string) : option ascii :=
  match s with String c _ => Some c | EmptyString => None end.

Definition final_char (s : string) : option ascii := last_char None s.

Lemma last_char_cons d c s : last_char d (String c s) = last_char (Some c) s.
Proof. done. Qed.

Lemma last_char_some d s : s <> EmptyString -> last_char d s = last_char None s.
Proof. destruct s; [done|]. by rewrite !last_char_cons. Qed.

Lemma lstrip_first chars s c :
  first_char (Str.lstrip chars s) = Some c -> Str.mem c chars = false.
Proof.
  induction s as [|d s IH]; [done|]. cbn [Str.lstrip].
  destruct (Str.mem d chars) eqn:E; [done|]. simpl. by intros [= <-].
Qed.

Lemma rstrip_first chars s c :
  first_char s = Some c -> Str.mem c chars = false ->
  first_char (Str.rstrip chars s) = Some c.
Proof.
  destruct s as [|d s]; [done|]. simpl. intros [= ->] Hc.
  destruct (Str.rstrip chars s); [by rewrite Hc | done].
Qed.

Lemma rstrip_first_inv chars s c :
  first_char (Str.rstrip chars s) = Some c -> first_char s = Some c.
Proof.
  destruct s as [|d s]; [done|]. cbn [Str.rstrip].
  destruct (Str.rstrip chars s); [destruct (Str.mem d chars)|]; done.
Qed.

Lemma rstrip_final chars s : forall d c,
  last_char d (Str.rstrip chars s) = Some c ->
  Str.rstrip chars s <> EmptyString -> Str.mem c chars = false.
Proof.
  induction s as [|x s IH]; intros d c; [done|]. cbn [Str.rstrip].
  destruct (Str.rstrip chars s) as [|y r] eqn:E.
  - destruct (Str.mem x chars) eqn:Hx; [done|]. simpl. by intros [= <-].
  - rewrite last_char_cons. intros H _. by apply (IH (Some x) c).
Qed.

End StringFacts.

(** ** File names, continued *)

Module NamingFacts.
Import Regex Naming NamingFolders SubProofs NamingProofs StringFacts.

Lemma sanitize_filename_legal name :
  Str.all_chars legal (sanitize_filename name) = true.
Proof.
  unfold sanitize_filename.
  apply strip_all_chars.
  apply sub_all_chars; [done|]. apply sub_all_chars; [done|].
  apply sub_all_chars; [done|].
  apply replace_char_all_chars; [done|].
  apply replace_char_all_chars; [done|].
  apply sub_class_all_chars; [done|].
  intros c Hc. unfold legal. by rewrite Hc.
Qed.

Lemma legal_no_slash c : legal c = true -> other_than "/" c = true.
Proof. NumeralProofs.each_byte c; vm_compute; congruence. Qed.

Lemma sanitize_filename_no_slash name :
  Str.all_chars (other_than "/") (sanitize_filename name) = true.
Proof. eapply all_chars_impl; [apply legal_no_slash | apply sanitize_filename_legal]. Qed.

Lemma sanitize_filename_without c name :
  Str.mem c "~'" = true ->
  Str.all_chars (other_than c) (sanitize_filename name) = true.
Proof.
  intros Hc. unfold sanitize_filename.
  apply strip_all_chars.
  apply sub_all_chars; [by NumeralProofs.each_byte c|].
  apply sub_all_chars; [done|]. apply sub_all_chars; [done|].
  assert (Hcases : c = "~"%char \/ c = "'"%char).
  { revert Hc. NumeralProofs.each_byte c; vm_compute; (discriminate || auto). }
  destruct Hcases as [-> | ->].
  - apply replace_char_all_chars; [done|]. by apply replace_char_removes.
  - by apply replace_char_removes.
Qed.

Lemma last_char_app pre c : forall d, last_char d (pre +:+ String c EmptyString) = Some c.
Proof.
  induction pre as [|x pre IH]; intros d; [done|].
  rewrite append_cons, last_char_cons. apply IH.
Qed.

(** X11.  Besides the forbidden characters, the result of
    [sanitize_filename] contains no tilde and no apostrophe, and it
    neither begins nor ends with a dot or a space. *)
Theorem sanitize_filename_edges name :
  let cleaned := sanitize_filename name in
  (forall pre c post, cleaned = pre +:+ String c post -> c <> "~"%char /\ c <> "'"%char) /\
  (forall c rest, cleaned = String c rest -> c <> "."%char /\ c <> " "%char) /\
  (forall pre c, cleaned = pre +:+ String c EmptyString -> c <> "."%char /\ c <> " "%char).
Proof.
  cbn zeta. split; [|split].
  - intros pre c post Heq.
    pose proof (proj1 (all_chars_spec _ _) (sanitize_filename_without "~" name eq_refl)
                  pre c post Heq) as H1.
    pose proof (proj1 (all_chars_spec _ _) (sanitize_filename_without "'" name eq_refl)
                  pre c post Heq) as H2.
    split; intros ->; discriminate.
  - intros c rest Heq.
    assert (H : Str.mem c ". " = false).
    { apply (lstrip_first ". " (sub (Rep dot 2 None) "."
               (sub (Seq Bol (Rep bang 1 None)) EmptyString
                  (sub (Seq (Rep bang 1 None) Eol) EmptyString
                     (Str.replace_char "'" EmptyString
                        (Str.replace_char "~" "-" (sub (Chr illegal_char) "." name))))))).
      apply (rstrip_first_inv ". "). fold (Str.strip ". ").
      change (first_char (sanitize_filename name) = Some c). by rewrite Heq. }
    split; intros ->; discriminate.
  - intros pre c Heq.
    assert (H : Str.mem c ". " = false).
    { unfold sanitize_filename, Str.strip in Heq.
      eapply (rstrip_final ". " _ None c).
      - rewrite Heq. apply last_char_app.
      - rewrite Heq. by destruct pre. }
    split; intros ->; discriminate.
Qed.

Lemma sanitize_filename_edges_witness :
  sanitize_filename " .~it's. " = "-its" /\
  "-"%char <> "."%char /\ "-"%char <> " "%char.
Proof.
  split; [reflexivity|].
  apply (proj1 (proj2 (sanitize_filename_edges " .~it's. ")) "-"%char "its"). reflexivity.
Defined.

(** The characters [sanitize_filename] rewrites somewhere. *)
Definition special (c : ascii) : bool := illegal_char c || Str.mem c "~'!.".

Definition plain (c : ascii) : bool := negb (special c).

Lemma plain_spec c :
  plain c = true ->
  illegal_char c = false /\ other_than "~" c = true /\ other_than "'" c = true /\
  bang c = false /\ dot c = false.
Proof. NumeralProofs.each_byte c; vm_compute; intros; try discriminate; repeat split. Qed.

Lemma plain_without (q : ascii -> bool) s :
  (forall c, plain c = true -> q c = false) ->
  Str.all_chars plain s = true -> Str.all_chars (fun c => negb (q c)) s = true.
Proof.
  intros Hq. apply all_chars_impl. intros c Hc. by rewrite (Hq c Hc).
Qed.

(** X12.  A name without any of the characters \ / : * ? (double quote)
    < > | ~ ' ! . is only trimmed: [sanitize_filename] returns it with
    the spaces at its two ends removed and nothing else changed. *)
Theorem sanitize_filename_plain name :
  Str.all_chars plain name = true ->
  sanitize_filename name = Str.strip ". " name.
Proof.
  intros Hp. unfold sanitize_filename, sub.
  rewrite (sub_from_unmatched illegal_char (Chr illegal_char) "." name None);
    [|by constructor | apply plain_without; [intros c Hc; apply (plain_spec c Hc) | done]].
  rewrite (replace_char_absent "~" "-" name);
    [|eapply all_chars_impl; [intros c Hc; apply (plain_spec c Hc) | done]].
  rewrite (replace_char_absent "'" EmptyString name);
    [|eapply all_chars_impl; [intros c Hc; apply (plain_spec c Hc) | done]].
  rewrite (sub_from_unmatched bang (Seq (Rep bang 1 None) Eol) EmptyString name None);
    [|by repeat constructor | apply plain_without; [intros c Hc; apply (plain_spec c Hc) | done]].
  rewrite (sub_from_unmatched bang (Seq Bol (Rep bang 1 None)) EmptyString name None);
    [|by repeat constructor | apply plain_without; [intros c Hc; apply (plain_spec c Hc) | done]].
  rewrite (sub_from_unmatched dot (Rep dot 2 None) "." name None);
    [|by repeat constructor | apply plain_without; [intros c Hc; apply (plain_spec c Hc) | done]].
  done.
Qed.

Lemma sanitize_filename_plain_witness :
  sanitize_filename " 轻音少女 K-ON " = "轻音少女 K-ON".
Proof. apply (sanitize_filename_plain " 轻音少女 K-ON "). reflexivity. Defined.

(** X13.  [sanitize_filename] never makes a name longer (in bytes). *)
Theorem sanitize_filename_not_longer name :
  (String.length (sanitize_filename name) <= String.length name)%nat.
Proof.
  unfold sanitize_filename, Str.strip, sub.
  etrans; [apply rstrip_length|]. etrans; [apply lstrip_length|].
  etrans; [apply sub_from_length; simpl; lia|].
  etrans; [apply sub_from_length; simpl; lia|].
  etrans; [apply sub_from_length; simpl; lia|].
  etrans; [apply replace_char_length; simpl; lia|].
  etrans; [apply replace_char_length; simpl; lia|].
  apply sub_from_length. simpl. lia.
Qed.

End NamingFacts.

(** ** Categories and target paths *)

Module LayoutFacts.
Import Enums PathUtils Naming NamingFolders StrmLayout Strm StringFacts NamingFacts.

Lemma determine_subcategory_first pre genre post c :
  Forall (fun g => GENRE_TO_SUBCATEGORY !! g = None) pre ->
  GENRE_TO_SUBCATEGORY !! genre = Some c ->
  determine_subcategory (pre ++ genre :: post) = c.
Proof.
  intros Hpre Hg. induction Hpre as [|g pre Hn _ IH]; simpl.
  - by rewrite Hg.
  - by rewrite Hn.
Qed.

Lemma determine_subcategory_none genres :
  Forall (fun g => GENRE_TO_SUBCATEGORY !! g = None) genres ->
  determine_subcategory genres = DEFAULT.
Proof. induction 1 as [|g genres Hn _ IH]; simpl; [done | by rewrite Hn]. Qed.

(** X14.  [determine_subcategory] answers with the table entry of the
    first genre of the list that the table knows, whatever follows it,
    and with [DEFAULT] when the table knows none of the genres. *)
Theorem determine_subcategory_first_known genres :
  (forall pre genre post c,
     genres = pre ++ genre :: post ->
     Forall (fun g => GENRE_TO_SUBCATEGORY !! g = None) pre ->
     GENRE_TO_SUBCATEGORY !! genre = Some c ->
     determine_subcategory genres = c) /\
  (Forall (fun g => GENRE_TO_SUBCATEGORY !! g = None) genres ->
   determine_subcategory genres = DEFAULT).
Proof.
  split.
  - intros pre genre post c -> Hpre Hg. by apply determine_subcategory_first.
  - apply determine_subcategory_none.
Qed.

Lemma determine_subcategory_first_known_witness :
  determine_subcategory ["Comedy"; "Music"; "Animation"] = MUSIC /\
  determine_subcategory ["Drama"; "animation"] = DEFAULT.
Proof.
  destruct (determine_subcategory_first_known ["Comedy"; "Music"; "Animation"]) as [H1 _].
  destruct (determine_subcategory_first_known ["Drama"; "animation"]) as [_ H2].
  split.
  - apply (H1 ["Comedy"] "Music" ["Animation"] MUSIC); [reflexivity | | reflexivity].
    constructor; [reflexivity | constructor].
  - apply H2. constructor; [reflexivity|]. constructor; [reflexivity | constructor].
Defined.

Lemma get_target_path_inj root language mt mt' sub sub' :
  get_target_path root mt sub language = get_target_path root mt' sub' language ->
  (mt, sub) = (mt', sub').
Proof.
  unfold get_target_path, get_subcategory_name. intros H.
  apply append_inj_l in H.
  destruct (String.eqb language "zh"); destruct mt, mt', sub, sub';
    first [done | discriminate H].
Qed.

(** All pairs of a media type and a sub-category, in the order
    [get_all_target_paths] visits them. *)
Definition all_categories : list (MediaType * SubCategory) :=
  mt ← [TV; MOVIE]; sub ← [ANIMATION; DOCUMENTARY; MUSIC; VARIETY; DEFAULT]; [(mt, sub)].

Lemma all_categories_distinct : NoDup all_categories.
Proof.
  unfold all_categories. cbn.
  repeat (apply NoDup_cons_2;
          [rewrite ?elem_of_cons, elem_of_nil; intros H;
           repeat (destruct H as [H|H]; [discriminate H|]); exact H|]).
  apply NoDup_nil_2.
Qed.

(** X15.  For a given root and language the ten pairs of media type and
    sub-category have ten different target paths: equal paths mean equal
    media type and equal sub-category.  So the dictionary of
    [get_all_target_paths] has ten keys and ten different directories. *)
Theorem get_target_path_injective root language mt mt' sub sub' :
  (get_target_path root mt sub language = get_target_path root mt' sub' language ->
   mt = mt' /\ sub = sub') /\
  length (get_all_target_paths root language) = 10%nat /\
  NoDup (fst <$> get_all_target_paths root language) /\
  NoDup (snd <$> get_all_target_paths root language).
Proof.
  split; [intros H; by injection (get_target_path_inj _ _ _ _ _ _ H)|].
  split; [reflexivity|]. split.
  - cbn.
    repeat (apply NoDup_cons_2;
            [rewrite ?elem_of_cons, elem_of_nil; intros H;
             repeat (destruct H as [H|H]; [discriminate H|]); exact H|]).
    apply NoDup_nil_2.
  - change (snd <$> get_all_target_paths root language)
      with ((fun c => get_target_path root c.1 c.2 language) <$> all_categories).
    apply NoDup_fmap_2_strong; [|apply all_categories_distinct].
    intros [mt1 sub1] [mt2 sub2] _ _ H. by apply get_target_path_inj in H.
Qed.

Lemma get_target_path_injective_witness :
  (TV = TV /\ DEFAULT = DEFAULT) /\
  get_target_path "/kuake/strm/" TV ANIMATION "zh" = "/kuake/strm/剧集/动漫".
Proof.
  split; [|reflexivity].
  apply (proj1 (get_target_path_injective "/media" "en" TV TV DEFAULT DEFAULT)). reflexivity.
Defined.

(** *** The layout of the generated files *)

Lemma year_suffix_no_slash y :
  Str.all_chars (other_than "/") (" (" +:+ Py.str_of_int y +:+ ")") = true.
Proof.
  change (" (" +:+ Py.str_of_int y +:+ ")")
    with (String " " (String "(" (Py.str_of_int y +:+ ")"))).
  cbn [Str.all_chars]. rewrite SubProofs.all_chars_app.
  rewrite (all_chars_impl _ _ _ numeral_no_slash (str_of_int_chars y)). done.
Qed.

Lemma format_series_folder_no_slash title year :
  Str.all_chars (other_than "/") (format_series_folder title year) = true.
Proof.
  unfold format_series_folder. destruct (year_given year) as [y|].
  - by rewrite SubProofs.all_chars_app, sanitize_filename_no_slash, year_suffix_no_slash.
  - apply sanitize_filename_no_slash.
Qed.

Lemma format_season_folder_no_slash season :
  Str.all_chars (other_than "/") (format_season_folder season) = true.
Proof.
  unfold format_season_folder. rewrite SubProofs.all_chars_app.
  by rewrite (all_chars_impl _ _ _ numeral_no_slash (fmt_02d_chars season)).
Qed.

Lemma format_episode_name_no_slash title season episode ext :
  Str.all_chars (other_than "/") ext = true ->
  Str.all_chars (other_than "/") (format_episode_name title season episode ext) = true.
Proof.
  intros Hext. unfold format_episode_name. rewrite !SubProofs.all_chars_app.
  rewrite sanitize_filename_no_slash, Hext.
  by rewrite !(all_chars_impl _ _ _ numeral_no_slash (fmt_02d_chars _)).
Qed.

(** The STRM entry of one classified file of a season. *)
Definition tv_entry (storage_config : gmap string string) (base_folder title : string)
    (season_num : Z) (cf : ClassifiedFile) : string * string :=
  (base_folder +:+ "/" +:+ format_season_folder season_num +:+ "/"
     +:+ format_strm_episode_name title season_num (episode cf),
   _generate_strm_content storage_config (cf_path cf)).

Lemma tv_file_step_strm cfg base title s acc cf :
  all_strm_files (tv_file_step cfg base title s acc cf)
  = all_strm_files acc ++ (if episode cf <=? 0 then [] else [tv_entry cfg base title s cf]).
Proof.
  unfold tv_file_step, tv_entry. destruct (episode cf <=? 0); simpl.
  - by rewrite app_nil_r.
  - by rewrite !append_assoc.
Qed.

Lemma tv_season_strm cfg base title s files : forall acc entry,
  entry ∈ all_strm_files (fold_left (tv_file_step cfg base title s) files acc) ->
  entry ∈ all_strm_files acc \/
  exists cf, cf ∈ files /\ 0 < episode cf /\ entry = tv_entry cfg base title s cf.
Proof.
  induction files as [|cf files IH]; intros acc entry; cbn [fold_left]; [by left|].
  intros [Hin|(cf' & Hcf' & Hpos & ->)]%IH.
  - rewrite tv_file_step_strm in Hin. apply elem_of_app in Hin as [Hin|Hin]; [by left|].
    destruct (Z.leb_spec (episode cf) 0); [by apply elem_of_nil in Hin|].
    apply list_elem_of_singleton in Hin as ->. right. exists cf. split; [by left | done].
  - right. exists cf'. split; [by right | done].
Qed.

Lemma collect_tv_strm cfg base title (seasons : gmap Z (list ClassifiedFile)) :
  forall ss acc entry,
  entry ∈ all_strm_files
            (fold_left (fun acc season_num =>
                          fold_left (tv_file_step cfg base title season_num)
                                    (default [] (seasons !! season_num)) acc) ss acc) ->
  entry ∈ all_strm_files acc \/
  exists s files cf, seasons !! s = Some files /\ cf ∈ files /\ 0 < episode cf /\
    entry = tv_entry cfg base title s cf.
Proof.
  induction ss as [|s ss IH]; intros acc entry; cbn [fold_left]; [by left|].
  intros [Hin|H]%IH; [|by right].
  apply tv_season_strm in Hin as [Hin|(cf & Hcf & Hpos & ->)]; [by left|].
  right. destruct (seasons !! s) as [files|] eqn:Hs; [|by apply elem_of_nil in Hcf].
  by exists s, files, cf.
Qed.

(** X16.  Every STRM file the TV branch of [generate_strm] collects
    belongs to a file of one of the seasons with a positive episode
    number, holds the play URL of that file, and lies exactly three
    levels below the category directory: series folder, season folder,
    file name.  No title can add a level or leave the season folder,
    because no name component contains a slash. *)
Theorem tv_strm_files_lie_in_their_season_folder
    cfg target_path sub language title year seasons acc path content :
  (path, content) ∈
    all_strm_files (collect_tv cfg (tv_base_folder target_path sub language title year)
                      title seasons acc) ->
  (path, content) ∈ all_strm_files acc \/
  exists s files cf,
    seasons !! s = Some files /\ cf ∈ files /\ 0 < episode cf /\
    content = _generate_strm_content cfg (cf_path cf) /\
    Str.split "/" path =
      Str.split "/" (get_target_path target_path TV sub language)
      ++ [format_series_folder title year; format_season_folder s;
          format_strm_episode_name title s (episode cf)] /\
    OsPath.basename path = format_strm_episode_name title s (episode cf).
Proof.
  unfold collect_tv. intros [Hin|(s & files & cf & Hs & Hcf & Hpos & Heq)]%collect_tv_strm;
    [by left|].
  right. exists s, files, cf. injection Heq as -> ->.
  assert (Hsplit :
    Str.split "/" (tv_base_folder target_path sub language title year +:+ "/"
                   +:+ format_season_folder s +:+ "/"
                   +:+ format_strm_episode_name title s (episode cf))
    = Str.split "/" (get_target_path target_path TV sub language)
      ++ [format_series_folder title year; format_season_folder s;
          format_strm_episode_name title s (episode cf)]).
  { unfold tv_base_folder. cbv zeta. rewrite !append_assoc.
    repeat change ("/" +:+ ?x) with (String "/" x).
    rewrite !split_app.
    rewrite (split_whole _ _ (format_series_folder_no_slash title year)).
    rewrite (split_whole _ _ (format_season_folder_no_slash s)).
    unfold format_strm_episode_name.
    by rewrite (split_whole _ _ (format_episode_name_no_slash title s (episode cf) ".strm" eq_refl)). }
  repeat split; [done..| |]; [done|].
  unfold OsPath.basename, OsPath.last_piece. rewrite Hsplit.
  change (?l ++ [?a; ?b; ?c]) with (l ++ ([a; b] ++ [c])). rewrite app_assoc.
  apply last_last.
Qed.

Definition sample_seasons : gmap Z (list ClassifiedFile) :=
  {[ 1 := [mkClassifiedFile "/src/K-ON/[01].mkv" "[01].mkv" 1 1 []] ]}.

Lemma tv_strm_files_lie_in_their_season_folder_witness :
  let path := tv_base_folder "/strm/" ANIMATION "zh" "K-ON!" (Some 2009)
              +:+ "/" +:+ format_season_folder 1 +:+ "/"
              +:+ format_strm_episode_name "K-ON!" 1 1 in
  let content := _generate_strm_content ∅ "/src/K-ON/[01].mkv" in
  (path, content) ∈ all_strm_files (mkCollected [] []) \/
  exists s files cf,
    sample_seasons !! s = Some files /\ cf ∈ files /\ 0 < episode cf /\
    content = _generate_strm_content ∅ (cf_path cf) /\
    Str.split "/" path =
      Str.split "/" (get_target_path "/strm/" TV ANIMATION "zh")
      ++ [format_series_folder "K-ON!" (Some 2009); format_season_folder s;
          format_strm_episode_name "K-ON!" s (episode cf)] /\
    OsPath.basename path = format_strm_episode_name "K-ON!" s (episode cf).
Proof.
  apply (tv_strm_files_lie_in_their_season_folder ∅ "/strm/" ANIMATION "zh" "K-ON!"
           (Some 2009) sample_seasons (mkCollected [] [])).
  vm_compute. apply list_elem_of_here.
Defined.

Lemma format_movie_name_no_slash title year ext :
  Str.all_chars (other_than "/") ext = true ->
  Str.all_chars (other_than "/") (format_movie_name title year ext) = true.
Proof.
  intros Hext. unfold format_movie_name.
  assert (Ht : Str.all_chars (other_than "/")
                 (Str.replace_char " " "." (sanitize_filename title)) = true).
  { apply SubProofs.replace_char_all_chars; [done | apply sanitize_filename_no_slash]. }
  destruct (year_given year) as [y|]; rewrite !SubProofs.all_chars_app, Ht, Hext; [|done].
  by rewrite (all_chars_impl _ _ _ numeral_no_slash (str_of_int_chars y)).
Qed.

Lemma format_movie_folder_no_slash title year :
  Str.all_chars (other_than "/") (format_movie_folder title year) = true.
Proof. apply format_series_folder_no_slash. Qed.

Lemma collect_movie_strm cfg base title year files : forall acc,
  all_strm_files (collect_movie cfg base title year files acc)
  = all_strm_files acc ++
    map (fun cf => (base +:+ "/" +:+ format_strm_movie_name title year,
                    _generate_strm_content cfg (cf_path cf))) files.
Proof.
  unfold collect_movie.
  induction files as [|cf files IH]; intros acc; cbn [fold_left map].
  - by rewrite app_nil_r.
  - rewrite IH. unfold movie_file_step. cbn [all_strm_files].
    by rewrite <- app_assoc.
Qed.

(** X17.  The movie branch gives every file of a classification the same
    STRM path, the movie's name inside the movie's folder two levels
    below the category directory; the entries differ only in the play
    URL they hold.  A classification with several files therefore writes
    the same STRM file several times. *)
Theorem movie_strm_files_share_one_path cfg target_path sub language title year files acc :
  let base := movie_base_folder target_path sub language title year in
  let path := base +:+ "/" +:+ format_strm_movie_name title year in
  all_strm_files (collect_movie cfg base title year files acc)
  = all_strm_files acc ++
    map (fun cf => (path, _generate_strm_content cfg (cf_path cf))) files /\
  Str.split "/" path =
    Str.split "/" (get_target_path target_path MOVIE sub language)
    ++ [format_movie_folder title year; format_strm_movie_name title year].
Proof.
  cbv zeta. split; [apply collect_movie_strm|].
  unfold movie_base_folder. cbv zeta. rewrite !append_assoc.
  repeat change ("/" +:+ ?x) with (String "/" x).
  rewrite !split_app.
  rewrite (split_whole _ _ (format_movie_folder_no_slash title year)).
  unfold format_strm_movie_name.
  by rewrite (split_whole _ _ (format_movie_name_no_slash title year ".strm" eq_refl)).
Qed.

(** X18.  How a default subtitle is paired with its video.  For a movie
    the default subtitle and the STRM file always have the same stem.
    For an episode the STRM name is built from the sanitised title and
    the subtitle name from the title as given, so the two stems are the
    same exactly when sanitising leaves the title unchanged. *)
Theorem default_subtitle_stem title season episode year sub :
  let tail := ".S" +:+ Py.fmt_02d season +:+ ".E" +:+ Py.fmt_02d episode in
  format_strm_episode_name title season episode
    = (sanitize_filename title +:+ tail) +:+ ".strm" /\
  (_format_subtitle_name title season episode sub true
     = (sanitize_filename title +:+ tail) +:+ sub_ext sub
   <-> sanitize_filename title = title) /\
  (exists stem,
     format_strm_movie_name title year = stem +:+ ".strm" /\
     _format_movie_subtitle_name title year sub true = stem +:+ sub_ext sub).
Proof.
  cbv zeta. split; [|split].
  - unfold format_strm_episode_name, format_episode_name. by rewrite !append_assoc.
  - unfold _format_subtitle_name. cbv zeta. cbn [andb].
    rewrite <- !append_assoc. split.
    + intros H. symmetry. by do 5 apply append_inj_r in H.
    + by intros ->.
  - unfold format_strm_movie_name, format_movie_name, _format_movie_subtitle_name.
    cbv zeta. destruct (year_given year) as [y|]; eexists; split;
      rewrite <- ?append_assoc; reflexivity.
Qed.

End LayoutFacts.

(** ** The listing cache *)

Module CacheFacts.
Import Alist.

Definition absent (key : string) (l : list (string * (list FileInfo * Z))) : Prop :=
  Forall (fun kv => fst kv <> key) l.

Lemma cache_remove_absent key l : absent key (cache_remove key l).
Proof.
  unfold absent, cache_remove. apply Forall_forall. intros kv Hin.
  apply list_elem_of_filter in Hin as [Hne _].
  apply negb_prop_elim in Hne. intros Heq. apply Hne.
  apply Is_true_true. by apply String.eqb_eq.
Qed.

Lemma cache_remove_id key l : absent key l -> cache_remove key l = l.
Proof.
  unfold absent, cache_remove. induction 1 as [|kv l Hkv _ IH]; [done|].
  rewrite filter_cons. destruct (decide _) as [_|Hn]; [by rewrite IH|].
  exfalso. apply Hn. apply negb_prop_intro. intros Ht.
  apply Is_true_true, String.eqb_eq in Ht. done.
Qed.

Lemma cache_remove_app key l1 l2 :
  cache_remove key (l1 ++ l2) = cache_remove key l1 ++ cache_remove key l2.
Proof. apply filter_app. Qed.

Lemma cache_remove_other key k v :
  k <> key -> cache_remove key [(k, v)] = [(k, v)].
Proof. intros Hne. apply cache_remove_id. by constructor. Qed.

Lemma absent_remove_other key key' l : absent key l -> absent key (cache_remove key' l).
Proof.
  unfold absent, cache_remove. intros H. apply Forall_forall. intros kv Hin.
  apply list_elem_of_filter in Hin as [_ Hin]. by eapply Forall_forall in H.
Qed.

Lemma cache_find_absent key l : absent key l -> cache_find key l = None.
Proof.
  induction 1 as [|[k v] l Hk _ IH]; [done|]. simpl in *.
  by apply String.eqb_neq in Hk as ->.
Qed.

Lemma cache_find_app key l1 l2 :
  cache_find key (l1 ++ l2)
  = match cache_find key l1 with Some v => Some v | None => cache_find key l2 end.
Proof.
  induction l1 as [|[k v] l1 IH]; [done|]. simpl. by destruct (String.eqb k key).
Qed.

Lemma cache_find_last key l v : absent key l -> cache_find key (l ++ [(key, v)]) = Some v.
Proof.
  intros Ha. rewrite cache_find_app, (cache_find_absent _ _ Ha). simpl.
  by rewrite String.eqb_refl.
Qed.

Lemma cache_find_remove_other key key' l :
  key <> key' -> cache_find key (cache_remove key' l) = cache_find key l.
Proof.
  intros Hne. induction l as [|[k v] l IH]; [done|].
  unfold cache_remove in *. rewrite filter_cons. cbn [fst].
  destruct (decide _) as [Hk|Hk]; simpl.
  - by rewrite IH.
  - apply negb_prop_classical in Hk.
    apply Is_true_true, String.eqb_eq in Hk as ->.
    apply String.eqb_neq in Hne. rewrite String.eqb_sym in Hne. by rewrite Hne.
Qed.

(** The loop of [set] keeps the newest [max_size - 1] entries. *)
Lemma evict_spec (n : nat) : forall (l : list (string * (list FileInfo * Z))) (fuel : nat),
  (1 <= n)%nat -> (length l < fuel)%nat ->
  evict fuel n l = Some (drop (length l - (n - 1)) l).
Proof.
  induction l as [|x l IH]; intros fuel Hn Hf.
  - destruct fuel; [lia|]. simpl. destruct n; [lia|]. done.
  - destruct fuel as [|fuel]; [simpl in Hf; lia|]. cbn [evict].
    destruct (Nat.leb_spec n (length (x :: l))) as [Hle|Hgt].
    + rewrite IH by (simpl in *; lia). f_equal. simpl length in *.
      replace (S (length l) - (n - 1))%nat with (S (length l - (n - 1)))%nat by lia.
      done.
    + f_equal. simpl length in *.
      replace (S (length l) - (n - 1))%nat with 0%nat by lia. done.
Qed.

Lemma evict_zero : forall (l : list (string * (list FileInfo * Z))) fuel, evict fuel 0 l = None.
Proof.
  induction l as [|x l IH]; intros fuel; destruct fuel; simpl; auto.
Qed.

Lemma absent_drop key n (l : list (string * (list FileInfo * Z))) : absent key l -> absent key (drop n l).
Proof. apply Forall_drop. Qed.

Lemma cache_set_spec c key value t :
  (1 <= max_size c)%nat ->
  cache_set c key value t =
    Some (mkLRUCache (max_size c) (ttl c)
            (drop (length (cache_remove key (entries c)) - (max_size c - 1))
                  (cache_remove key (entries c)) ++ [(key, (value, t))])).
Proof.
  intros Hn. unfold cache_set. cbv zeta.
  by rewrite evict_spec by (done || lia).
Qed.

(** X19.  Writing an entry and reading it back.  With room for at least
    one entry, [set] succeeds and leaves at most [max_size] entries; a
    [get] of the key that comes no later than the time to live after the
    write returns the value and leaves the cache as it is; a later [get]
    returns nothing and deletes the entry. *)
Theorem cache_set_then_get c key value t :
  (1 <= max_size c)%nat ->
  exists c',
    cache_set c key value t = Some c' /\
    max_size c' = max_size c /\ ttl c' = ttl c /\
    (length (entries c') <= max_size c)%nat /\
    (forall now, now - t <= ttl c -> cache_get c' key now = (Some value, c')) /\
    (forall now, ttl c < now - t ->
       fst (cache_get c' key now) = None /\
       cache_find key (entries (snd (cache_get c' key now))) = None).
Proof.
  intros Hn. eexists. split; [by apply cache_set_spec|].
  set (kept := drop _ _).
  assert (Hk : absent key kept) by apply absent_drop, cache_remove_absent.
  cbn [max_size ttl entries]. split; [done|]. split; [done|]. split.
  - rewrite length_app. unfold kept. rewrite length_drop. simpl. lia.
  - split; intros now Hnow; unfold cache_get; cbn [entries ttl max_size];
      rewrite (cache_find_last _ _ _ Hk).
    + destruct (Z.ltb_spec (ttl c) (now - t)); [lia|].
      rewrite cache_remove_app, (cache_remove_id _ _ Hk).
      unfold cache_remove at 1. rewrite filter_cons. cbn [fst].
      destruct (decide _) as [Hd|_]; [|by rewrite app_nil_r].
      apply negb_prop_elim in Hd. exfalso. apply Hd.
      apply Is_true_true, String.eqb_refl.
    + destruct (Z.ltb_spec (ttl c) (now - t)); [|lia]. cbn [fst snd entries].
      split; [done|]. apply cache_find_absent, cache_remove_absent.
Qed.

Definition two_slots : LRUCache :=
  mkLRUCache 2 300000 [("list:/a", ([], 0)); ("list:/b", ([], 10))].

Lemma cache_set_then_get_witness :
  exists c', cache_set two_slots "list:/c" [] 20 = Some c' /\
    (length (entries c') <= 2)%nat /\
    cache_get c' "list:/c" 300020 = (Some [], c').
Proof.
  destruct (cache_set_then_get two_slots "list:/c" [] 20) as (c' & H1 & _ & _ & H2 & H3 & _);
    [simpl; lia|].
  exists c'. split; [exact H1|]. split; [exact H2|]. apply H3. simpl. lia.
Defined.

(** X20.  What [set] evicts.  The entries that survive a [set] are the
    newest ones of the old cache (the entry of the key itself apart), in
    their order, as many as fit beside the new entry, which comes last.
    With [max_size] 0 there is nothing to pop in the end and [set]
    raises. *)
Theorem cache_set_evicts_oldest c key value t :
  ((1 <= max_size c)%nat ->
   exists dropped kept,
     cache_remove key (entries c) = dropped ++ kept /\
     length kept = Nat.min (length (cache_remove key (entries c))) (max_size c - 1) /\
     cache_set c key value t
       = Some (mkLRUCache (max_size c) (ttl c) (kept ++ [(key, (value, t))]))) /\
  (max_size c = 0%nat -> cache_set c key value t = None).
Proof.
  split.
  - intros Hn.
    exists (take (length (cache_remove key (entries c)) - (max_size c - 1))
                 (cache_remove key (entries c))),
           (drop (length (cache_remove key (entries c)) - (max_size c - 1))
                 (cache_remove key (entries c))).
    split; [by rewrite take_drop|]. split; [rewrite length_drop; lia|].
    by apply cache_set_spec.
  - intros H0. unfold cache_set. cbv zeta. by rewrite H0, evict_zero.
Qed.

Lemma cache_set_evicts_oldest_witness :
  cache_set two_slots "list:/c" [] 20
  = Some (mkLRUCache 2 300000 [("list:/b", ([], 10)); ("list:/c", ([], 20))]) /\
  cache_set (mkLRUCache 0 300000 []) "list:/c" [] 20 = None.
Proof.
  destruct (cache_set_evicts_oldest (mkLRUCache 0 300000 []) "list:/c" [] 20) as [_ H0].
  split; [reflexivity | apply H0; reflexivity].
Defined.

(** X21.  Reading keeps an entry alive.  After a [get] that finds the
    key, the next [set] of another key keeps the entry, value and time
    stamp unchanged, however full the cache is, provided the cache has
    room for two entries. *)
Theorem cache_get_refreshes c key value stamp now key' value' t :
  (2 <= max_size c)%nat ->
  cache_find key (entries c) = Some (value, stamp) ->
  now - stamp <= ttl c ->
  key' <> key ->
  fst (cache_get c key now) = Some value /\
  exists c2,
    cache_set (snd (cache_get c key now)) key' value' t = Some c2 /\
    cache_find key (entries c2) = Some (value, stamp).
Proof.
  intros Hn Hfind Hfresh Hne. unfold cache_get. rewrite Hfind.
  destruct (Z.ltb_spec (ttl c) (now - stamp)); [lia|]. cbn [fst snd].
  split; [done|]. eexists. split; [apply cache_set_spec; simpl; lia|].
  cbn [entries max_size ttl].
  rewrite cache_remove_app, (cache_remove_other key' key _ (not_eq_sym Hne)).
  set (a := cache_remove key' (cache_remove key (entries c))).
  assert (Ha : absent key a) by apply absent_remove_other, cache_remove_absent.
  rewrite length_app. cbn [length].
  rewrite drop_app_le by lia.
  rewrite <- app_assoc, cache_find_app.
  rewrite (cache_find_absent key (drop _ a)) by (by apply absent_drop).
  simpl. rewrite String.eqb_refl. done.
Qed.

Lemma cache_get_refreshes_witness :
  exists c2,
    cache_set (snd (cache_get two_slots "list:/a" 30)) "list:/c" [] 40 = Some c2 /\
    cache_find "list:/a" (entries c2) = Some ([], 0).
Proof.
  destruct (cache_get_refreshes two_slots "list:/a" [] 0 30 "list:/c" [] 40)
    as (_ & c2 & H1 & H2); [simpl; lia | reflexivity | simpl; lia | discriminate |].
  exists c2. split; [exact H1 | exact H2].
Defined.

End CacheFacts.

(** ** The storage client, continued *)

Module AlistFacts.
Import Alist AlistProofs CacheFacts StringFacts.
Local Open Scope alist_scope.

(** *** Which exceptions leave a method *)

(** [escapes Q m]: an exception that leaves [m] has a message in [Q]. *)
Definition escapes {A} (Q : string -> Prop) (m : M A) : Prop :=
  forall s, match fst (m s) with Raised e => Q e | Returned _ => True end.

Lemma escapes_ret {A} Q (a : A) : escapes Q (ret a).
Proof. by intros s. Qed.

Lemma escapes_raise {A} (Q : string -> Prop) e : Q e -> escapes Q (@raise A e).
Proof. by intros H s. Qed.

Lemma escapes_bind {A B} Q (m : M A) (f : A -> M B) :
  escapes Q m -> (forall a, escapes Q (f a)) -> escapes Q (bind m f).
Proof.
  intros Hm Hf s. unfold bind. specialize (Hm s).
  destruct (m s) as [[a|e] s']; simpl in *; [apply Hf | done].
Qed.

Lemma escapes_catch {A} Q (m : M A) (h : string -> M A) :
  (forall e, escapes Q (h e)) -> escapes Q (catch m h).
Proof.
  intros Hh s. unfold catch. destruct (m s) as [[a|e] s']; simpl; [done | apply Hh].
Qed.

Lemma escapes_impl {A} (Q Q' : string -> Prop) (m : M A) :
  (forall e, Q e -> Q' e) -> escapes Q m -> escapes Q' m.
Proof. intros HQ Hm s. specialize (Hm s). destruct (fst (m s)); auto. Qed.

Lemma escapes_emit Q e : escapes Q (emit e).
Proof. by intros s. Qed.

Lemma escapes_sleep Q ms : escapes Q (sleep ms).
Proof. by intros s. Qed.

Lemma escapes_gate Q : escapes Q gate.
Proof. by intros s. Qed.

Lemma escapes_get_service Q : escapes Q get_service.
Proof. by intros s. Qed.

Lemma escapes_clock Q : escapes Q clock.
Proof. by intros s. Qed.

Lemma escapes_set_token Q t : escapes Q (set_token t).
Proof. by intros s. Qed.

Lemma escapes_set_cache Q c : escapes Q (set_cache c).
Proof. by intros s. Qed.

Lemma escapes_full_path Q path : escapes Q (_full_path path).
Proof. by intros s. Qed.

Create HintDb escapes.
#[local] Hint Resolve escapes_ret escapes_emit escapes_sleep escapes_gate
  escapes_get_service escapes_clock escapes_set_token escapes_set_cache
  escapes_full_path : escapes.

(** A [try] whose handler returns lets nothing out. *)
Lemma escapes_login Q : escapes Q _login_sync.
Proof. unfold _login_sync. apply escapes_catch. intros e. apply escapes_ret. Qed.

#[local] Hint Resolve escapes_login : escapes.

Definition login_failed (e : string) : Prop := e = "登录失败".

Lemma escapes_ensure_login : escapes login_failed ensure_login.
Proof.
  unfold ensure_login. apply escapes_bind; [auto with escapes|]. intros sv.
  destruct (Py.truthy (token sv)); [auto with escapes|].
  apply escapes_bind; [auto with escapes|]. intros [|]; [auto with escapes|].
  by apply escapes_raise.
Qed.

(** With a token at hand [ensure_login] does nothing. *)
Lemma ensure_login_logged_in {A} (rest : M A) s :
  Py.truthy (token (svc s)) <> None -> (ensure_login ;;; rest) s = rest s.
Proof.
  intros Htok. unfold ensure_login, bind, get_service.
  by destruct (Py.truthy (token (svc s))).
Qed.

Definition labelled (label : string) (e : string) : Prop :=
  login_failed e \/ exists e', e = label +:+ e'.

(** The shape of the writing methods: log in, then a [try] that relabels
    whatever is raised inside it. *)
Lemma escapes_relabel {A} label (body : M A) :
  escapes (labelled label) (catch body (fun e => raise (label +:+ e))).
Proof. apply escapes_catch. intros e. apply escapes_raise. right. by exists e. Qed.

Ltac through_prelude :=
  repeat first
    [ apply escapes_relabel
    | match goal with
      | |- escapes _ (bind ensure_login _) =>
          apply escapes_bind;
          [eapply escapes_impl; [|apply escapes_ensure_login]; intros ? ?; by left | intros ?]
      | |- escapes _ (bind (_full_path _) _) => apply escapes_bind; [auto with escapes | intros ?]
      | |- escapes _ (bind gate _) => apply escapes_bind; [auto with escapes | intros ?]
      end ].

Lemma escapes_list_attempt Q full_path : escapes Q (list_attempt full_path).
Proof. unfold list_attempt. apply escapes_catch. intros e. apply escapes_ret. Qed.

Definition list_label : string :=
  "列出目录失败（重试" +:+ Py.str_of_int MAX_RETRIES +:+ "次后）: ".

Lemma escapes_list_attempts full_path attempts : forall last_error,
  escapes (labelled list_label) (list_attempts full_path attempts last_error).
Proof.
  induction attempts as [|attempt rest IH]; intros last_error; cbn [list_attempts].
  - apply escapes_raise. right. exists (default "None" last_error).
    unfold list_label. by rewrite !append_assoc.
  - apply escapes_bind; [apply escapes_list_attempt|]. intros [result| |err].
    + apply escapes_ret.
    + apply IH.
    + apply escapes_bind; [|intros; apply IH].
      destruct (attempt <? MAX_RETRIES - 1); auto with escapes.
Qed.

(** X22.  The exceptions of the client.  [_login_sync] and
    [refresh_directory_async] never raise: every failure is the answer
    [False].  [put_file_content] raises only when the login fails, and
    never once a token is held.  [move_file], [copy_file], [delete_file]
    and [create_directory] raise either the login failure or their own
    message followed by the text of the error caught; [list_directory]
    raises either the login failure or the message that the retries are
    used up. *)
Theorem client_exceptions :
  escapes (fun _ => False) _login_sync /\
  (forall path, escapes (fun _ => False) (refresh_directory_async path)) /\
  (forall path content, escapes login_failed (put_file_content path content)) /\
  (forall path content s, Py.truthy (token (svc s)) <> None ->
     exists ok, fst (put_file_content path content s) = Returned ok) /\
  (forall src dst, escapes (labelled "移动文件失败: ") (move_file src dst)) /\
  (forall src dst, escapes (labelled "复制文件失败: ") (copy_file src dst)) /\
  (forall path, escapes (labelled "删除文件失败: ") (delete_file path)) /\
  (forall path, escapes (labelled "创建目录失败: ") (create_directory path)) /\
  (forall path, escapes (labelled list_label) (list_directory path)).
Proof.
  assert (Hput : forall path content,
            escapes (fun _ => False)
              (full_path <- _full_path path ;;
               gate ;;;
               catch (response <- post (FsPut full_path content) ;; answered response [200])
                     (fun _ => ret false))).
  { intros path content. apply escapes_bind; [auto with escapes|]. intros fp.
    apply escapes_bind; [auto with escapes|]. intros _.
    apply escapes_catch. intros e. apply escapes_ret. }
  split; [apply escapes_login|].
  split.
  { intros path. unfold refresh_directory_async.
    apply escapes_bind; [auto with escapes|]. intros sv.
    apply escapes_bind; [destruct (Py.truthy (token sv)); auto with escapes|].
    intros [|]; cbn [negb]; [|apply escapes_ret].
    apply escapes_bind; [auto with escapes|]. intros fp.
    apply escapes_catch. intros e. apply escapes_ret. }
  split.
  { intros path content. unfold put_file_content.
    apply escapes_bind; [apply escapes_ensure_login|]. intros _.
    eapply escapes_impl; [|apply Hput]. done. }
  split.
  { intros path content s Htok. unfold put_file_content.
    rewrite ensure_login_logged_in by done.
    specialize (Hput path content s).
    destruct (fst _) as [ok|e]; [by exists ok | done]. }
  split; [intros; unfold move_file; through_prelude|].
  split; [intros; unfold copy_file; through_prelude|].
  split; [intros; unfold delete_file; through_prelude|].
  split; [intros; unfold create_directory; through_prelude|].
  intros path. unfold list_directory.
  apply escapes_bind;
    [eapply escapes_impl; [|apply escapes_ensure_login]; intros ? ?; by left|]. intros _.
  apply escapes_bind; [auto with escapes|]. intros fp.
  apply escapes_bind; [auto with escapes|]. intros sv.
  apply escapes_bind; [auto with escapes|]. intros t.
  destruct (cache_get (cache sv) (cache_key_of fp) t) as [cached c].
  apply escapes_bind; [auto with escapes|]. intros _.
  destruct cached; [apply escapes_ret | apply escapes_list_attempts].
Qed.

Lemma client_exceptions_witness :
  exists ok, fst (put_file_content "/strm/a.strm" "http://nas/d/a.mkv"
                    (start nas 0 (script [Http 502 None]))) = Returned ok.
Proof.
  destruct client_exceptions as (_ & _ & _ & H & _).
  apply (H "/strm/a.strm" "http://nas/d/a.mkv" (start nas 0 (script [Http 502 None]))).
  discriminate.
Defined.

(** *** Paths sent to the server *)

Lemma startswith_slash s : Str.startswith s "/" = true <-> exists r, s = String "/" r.
Proof.
  unfold Str.startswith. destruct s as [|c r]; cbn [Str.strip_prefix].
  - split; [done | by intros [? ?]].
  - unfold Str.eqb_char. destruct (Ascii.eqb_spec "/" c) as [<-|Hne].
    + split; [by exists r | done].
    + split; [done | intros [? [= ? ?]]; by subst].
Qed.

Lemma squeeze_slashes_absolute r :
  exists r', squeeze_slashes (String "/" r) = String "/" r'.
Proof.
  destruct r as [|c r]; [by eexists|].
  NumeralProofs.each_byte c; cbn [squeeze_slashes]; by eexists.
Qed.

Lemma full_path_of_absolute base path :
  Str.startswith base "/" = true ->
  Str.startswith (full_path_of base path) "/" = true.
Proof.
  intros Hb. unfold full_path_of.
  destruct (Str.is_empty path || String.eqb path "/"); [done|].
  destruct (Str.startswith path "/") eqn:Hp; [done|].
  apply startswith_slash in Hb as [r ->]. rewrite append_cons.
  apply startswith_slash, squeeze_slashes_absolute.
Qed.

(** X23.  A client made by the constructor has an absolute base path
    that is the root or does not end with a slash, a URL without
    trailing slash, an empty cache and no token; and whatever path a
    method is given, the path it sends to the server is absolute. *)
Theorem new_service_paths_are_absolute url user pw base path :
  let s := new_service url user pw base in
  Str.startswith (base_path s) "/" = true /\
  (base_path s = "/" \/ forall pre, base_path s <> pre +:+ "/") /\
  (forall pre, Alist.url s <> pre +:+ "/") /\
  token s = None /\ entries (cache s) = [] /\
  Str.startswith (full_path_of (base_path s) path) "/" = true.
Proof.
  cbv zeta.
  assert (Hstrip : forall x pre, Str.rstrip "/" x <> pre +:+ "/").
  { intros x pre Heq.
    assert (Str.mem "/" "/" = false); [|done].
    apply (rstrip_final "/" x None "/").
    - rewrite Heq. apply NamingFacts.last_char_app.
    - rewrite Heq. by destruct pre. }
  assert (Hbase : Str.startswith (base_path (new_service url user pw base)) "/" = true).
  { unfold new_service. cbv zeta. cbn [base_path].
    destruct (Str.is_empty (Str.rstrip "/" base)); [done|].
    destruct (Str.startswith (Str.rstrip "/" base) "/") eqn:E; [done | done]. }
  split; [done|]. split; [|split; [|split; [|split]]]; try done.
  - unfold new_service. cbv zeta. cbn [base_path].
    destruct (Str.is_empty (Str.rstrip "/" base)) eqn:Hne; [by left|]. right. intros pre.
    destruct (Str.startswith (Str.rstrip "/" base) "/"); [apply Hstrip|].
    change ("/" +:+ ?x) with (String "/" x).
    destruct pre as [|c pre].
    + intros [= H]. by rewrite H in Hne.
    + rewrite append_cons. intros [= _ H]. by apply (Hstrip base pre).
  - apply Hstrip.
  - by apply full_path_of_absolute.
Qed.

(** *** A listing that was fetched is served again *)

Lemma cache_set_found c key value t c' :
  cache_set c key value t = Some c' ->
  cache_find key (entries c') = Some (value, t) /\ ttl c' = ttl c.
Proof.
  unfold cache_set. cbv zeta.
  destruct (evict _ _ _) as [l'|] eqn:He; [|done]. intros [= <-]. cbn [entries ttl].
  split; [|done]. apply cache_find_last.
  clear -He. revert He.
  generalize (S (length (cache_remove key (entries c)))).
  assert (Ha := cache_remove_absent key (entries c)). revert Ha.
  generalize (cache_remove key (entries c)). intros l Ha fuel. revert l Ha.
  induction fuel as [|fuel IH]; intros l Ha; cbn [evict].
  - destruct (max_size c <=? length l)%nat; [by destruct l | by intros [= <-]].
  - destruct (max_size c <=? length l)%nat; [|by intros [= <-]].
    destruct l as [|x l]; [done|]. apply IH. by inversion Ha.
Qed.

#[local] Hint Resolve neutral_ret neutral_raise neutral_emit neutral_sleep neutral_gate
  neutral_http neutral_get_service neutral_clock neutral_set_token neutral_post
  neutral_json neutral_login neutral_ensure_login neutral_full_path : neutral.

Lemma neutral_msg m : neutral (msg_lower_has_too_many m).
Proof. unfold msg_lower_has_too_many. destruct m; auto with neutral. Qed.

#[local] Hint Resolve neutral_msg : neutral.

(** Run a step that leaves cache and base path alone. *)
Ltac calm :=
  apply ends_bind; apply ends_neutral;
  [ first [ solve [auto with neutral]
          | match goal with
            | |- neutral (if ?c then _ else _) => destruct c; solve [auto with neutral]
            end ]
  | ].

(** What an attempt leaves behind: the listing it returns is in the
    cache with the current time; otherwise the cache is as before. *)
Definition after_attempt (full_path : string) (s : St)
    (r : outcome LoopExit) (s' : St) : Prop :=
  base_path (svc s') = base_path (svc s) /\
  ttl (cache (svc s')) = ttl (cache (svc s)) /\
  match r with
  | Returned (Return result) =>
      cache_find (cache_key_of full_path) (entries (cache (svc s')))
        = Some (result, now (world s'))
  | Returned _ => True
  | Raised _ => False
  end.

Lemma after_attempt_same full_path s r s' :
  cache (svc s') = cache (svc s) -> base_path (svc s') = base_path (svc s) ->
  (forall result, r <> Returned (Return result)) -> (forall e, r <> Raised e) ->
  after_attempt full_path s r s'.
Proof.
  intros Hc Hb Hr He. unfold after_attempt. rewrite Hc, Hb. split; [done|]. split; [done|].
  destruct r as [[result| |err]|e]; [by destruct (Hr result) | done | done | by destruct (He e)].
Qed.

Lemma list_attempt_caches full_path s :
  ends (list_attempt full_path) s (after_attempt full_path s).
Proof.
  unfold list_attempt. apply ends_catch.
  calm. intros [[]|e] s1 Hc1 Hb1; [|step; by apply after_attempt_same].
  apply ends_bind, ends_post. intros [[status body]|e] s2 Hsvc Hlog;
    [|step; apply after_attempt_same; by rewrite ?Hsvc].
  assert (Hc2 : cache (svc s2) = cache (svc s)) by (by rewrite Hsvc).
  assert (Hb2 : base_path (svc s2) = base_path (svc s)) by (by rewrite Hsvc).
  clear Hsvc Hlog Hc1 Hb1 s1.
  destruct (status =? 200).
  - apply ends_bind. destruct body as [data|]; [|step; step; by apply after_attempt_same].
    step. destruct (code_is data 200).
    + step. step.
      destruct (cache_set (cache (svc s2)) (cache_key_of full_path)
                  (_parse_list_response data full_path) (now (world s2))) as [c'|] eqn:Hset.
      * step. step. unfold after_attempt. cbn [svc cache base_path world].
        destruct (cache_set_found _ _ _ _ _ Hset) as [Hf Ht].
        by rewrite Hf, Ht, Hc2.
      * step. step. by apply after_attempt_same.
    + destruct (code_is data 401).
      * calm. intros [[]|e] s3 Hc3 Hb3;
          [|step; apply after_attempt_same; by rewrite ?Hc3, ?Hb3].
        calm. intros [ok|e] s4 Hc4 Hb4;
          [|step; apply after_attempt_same; by rewrite ?Hc4, ?Hb4, ?Hc3, ?Hb3].
        destruct ok; cbv beta iota; step; apply after_attempt_same;
          by rewrite ?Hc4, ?Hb4, ?Hc3, ?Hb3.
      * calm. intros [limited|e] s3 Hc3 Hb3;
          [|step; apply after_attempt_same; by rewrite ?Hc3, ?Hb3].
        destruct limited; cbv beta iota;
          [|step; apply after_attempt_same; by rewrite ?Hc3, ?Hb3].
        calm. intros [[]|e] s4 Hc4 Hb4; step; apply after_attempt_same;
          by rewrite ?Hc4, ?Hb4, ?Hc3, ?Hb3.
  - destruct (status =? 429); [|step; by apply after_attempt_same].
    calm. intros [[]|e] s3 Hc3 Hb3; step; apply after_attempt_same; by rewrite ?Hc3, ?Hb3.
Qed.

Lemma ends_weaken {A} (m : M A) s (Q Q' : outcome A -> St -> Prop) :
  ends m s Q -> (forall r s', Q r s' -> Q' r s') -> ends m s Q'.
Proof. intros [H] HQ. constructor. by apply HQ. Qed.

(** What the retry loop leaves behind when it returns a listing. *)
Definition after_listing (full_path : string) (s : St)
    (r : outcome (list FileInfo)) (s' : St) : Prop :=
  base_path (svc s') = base_path (svc s) /\
  ttl (cache (svc s')) = ttl (cache (svc s)) /\
  forall result, r = Returned result ->
    cache_find (cache_key_of full_path) (entries (cache (svc s')))
      = Some (result, now (world s')).

Lemma after_listing_trans full_path s s1 r s' :
  base_path (svc s1) = base_path (svc s) ->
  ttl (cache (svc s1)) = ttl (cache (svc s)) ->
  after_listing full_path s1 r s' -> after_listing full_path s r s'.
Proof. intros Hb Ht (Hb' & Ht' & H). unfold after_listing. by rewrite Hb', Ht', Hb, Ht. Qed.

Lemma list_attempts_caches full_path attempts : forall last_error s,
  ends (list_attempts full_path attempts last_error) s (after_listing full_path s).
Proof.
  induction attempts as [|attempt rest IH]; intros last_error s; cbn [list_attempts].
  - step. by split; [|split].
  - apply ends_bind. eapply ends_weaken; [apply list_attempt_caches|].
    intros [[result| |err]|e] s1 (Hb & Ht & Hr); [| | |done].
    + step. split; [done|]. split; [done|]. by intros ? [= <-].
    + eapply ends_weaken; [apply IH|]. intros r s'. by apply after_listing_trans.
    + calm. intros [[]|e] s2 Hc2 Hb2.
      * eapply ends_weaken; [apply IH|]. intros r s'. apply after_listing_trans.
        -- by rewrite Hb2.
        -- by rewrite Hc2.
      * split; [by rewrite Hb2|]. split; [by rewrite Hc2 | done].
Qed.

Lemma list_directory_caches path s :
  0 <= ttl (cache (svc s)) ->
  ends (list_directory path) s (fun r s' =>
    forall result, r = Returned result ->
      base_path (svc s') = base_path (svc s) /\
      ttl (cache (svc s')) = ttl (cache (svc s)) /\
      exists stamp,
        cache_find (cache_key_of (full_path_of (base_path (svc s)) path))
                   (entries (cache (svc s'))) = Some (result, stamp) /\
        now (world s') - stamp <= ttl (cache (svc s'))).
Proof.
  intros Httl. unfold list_directory.
  calm. intros [[]|e] s1 Hc1 Hb1; [|done].
  apply ends_bind. unfold _full_path. step. step. step. step.
  rewrite Hb1, Hc1.
  set (key := cache_key_of (full_path_of (base_path (svc s)) path)).
  unfold cache_get.
  destruct (cache_find key (entries (cache (svc s)))) as [[value stamp]|] eqn:Hfind.
  - destruct (Z.ltb_spec (ttl (cache (svc s))) (now (world s1) - stamp)) as [Hold|Hfresh].
    + step. eapply ends_weaken; [apply list_attempts_caches|].
      intros r s' (Hb & Ht & Hr) result ->. cbn [svc base_path cache ttl] in *.
      rewrite Hb, Ht, Hb1. split; [done|]. split; [done|].
      exists (now (world s')). split; [by apply Hr|]. lia.
    + step. step. intros result [= <-]. cbn [svc base_path cache ttl entries world].
      split; [done|]. split; [done|]. exists stamp. split; [|done].
      apply cache_find_last, cache_remove_absent.
  - step. eapply ends_weaken; [apply list_attempts_caches|].
    intros r s' (Hb & Ht & Hr) result ->. cbn [svc base_path cache ttl] in *.
    rewrite ?Hb, ?Ht, ?Hb1, ?Hc1. split; [done|]. split; [done|].
    exists (now (world s')). split; [by apply Hr|]. lia.
Qed.

(** X24.  A listing that [list_directory] has returned is in the cache:
    asked again for the same path right away, with a token at hand, the
    client returns the same listing without a request, whatever the
    server would answer now. *)
Theorem returned_listing_is_served_again path s result :
  0 <= ttl (cache (svc s)) ->
  fst (list_directory path s) = Returned result ->
  Py.truthy (token (svc (snd (list_directory path s)))) <> None ->
  fst (list_directory path (snd (list_directory path s))) = Returned result /\
  log (snd (list_directory path (snd (list_directory path s))))
    = log (snd (list_directory path s)) /\
  world (snd (list_directory path (snd (list_directory path s))))
    = world (snd (list_directory path s)).
Proof.
  intros Httl Hret Htok.
  destruct (ends_elim _ _ _ (list_directory_caches path s Httl) result Hret)
    as (Hb & Ht & stamp & Hfind & Hfresh).
  apply (ends_elim _ _ _
           (list_directory_cached path (snd (list_directory path s)) result stamp Htok
              ltac:(by rewrite Hb) Hfresh)).
Qed.

Lemma returned_listing_is_served_again_witness :
  let s0 := start nas 0 (script [Http 429 None; ok_body [mkItem "a.mkv" false]]) in
  fst (list_directory "/x" s0) = Returned [mkFileInfo "/x/a.mkv" "a.mkv" false] /\
  fst (list_directory "/x" (snd (list_directory "/x" s0)))
    = Returned [mkFileInfo "/x/a.mkv" "a.mkv" false] /\
  log (snd (list_directory "/x" (snd (list_directory "/x" s0))))
    = log (snd (list_directory "/x" s0)).
Proof.
  cbv zeta. split; [reflexivity|].
  destruct (returned_listing_is_served_again "/x"
              (start nas 0 (script [Http 429 None; ok_body [mkItem "a.mkv" false]]))
              [mkFileInfo "/x/a.mkv" "a.mkv" false]) as (H1 & H2 & _);
    [vm_compute; discriminate | reflexivity | discriminate |].
  split; [exact H1 | exact H2].
Defined.

(** *** How many requests a method sends *)

Definition is_request (e : Event) : bool :=
  match e with EvHttp _ => true | _ => false end.

Definition requests (evs : list Event) : nat := length (List.filter is_request evs).

Lemma requests_snoc evs e :
  requests (evs ++ [e]) = (requests evs + if is_request e then 1 else 0)%nat.
Proof.
  unfold requests. rewrite List.filter_app, length_app. simpl.
  by destruct (is_request e).
Qed.

(** [sends k m]: running [m] sends at most [k] requests of any kind. *)
Definition sends {A} (k : nat) (m : M A) : Prop :=
  forall s, (requests (log (snd (m s))) <= requests (log s) + k)%nat.

Lemma sends_weaken {A} j k (m : M A) : (j <= k)%nat -> sends j m -> sends k m.
Proof. intros Hjk Hm s. specialize (Hm s). lia. Qed.

Lemma sends_ret {A} (a : A) : sends 0 (ret a).
Proof. intros s. simpl. lia. Qed.

Lemma sends_raise {A} e : sends 0 (@raise A e).
Proof. intros s. simpl. lia. Qed.

Lemma sends_bind {A B} j k (m : M A) (f : A -> M B) :
  sends j m -> (forall a, sends k (f a)) -> sends (j + k) (bind m f).
Proof.
  intros Hm Hf s. unfold bind. specialize (Hm s).
  destruct (m s) as [[a|e] s']; simpl in *; [|lia].
  specialize (Hf a s'). lia.
Qed.

Lemma sends_catch {A} j k (m : M A) (h : string -> M A) :
  sends j m -> (forall e, sends k (h e)) -> sends (j + k) (catch m h).
Proof.
  intros Hm Hh s. unfold catch. specialize (Hm s).
  destruct (m s) as [[a|e] s']; simpl in *; [lia|].
  specialize (Hh e s'). lia.
Qed.

Lemma sends_sleep ms : sends 0 (sleep ms).
Proof. intros s. simpl. rewrite requests_snoc. simpl. lia. Qed.

Lemma sends_gate : sends 0 gate.
Proof. intros s. simpl. rewrite requests_snoc. simpl. lia. Qed.

Lemma sends_get_service : sends 0 get_service.
Proof. intros s. simpl. lia. Qed.

Lemma sends_clock : sends 0 clock.
Proof. intros s. simpl. lia. Qed.

Lemma sends_set_token t : sends 0 (set_token t).
Proof. intros s. simpl. lia. Qed.

Lemma sends_set_cache c : sends 0 (set_cache c).
Proof. intros s. simpl. lia. Qed.

Create HintDb sends.
#[local] Hint Resolve sends_ret sends_raise sends_sleep sends_gate
  sends_get_service sends_clock sends_set_token sends_set_cache : sends.

(** Steps for a computation that sends nothing. *)
Ltac silent_step :=
  first
    [ solve [auto with sends]
    | match goal with
      | |- sends _ (bind _ _) => apply (sends_bind 0 0); [|intros ?]
      | |- sends _ (catch _ _) => apply (sends_catch 0 0); [|intros ?]
      end
    | match goal with
      | |- sends _ (if ?c then _ else _) => destruct c
      | |- sends _ (match ?x with _ => _ end) => destruct x
      end ].

Ltac silent := repeat silent_step.

Lemma sends_post r : sends 1 (post r).
Proof.
  unfold post. apply (sends_bind 1 0).
  - intros s. unfold http.
    destruct (pending (world s)) as [|[took resp] rest]; cbn [snd log];
      rewrite requests_snoc; apply Nat.le_refl.
  - intros resp. silent.
Qed.

Lemma sends_json body : sends 0 (json body).
Proof. unfold json. silent. Qed.

Lemma sends_full_path path : sends 0 (_full_path path).
Proof. unfold _full_path. silent. Qed.

Lemma sends_msg m : sends 0 (msg_lower_has_too_many m).
Proof. unfold msg_lower_has_too_many. silent. Qed.

#[local] Hint Resolve sends_json sends_full_path sends_msg : sends.

Lemma sends_answered r codes : sends 0 (answered r codes).
Proof. unfold answered. destruct r as [status body]. silent. Qed.

#[local] Hint Resolve sends_answered : sends.

Lemma sends_login : sends 1 _login_sync.
Proof.
  unfold _login_sync. apply (sends_catch 1 0); [|intros; silent].
  apply (sends_bind 0 1); [silent|]. intros sv.
  apply (sends_bind 1 0); [apply sends_post|]. intros r. silent.
Qed.

Lemma sends_ensure_login : sends 1 ensure_login.
Proof.
  unfold ensure_login. apply (sends_bind 0 1); [silent|]. intros sv.
  destruct (Py.truthy (token sv)); [apply (sends_weaken 0); [lia | silent]|].
  apply (sends_bind 1 0); [apply sends_login|]. intros ok. silent.
Qed.

(** The prelude of a writing method: login, paths, gate. *)
Ltac prelude k :=
  apply (sends_bind 1 k); [apply sends_ensure_login | intros _];
  repeat (apply (sends_bind 0 k); [solve [auto with sends] | intros ?]).

Lemma sends_wait_copied rounds path : sends rounds (wait_copied rounds path).
Proof.
  induction rounds as [|n IH]; cbn [wait_copied]; [silent|].
  apply (sends_bind 0 (S n)); [silent|]. intros _.
  apply (sends_bind 1 n); [apply sends_post|]. intros [status body].
  destruct (status =? 200); [|apply IH].
  apply (sends_bind 0 n); [silent|]. intros data.
  destruct (code_is data 200); [apply (sends_weaken 0); [lia | silent] | apply IH].
Qed.

Lemma sends_list_attempt full_path : sends 2 (list_attempt full_path).
Proof.
  unfold list_attempt. apply (sends_catch 2 0); [|intros; silent].
  apply (sends_bind 0 2); [silent|]. intros _.
  apply (sends_bind 1 1); [apply sends_post|]. intros [status body].
  destruct (status =? 200); [|apply (sends_weaken 0); [lia | silent]].
  apply (sends_bind 0 1); [silent|]. intros data.
  destruct (code_is data 200); [apply (sends_weaken 0); [lia | silent]|].
  destruct (code_is data 401); [|apply (sends_weaken 0); [lia | silent]].
  apply (sends_bind 0 1); [silent|]. intros _.
  apply (sends_bind 1 0); [apply sends_login|]. intros ok. silent.
Qed.

Lemma sends_list_attempts full_path attempts : forall last_error,
  sends (2 * length attempts) (list_attempts full_path attempts last_error).
Proof.
  induction attempts as [|attempt rest IH]; intros last_error; cbn [list_attempts length].
  - silent.
  - replace (2 * S (length rest))%nat with (2 + 2 * length rest)%nat by lia.
    apply sends_bind; [apply sends_list_attempt|].
    intros [result| |err].
    + apply (sends_weaken 0); [lia | silent].
    + apply IH.
    + apply (sends_bind 0 (2 * length rest)); [silent|]. intros _. apply IH.
Qed.

(** X25.  No method keeps the server busy without bound.  Counting the
    login a method may need first: [move_file] sends at most 3 requests,
    [delete_file], [create_directory], [put_file_content] and
    [refresh_directory_async] at most 2, [copy_file] at most 63 (the
    copy, up to 60 probes for the copied file, the rename), and
    [list_directory] at most 7 (three list requests, each of which may
    be followed by a new login). *)
Theorem request_budget :
  (forall src dst, sends 3 (move_file src dst)) /\
  (forall src dst, sends 63 (copy_file src dst)) /\
  (forall path, sends 2 (delete_file path)) /\
  (forall path, sends 2 (create_directory path)) /\
  (forall path content, sends 2 (put_file_content path content)) /\
  (forall path, sends 2 (refresh_directory_async path)) /\
  (forall path, sends 7 (list_directory path)).
Proof.
  split; [|split; [|split; [|split; [|split; [|split]]]]].
  - intros src dst. unfold move_file. prelude 2%nat.
    apply (sends_catch 2 0); [|intros; silent].
    apply (sends_bind 2 0); [|intros; silent].
    destruct (String.eqb _ _); [apply (sends_weaken 1); [lia | apply sends_post]|].
    apply (sends_bind 1 1); [apply sends_post|]. intros moved.
    destruct (negb _); [apply sends_post | apply (sends_weaken 0); [lia | silent]].
  - intros src dst. unfold copy_file. prelude 62%nat.
    apply (sends_catch 62 0); [|intros; silent].
    apply (sends_bind 1 61); [apply sends_post|]. intros [status body].
    destruct (status =? 200); [|apply (sends_weaken 0); [lia | silent]].
    apply (sends_bind 0 61); [silent|]. intros data.
    destruct (negb (code_is data 200)); [apply (sends_weaken 0); [lia | silent]|].
    apply (sends_bind 60 1); [apply sends_wait_copied|]. intros _.
    destruct (negb _); [|apply (sends_weaken 0); [lia | silent]].
    apply (sends_bind 1 0); [apply sends_post|]. intros renamed. silent.
  - intros path. unfold delete_file. prelude 1%nat.
    apply (sends_catch 1 0); [|intros; silent].
    apply (sends_bind 1 0); [apply sends_post|]. intros; silent.
  - intros path. unfold create_directory. prelude 1%nat.
    apply (sends_catch 1 0); [|intros; silent].
    apply (sends_bind 1 0); [apply sends_post|]. intros; silent.
  - intros path content. unfold put_file_content. prelude 1%nat.
    apply (sends_catch 1 0); [|intros; silent].
    apply (sends_bind 1 0); [apply sends_post|]. intros; silent.
  - intros path. unfold refresh_directory_async.
    apply (sends_bind 0 2); [silent|]. intros sv.
    apply (sends_bind 1 1).
    { destruct (Py.truthy (token sv)); [apply (sends_weaken 0); [lia | silent]|].
      apply sends_login. }
    intros [|]; cbn [negb]; [|apply (sends_weaken 0); [lia | silent]].
    apply (sends_bind 0 1); [silent|]. intros fp.
    apply (sends_catch 1 0); [|intros; silent].
    apply (sends_bind 1 0); [apply sends_post|]. intros [status body]. silent.
  - intros path. unfold list_directory. prelude 6%nat.
    destruct (cache_get _ _ _) as [cached c].
    apply (sends_bind 0 6); [silent|]. intros _.
    destruct cached as [result|]; [apply (sends_weaken 0); [lia | silent]|].
    apply (sends_list_attempts _ (Py.range 0 MAX_RETRIES) None).
Qed.

(** *** A move across directories that also renames *)

Lemma bind_returned {A B} (m : M A) (f : A -> M B) s a s' :
  m s = (Returned a, s') -> bind m f s = f a s'.
Proof. intros H. unfold bind. by rewrite H. Qed.

Lemma post_answered r s took status body more :
  pending (world s) = (took, Http status body) :: more ->
  post r s = (Returned (status, body),
              mkSt (svc s) (mkWorld (now (world s) + took) more) (log s ++ [EvHttp r])).
Proof. intros Hp. unfold post, bind, http. by rewrite Hp. Qed.

(** X26.  When source and destination differ in directory and in name,
    [move_file] sends a move request and then a rename request, and its
    result is read from the answer to the rename alone: the answer to
    the move request is not looked at. *)
Theorem move_across_directories_reads_the_rename
    source destination s took1 status1 body1 took2 answer more :
  let src_full := full_path_of (base_path (svc s)) source in
  let dst_full := full_path_of (base_path (svc s)) destination in
  Py.truthy (token (svc s)) <> None ->
  OsPath.dirname src_full <> OsPath.dirname dst_full ->
  OsPath.basename src_full <> OsPath.basename dst_full ->
  pending (world s) = (took1, Http status1 body1) :: (took2, Http 200 (Some answer)) :: more ->
  fst (move_file source destination s) = Returned (code_is answer 200) /\
  log (snd (move_file source destination s))
  = log s ++ [EvGate;
              EvHttp (FsMove (OsPath.dirname src_full) (OsPath.dirname dst_full)
                             [OsPath.basename src_full]);
              EvHttp (FsRename (OsPath.dirname dst_full +:+ "/" +:+ OsPath.basename src_full)
                               (OsPath.basename dst_full))].
Proof.
  intros src_full dst_full Htok Hdir Hname Hp.
  unfold move_file. rewrite ensure_login_logged_in by done.
  rewrite (bind_returned _ _ s src_full s) by done.
  rewrite (bind_returned _ _ s dst_full s) by done.
  fold src_full dst_full.
  apply String.eqb_neq in Hdir, Hname. rewrite Hdir, Hname. cbn [negb].
  set (s1 := mkSt (svc s) (world s) (log s ++ [EvGate])).
  rewrite (bind_returned gate _ s tt s1) by done.
  set (s2 := mkSt (svc s) (mkWorld (now (world s) + took1)
                             ((took2, Http 200 (Some answer)) :: more))
                  (log s1 ++ [EvHttp (FsMove (OsPath.dirname src_full)
                                        (OsPath.dirname dst_full)
                                        [OsPath.basename src_full])])).
  unfold catch.
  rewrite (bind_returned _ _ s1 (200, Some answer)
             (mkSt (svc s) (mkWorld (now (world s) + took1 + took2) more)
                (log s2 ++ [EvHttp (FsRename
                                      (OsPath.dirname dst_full +:+ "/" +:+
                                       OsPath.basename src_full)
                                      (OsPath.basename dst_full))]))).
  - unfold answered. cbn [Z.eqb Pos.eqb json bind ret fst snd log existsb].
    rewrite orb_false_r. split; [done|].
    unfold s2, s1. cbn [log]. by rewrite <- !app_assoc.
  - rewrite (bind_returned _ _ s1 (status1, body1) s2)
      by exact (post_answered _ s1 took1 status1 body1 _ Hp).
    exact (post_answered _ s2 took2 200 (Some answer) more eq_refl).
Qed.

Lemma move_across_directories_reads_the_rename_witness :
  fst (move_file "/x/a.mkv" "/y/b.mkv"
         (start nas 0 (script [Http 500 None; code_body 200 "success"])))
  = Returned true.
Proof.
  apply (move_across_directories_reads_the_rename "/x/a.mkv" "/y/b.mkv"
           (start nas 0 (script [Http 500 None; code_body 200 "success"]))
           10 500 None 10 (mkBody (Some 200) (MsgStr "success") None []) []);
    [discriminate | vm_compute; discriminate | vm_compute; discriminate | reflexivity].
Defined.

End AlistFacts.

(** ** Retrying failed uploads, continued *)

Module RetryFacts.
Import Retry RetryProofs.

(** The paths downloaded, in the order of the calls. *)
Definition downloads (log : list Event) : list string :=
  omap (fun e => match e with Download path => Some path | Upload _ _ => None end) log.

(** An entry written back for the pair of paths [sp], [tp]. *)
Definition retried (sp tp : string) (i : FailedUpload) : Prop :=
  exists e, i = mkFailedUpload (Some sp) (Some tp) (Some "subtitle") (Some e).

(** A subtitle entry has both its paths. *)
Definition complete (i : FailedUpload) : Prop :=
  is_subtitle i = true -> is_Some (fu_source_path i) /\ is_Some (fu_target_path i).

Lemma downloads_snoc_download log path : downloads (log ++ [Download path]) = downloads log ++ [path].
Proof. unfold downloads. by rewrite omap_app. Qed.

Lemma downloads_snoc_upload log path content :
  downloads (log ++ [Upload path content]) = downloads log.
Proof. unfold downloads. rewrite omap_app. simpl. by rewrite app_nil_r. Qed.

Section Facts.
Context {W : Type}.
Implicit Types (source target : StorageService W) (w : W).

(** The stores answer every download with a text and accept every upload. *)
Definition working source target : Prop :=
  (forall path w, exists text w',
     get_file_content source path w = (Returned (Some text), w') /\ text <> EmptyString) /\
  (forall path text w, exists w', put_file_content target path text w = (Returned true, w')).

Definition accounted (sp tp : string) (p : Progress) (log : list Event)
    (r : Progress * W * list Event) : Prop :=
  let '(p1, _, log1) := r in
  success_count p1 + error_count p1 = success_count p + error_count p + 1 /\
  error_count p1 - len (still_failed p1) = error_count p - len (still_failed p) /\
  downloads log1 = downloads log ++ [sp] /\
  exists added, still_failed p1 = still_failed p ++ added /\ Forall (retried sp tp) added.

Lemma failed_again_accounted sp tp e p w log log1 :
  downloads log1 = downloads log ++ [sp] ->
  accounted sp tp p log (failed_again sp tp e p, w, log1).
Proof.
  intros Hlog. unfold accounted, failed_again. cbn [success_count error_count still_failed].
  unfold len. rewrite length_app. cbn [length].
  split; [lia|]. split; [lia|]. split; [done|].
  eexists. split; [done|]. constructor; [by exists e | constructor].
Qed.

Lemma retry_one_accounted source target sp tp p w log :
  accounted sp tp p log (retry_one source target sp tp p w log).
Proof.
  unfold retry_one.
  destruct (get_file_content source sp w) as [[content|e] w1];
    [|apply failed_again_accounted, downloads_snoc_download].
  destruct (Py.truthy content) as [text|];
    [|apply failed_again_accounted, downloads_snoc_download].
  destruct (put_file_content target tp text w1) as [[[|]|e] w2].
  - unfold accounted. cbn [success_count error_count still_failed].
    rewrite downloads_snoc_upload, downloads_snoc_download.
    split; [lia|]. split; [lia|]. split; [done|].
    exists []. by rewrite app_nil_r.
  - apply failed_again_accounted. by rewrite downloads_snoc_upload, downloads_snoc_download.
  - apply failed_again_accounted. by rewrite downloads_snoc_upload, downloads_snoc_download.
Qed.

(** An entry written back comes from a subtitle entry of the list. *)
Definition comes_from (subs : list FailedUpload) (i : FailedUpload) : Prop :=
  exists item sp tp,
    item ∈ subs /\ fu_source_path item = Some sp /\ fu_target_path item = Some tp /\
    retried sp tp i.

Lemma retry_loop_accounted source target items : forall p w log p' w' log',
  retry_loop source target items p w log = (Returned p', w', log') ->
  let subs := filter (fun i => is_subtitle i = true) items in
  success_count p' + error_count p' = success_count p + error_count p + len subs /\
  error_count p' - len (still_failed p') = error_count p - len (still_failed p) /\
  downloads log' = downloads log ++ omap fu_source_path subs /\
  exists added, still_failed p' = still_failed p ++ added /\ Forall (comes_from subs) added.
Proof.
  induction items as [|item rest IH]; intros p w log p' w' log'; cbn [retry_loop].
  - intros [= -> -> ->]. cbn zeta. rewrite filter_nil. unfold len. simpl.
    rewrite app_nil_r. split; [lia|]. split; [lia|]. split; [done|].
    exists []. by rewrite app_nil_r.
  - cbn zeta. rewrite filter_cons.
    destruct (is_subtitle item) eqn:Hsub; cbn [negb].
    + destruct (decide (true = true)) as [_|?]; [|done].
      destruct (fu_source_path item) as [sp|] eqn:Hsp; [|done].
      destruct (fu_target_path item) as [tp|] eqn:Htp; [|done].
      pose proof (retry_one_accounted source target sp tp p w log) as Hone.
      destruct (retry_one source target sp tp p w log) as [[p1 w1] log1].
      destruct Hone as (H1 & H2 & H3 & added1 & H4 & H5).
      intros Hloop. destruct (IH _ _ _ _ _ _ Hloop) as (I1 & I2 & I3 & added2 & I4 & I5).
      assert (Hcons : forall l, omap fu_source_path (item :: l) = sp :: omap fu_source_path l)
        by (intros l; simpl; by rewrite Hsp).
      rewrite Hcons. unfold len in *. cbn [length].
      split; [lia|]. split; [lia|]. split; [by rewrite I3, H3, <- app_assoc|].
      exists (added1 ++ added2). split; [by rewrite I4, H4, app_assoc|].
      apply Forall_app. split.
      * eapply Forall_impl; [exact H5|]. intros i Hi.
        exists item, sp, tp. split; [by left | done].
      * eapply Forall_impl; [exact I5|]. intros i (it & sp' & tp' & Hin & Hr).
        exists it, sp', tp'. split; [by right | done].
    + destruct (decide (false = true)) as [?|_]; [done|]. apply IH.
Qed.

(** X27.  The books of a retry pass.  When the pass returns, every
    subtitle entry was downloaded exactly once, in the order of the list;
    successes and failures add up to the number of subtitle entries; the
    list written back has one entry per failure, each with the paths of
    a subtitle entry of the old list, the type [subtitle] and an error
    text. *)
Theorem retry_accounts_for_every_subtitle source target items w message update w' log :
  items <> [] ->
  retry_failed_uploads (Some (mkAgentState (Some items))) (Some source) (Some target) w
    = (Returned (message, update), w', log) ->
  let subs := filter (fun i => is_subtitle i = true) items in
  exists p,
    message = report (len items) p /\
    su_failed_uploads update = Some (still_failed p) /\
    success_count p + error_count p = len subs /\
    error_count p = len (still_failed p) /\
    downloads log = omap fu_source_path subs /\
    Forall (comes_from subs) (still_failed p).
Proof.
  intros Hne. unfold retry_failed_uploads. cbn [failed_uploads default from_option id].
  destruct items as [|i rest]; [done|].
  destruct (retry_loop source target (i :: rest) (mkProgress 0 0 []) w [])
    as [[[p|e] w1] log1] eqn:Hloop; [|intros [=]].
  unfold make_tool_response. intros Heq. injection Heq as <- <- <- <-.
  destruct (retry_loop_accounted _ _ _ _ _ _ _ _ _ Hloop) as (H1 & H2 & H3 & added & H4 & H5).
  cbn [success_count error_count still_failed] in *. unfold len in *. cbn [length] in H2.
  exists p. split; [done|]. split; [done|]. split; [lia|]. split; [lia|].
  split; [done|]. by rewrite H4.
Qed.

Lemma retry_loop_working source target items : forall p w log,
  working source target -> Forall complete items ->
  exists w' log',
    retry_loop source target items p w log
    = (Returned (mkProgress
                   (success_count p + len (filter (fun i => is_subtitle i = true) items))
                   (error_count p) (still_failed p)), w', log').
Proof.
  intros p w log [Hget Hput] Hall. revert p w log.
  induction Hall as [|item rest Hitem _ IH]; intros p w log; cbn [retry_loop].
  - exists w, log. rewrite filter_nil. unfold len. simpl. rewrite Z.add_0_r. by destruct p.
  - rewrite filter_cons. destruct (is_subtitle item) eqn:Hsub; cbn [negb].
    + destruct (decide (true = true)) as [_|?]; [|done].
      destruct (Hitem Hsub) as [[sp Hsp] [tp Htp]]. rewrite Hsp, Htp.
      unfold retry_one.
      destruct (Hget sp w) as (text & w1 & -> & Htext).
      assert (Py.truthy (Some text) = Some text) as ->.
      { unfold Py.truthy. apply String.eqb_neq in Htext. by rewrite Htext. }
      destruct (Hput tp text w1) as (w2 & ->).
      destruct (IH (mkProgress (success_count p + 1) (error_count p) (still_failed p)) w2
                   ((log ++ [Download sp]) ++ [Upload tp text])) as (w' & log' & ->).
      exists w', log'. cbn [success_count error_count still_failed].
      unfold len. cbn [length].
      by replace (success_count p + 1 +
                  Z.of_nat (length (filter (fun i => is_subtitle i = true) rest)))
        with (success_count p +
              Z.of_nat (S (length (filter (fun i => is_subtitle i = true) rest)))) by lia.
    + destruct (decide (false = true)) as [?|_]; [done|]. apply IH.
Qed.

(** X28.  A retry pass against stores that work clears the list: when
    every download yields a text and every upload is accepted, and the
    subtitle entries have their two paths, the pass returns, counts every
    subtitle entry as a success and writes the empty list back. *)
Theorem retry_with_working_stores_clears_the_list source target items w :
  items <> [] -> Forall complete items -> working source target ->
  exists w' log,
    retry_failed_uploads (Some (mkAgentState (Some items))) (Some source) (Some target) w
    = (Returned (report (len items)
                   (mkProgress (len (filter (fun i => is_subtitle i = true) items)) 0 []),
                 mkStateUpdate (Some [])), w', log).
Proof.
  intros Hne Hall Hwork. unfold retry_failed_uploads.
  cbn [failed_uploads default from_option id].
  destruct items as [|i rest]; [done|].
  destruct (retry_loop_working source target (i :: rest) (mkProgress 0 0 []) w [] Hwork Hall)
    as (w' & log' & ->).
  by exists w', log'.
Qed.

End Facts.

(** A store that has every file and takes every file. *)
Definition generous : StorageService (list string) :=
  mkStorageService
    (fun path w => (Returned (Some ("text of " +:+ path)), w))
    (fun path content w => (Returned true, path :: w)).

Definition two_failures : list FailedUpload :=
  [ mkFailedUpload (Some "/src/a.ass") (Some "/out/a.ass") (Some "subtitle") (Some "HTTP 403");
    mkFailedUpload (Some "/src/a.strm") (Some "/out/a.strm") (Some "strm") None;
    mkFailedUpload (Some "/src/b.ass") (Some "/out/b.ass") (Some "subtitle") (Some "HTTP 403") ].

Lemma retry_accounts_for_every_subtitle_witness :
  exists p,
    success_count p + error_count p = 2 /\
    error_count p = len (still_failed p) /\
    downloads (snd (retry_failed_uploads (Some (mkAgentState (Some two_failures)))
                      (Some shelf_service) (Some shelf_service) [("/src/b.ass", "text")]))
    = ["/src/a.ass"; "/src/b.ass"].
Proof.
  destruct (retry_accounts_for_every_subtitle shelf_service shelf_service two_failures
              [("/src/b.ass", "text")] _ _ _ _ ltac:(discriminate) eq_refl)
    as (p & _ & _ & H1 & H2 & H3 & _).
  exists p. split; [exact H1|]. split; [exact H2 | exact H3].
Defined.

Lemma retry_with_working_stores_clears_the_list_witness :
  exists w' log,
    retry_failed_uploads (Some (mkAgentState (Some two_failures)))
      (Some generous) (Some generous) []
    = (Returned (report 3 (mkProgress 2 0 []), mkStateUpdate (Some [])), w', log).
Proof.
  apply (retry_with_working_stores_clears_the_list generous generous two_failures []).
  - discriminate.
  - unfold two_failures.
    repeat (apply List.Forall_cons; [intros _; split; by eexists|]). apply List.Forall_nil.
  - split.
    + intros path w. exists ("text of " +:+ path), w. split; [reflexivity|].
      by destruct path.
    + intros path text w. by exists (path :: w).
Defined.

End RetryFacts.

(** ** The subtitle batch of [generate_strm] *)

Module SubtitleBatchFacts.
Import Strm Retry SubtitleBatch RetryFacts.










End SubtitleBatchFacts.

(** ** Reading an organised name back *)

Module RoundTrip.
Import Regex Classifier Naming SubProofs NamingProofs StringFacts NamingFacts.

(** Any byte but an ASCII letter other than [S]. *)
Definition no_letter (c : ascii) : bool := negb (Str.is_upper c || Str.is_lower c).

Definition prefix_char (c : ascii) : bool := no_letter c || Str.eqb_char c "S".

(** The first pattern of the list, [EP?\.?(\d{2,4})]. *)
Definition episode_pattern : re :=
  seqs [ichr "E"; Opt (ichr "P"); Opt (chr "."); Group (Rep digit 2 (Some 4%nat))].

Definition tail_of (episode : Z) (ext : string) : string :=
  "E" +:+ Py.fmt_02d episode +:+ ext.

(** What is checked of every tail [Exx.ext]: it begins with [E] and a
    digit, has no codec marker, and the first pattern reads [xx]. *)
Definition tail_ok (ext : string) (episode : Z) : bool :=
  let t := tail_of episode ext in
  match t with
  | String "E" (String d _) => Str.is_digit d
  | _ => false
  end
  && String.eqb (sub_from codec_x26 EmptyString 0 None t) t
  && String.eqb (sub_from codec_names EmptyString 0 None t) t
  && match match_here episode_pattern None t with
     | Some m =>
         match group1 m with
         | Some g => Str.digits_value 0 g =? episode
         | None => false
         end
     | None => false
     end.

Definition extensions : list string := [".mkv"; ".mp4"; ".strm"].

Lemma tails_ok :
  forallb (fun ext => forallb (tail_ok ext) (seqZ 1 999)) extensions = true.
Proof. vm_compute. reflexivity. Qed.

Lemma tail_ok_in_range ext episode :
  In ext extensions -> 1 <= episode <= 999 -> tail_ok ext episode = true.
Proof.
  intros Hext Hep. pose proof tails_ok as H.
  rewrite forallb_forall in H. specialize (H ext Hext).
  rewrite forallb_forall in H. apply H.
  apply list_elem_of_In, elem_of_seqZ. lia.
Qed.

(** *** The codec markers do not look behind *)

Lemma sub_from_start r repl :
  (forall bef c z, match_here r bef (String c z) = match_here r None (String c z)) ->
  forall bef s, sub_from r repl 0 bef s = sub_from r repl 0 None s.
Proof. intros H bef [|c z]; [done|]. cbn [sub_from]. by rewrite H. Qed.

Lemma codec_x26_start bef c z :
  match_here codec_x26 bef (String c z) = match_here codec_x26 None (String c z).
Proof. reflexivity. Qed.

Lemma codec_names_start bef c z :
  match_here codec_names bef (String c z) = match_here codec_names None (String c z).
Proof. reflexivity. Qed.

Lemma episode_pattern_start bef c z :
  match_here episode_pattern bef (String c z) = match_here episode_pattern None (String c z).
Proof. reflexivity. Qed.

(** *** No marker and no episode tag begins in the prefix *)

Definition is_b (c : ascii) : bool :=
  Str.eqb_char (Str.lower_char c) (Str.lower_char "b").

Definition third_not_b (z : string) : Prop :=
  match z with
  | String _ (String _ (String c _)) => is_b c = false
  | _ => True
  end.

Lemma ten_bit_fails {R} z bef g (k : pos -> option R) :
  third_not_b z -> exec (ilit "10bit") (mkPos bef z g) k = None.
Proof.
  intros H. destruct z as [|c1 [|c2 [|c3 z]]]; cbn [ilit exec ichr rest group1].
  - done.
  - by destruct (Str.eqb_char _ _).
  - destruct (Str.eqb_char _ _); [|done]. by destruct (Str.eqb_char _ _).
  - destruct (Str.eqb_char _ _); [|done]. destruct (Str.eqb_char _ _); [|done].
    simpl in H. unfold is_b in H. by rewrite H.
Qed.

Definition marker_start (c : ascii) : bool := iset "ham" c.

Lemma named_markers_start :
  starts_in marker_start (Alt (ilit "HEVC") (Alt (ilit "AVC") (ilit "Ma10p"))).
Proof.
  repeat apply starts_alt; apply starts_seq, starts_chr; intros c;
    NumeralProofs.each_byte c; vm_compute; congruence.
Qed.

Lemma codec_names_fails z bef :
  blocked marker_start z -> third_not_b z -> match_here codec_names bef z = None.
Proof.
  intros Hb H3. unfold match_here.
  change codec_names
    with (Alt (ilit "HEVC") (Alt (ilit "AVC") (Alt (ilit "Ma10p") (ilit "10bit")))).
  pose proof (starts_in_fails _ _ named_markers_start pos
                (mkPos bef z None) Some Hb) as Hn.
  cbn [exec] in Hn |- *.
  destruct (exec (ilit "HEVC") _ _); [done|].
  destruct (exec (ilit "AVC") _ _); [done|].
  destruct (exec (ilit "Ma10p") _ _); [done|].
  by apply ten_bit_fails.
Qed.

Lemma prefix_char_spec c :
  prefix_char c = true ->
  iset "xh" c = false /\ marker_start c = false /\ is_b c = false /\
  Str.eqb_char (Str.lower_char c) (Str.lower_char "E") = false.
Proof. NumeralProofs.each_byte c; vm_compute; intros; try discriminate; repeat split. Qed.

Lemma digit_not_b d : Str.is_digit d = true -> is_b d = false.
Proof. NumeralProofs.each_byte d; vm_compute; congruence. Qed.

(** A string that begins in the prefix and runs into a tail. *)
Lemma third_not_b_prefix c pre d t :
  prefix_char c = true -> Str.all_chars prefix_char pre = true ->
  Str.is_digit d = true ->
  third_not_b (String c pre +:+ String "E" (String d t)).
Proof.
  intros Hc Hpre Hd. rewrite append_cons.
  destruct pre as [|c2 [|c3 pre]]; cbn [third_not_b String.append].
  - by apply digit_not_b.
  - done.
  - simpl in Hpre. apply andb_prop in Hpre as [_ [H3 _]%andb_prop].
    apply (prefix_char_spec c3 H3).
Qed.

Section Tail.
Variables (d : ascii) (t : string).
Hypothesis Hd : Str.is_digit d = true.

Let tail : string := String "E" (String d t).

Lemma sub_x26_prefix pre : forall bef,
  Str.all_chars prefix_char pre = true ->
  sub_from codec_x26 EmptyString 0 None tail = tail ->
  sub_from codec_x26 EmptyString 0 bef (pre +:+ tail) = pre +:+ tail.
Proof.
  induction pre as [|c pre IH]; intros bef Hpre Htail.
  - change (EmptyString +:+ tail) with tail. by rewrite (sub_from_start _ _ codec_x26_start).
  - simpl in Hpre. apply andb_prop in Hpre as [Hc Hpre].
    rewrite append_cons. cbn [sub_from]. unfold match_here.
    rewrite (starts_in_fails (iset "xh") codec_x26);
      [|by apply starts_seq, starts_chr | simpl; apply (prefix_char_spec c Hc)].
    by rewrite IH.
Qed.

Lemma sub_names_prefix pre : forall bef,
  Str.all_chars prefix_char pre = true ->
  sub_from codec_names EmptyString 0 None tail = tail ->
  sub_from codec_names EmptyString 0 bef (pre +:+ tail) = pre +:+ tail.
Proof.
  induction pre as [|c pre IH]; intros bef Hpre Htail.
  - change (EmptyString +:+ tail) with tail. by rewrite (sub_from_start _ _ codec_names_start).
  - pose proof Hpre as Hall. simpl in Hpre. apply andb_prop in Hpre as [Hc Hpre].
    rewrite append_cons. cbn [sub_from].
    rewrite <- append_cons, codec_names_fails;
      [|rewrite append_cons; simpl; apply (prefix_char_spec c Hc)
       |by apply third_not_b_prefix].
    rewrite append_cons. by rewrite IH.
Qed.

Lemma search_prefix pre m : forall bef,
  Str.all_chars prefix_char pre = true ->
  match_here episode_pattern None tail = Some m ->
  search_from episode_pattern bef (pre +:+ tail) = Some m.
Proof.
  induction pre as [|c pre IH]; intros bef Hpre Hm.
  - change (EmptyString +:+ tail) with tail. unfold tail at 1. cbn [search_from].
    rewrite episode_pattern_start. fold tail. by rewrite Hm.
  - simpl in Hpre. apply andb_prop in Hpre as [Hc Hpre].
    rewrite append_cons. cbn [search_from]. unfold match_here at 1.
    rewrite (starts_in_fails
               (fun x => Str.eqb_char (Str.lower_char x) (Str.lower_char "E"))
               episode_pattern);
      [|by apply starts_seq, starts_chr | simpl; apply (prefix_char_spec c Hc)].
    by apply IH.
Qed.

End Tail.

Lemma no_letter_prefix c : no_letter c = true -> prefix_char c = true.
Proof. unfold prefix_char. by intros ->. Qed.

Lemma numeral_prefix c : numeral_char c = true -> prefix_char c = true.
Proof. NumeralProofs.each_byte c; vm_compute; congruence. Qed.

Lemma sanitize_filename_no_letter title :
  Str.all_chars no_letter title = true ->
  Str.all_chars no_letter (sanitize_filename title) = true.
Proof.
  intros Ht. unfold sanitize_filename.
  apply strip_all_chars.
  apply sub_all_chars; [done|]. apply sub_all_chars; [done|].
  apply sub_all_chars; [done|].
  apply replace_char_all_chars; [done|].
  apply replace_char_all_chars; [done|].
  by apply sub_all_chars.
Qed.

(** X30.  An episode file named by [format_episode_name] is read back
    with its episode number: for a title without ASCII letters, an
    episode in [1 .. 999], any season and one of the extensions [.mkv],
    [.mp4] and [.strm], [extract_episode_number] returns the episode
    the name was built from. *)
Theorem format_episode_name_reads_back title season episode ext :
  Str.all_chars no_letter title = true ->
  1 <= episode <= 999 ->
  In ext extensions ->
  extract_episode_number (format_episode_name title season episode ext) = episode.
Proof.
  intros Htitle Hep Hext.
  pose proof (tail_ok_in_range ext episode Hext Hep) as Hok.
  unfold tail_ok in Hok. cbv zeta in Hok.
  set (pre := sanitize_filename title +:+ ".S" +:+ Py.fmt_02d season +:+ ".").
  assert (Hname : format_episode_name title season episode ext
                  = pre +:+ tail_of episode ext).
  { unfold format_episode_name, pre, tail_of. rewrite !append_assoc.
    do 3 f_equal. }
  assert (Hpre : Str.all_chars prefix_char pre = true).
  { unfold pre. rewrite !all_chars_app.
    rewrite (all_chars_impl _ _ _ no_letter_prefix (sanitize_filename_no_letter _ Htitle)).
    by rewrite (all_chars_impl _ _ _ numeral_prefix (fmt_02d_chars season)). }
  destruct (tail_of episode ext) as [|e [|d t]] eqn:Htail; [done| |].
  { by NumeralProofs.each_byte e. }
  assert (e = "E"%char) as ->.
  { revert Hok. NumeralProofs.each_byte e; (done || discriminate). }
  cbn iota in Hok.
  apply andb_prop in Hok as [[[Hd Hx]%andb_prop Hn]%andb_prop Hread].
  apply String.eqb_eq in Hx, Hn.
  destruct (match_here episode_pattern None (String "E" (String d t))) as [m|] eqn:Hm;
    [|done].
  destruct (group1 m) as [g|] eqn:Hg; [|done]. apply Z.eqb_eq in Hread.
  unfold extract_episode_number, clean_name, sub. rewrite Hname.
  rewrite (sub_x26_prefix d t pre None Hpre Hx).
  rewrite (sub_names_prefix d t Hd pre None Hpre Hn).
  change patterns with (episode_pattern :: tl patterns). cbn [first_accepted].
  unfold search_number, search.
  rewrite (search_prefix d t pre m None Hpre Hm), Hg, Hread.
  destruct (Z.ltb_spec episode 1000); [|lia].
  destruct (Z.ltb_spec 0 episode); [done | lia].
Qed.

Lemma format_episode_name_reads_back_witness :
  extract_episode_number (format_episode_name "轻音少女!" 2 13 ".mkv") = 13.
Proof.
  apply (format_episode_name_reads_back "轻音少女!" 2 13 ".mkv");
    [reflexivity | lia | simpl; tauto].
Defined.

End RoundTrip.
